(** * A shallow embedding of the py-radix Patricia trie (radix.c, _radix.c)

    The C trie is a pointer structure with parent back-pointers.  It is
    modelled here as an inductive tree [ptr] whose [NULL] constructor is the
    null pointer; a parent chain is a zipper context (a list of [frame]s,
    innermost first), and a node pointer handed out to callers is the
    family head together with the path of left/right turns from it
    ([nodeptr]).  Prefixes are values (the reference counting of
    [Ref_Prefix]/[Deref_Prefix] only manages their lifetime).  Bytes are
    [Strings.Byte.byte]; reading past the end of an address array yields
    [x00] (the tests below only read inside the array). *)

From Stdlib Require Import List NArith ZArith Arith Lia Bool.
From Stdlib Require Import Strings.Byte Sorting.Sorted.
Import ListNotations.

Open Scope nat_scope.

(* ------------------------------------------------------------------ *)
(** ** Prefixes and bit access (MRT defs.h, prefix.c) *)

Inductive addr_family := AF_INET | AF_INET6.

Definition family_eqb (a b : addr_family) : bool :=
  match a, b with
  | AF_INET, AF_INET | AF_INET6, AF_INET6 => true
  | _, _ => false
  end.

Record prefix_t := mk_prefix {
  family : addr_family;
  add : list byte;          (** network byte order, 4 or 16 bytes *)
  bitlen : nat
}.

(** [RADIX_MAXBITS_BY_PREFIX] *)
Definition maxbits_of (f : addr_family) : nat :=
  match f with AF_INET => 32 | AF_INET6 => 128 end.

Definition RADIX_MAXBITS_BY_PREFIX (p : prefix_t) : nat := maxbits_of (family p).

Definition byte_at (a : list byte) (i : nat) : byte := nth i a x00.

(** [BIT_TEST(f, b)] on one byte [x] with [b = 0x80 >> j] *)
Definition byte_bit (x : byte) (j : nat) : bool :=
  negb (N.eqb (N.land (Byte.to_N x) (N.shiftr 128 (N.of_nat j))) 0).

(** [BIT_TEST_SEARCH_BIT(addr, bit)]:
    [addr[bit >> 3] & (0x80 >> (bit & 0x07))] *)
Definition BIT_TEST_SEARCH_BIT (addr : list byte) (b : nat) : bool :=
  byte_bit (byte_at addr (b / 8)) (b mod 8).

(** A bit read that records whether the index lies inside the address of
    the prefix it reads (32 bits for v4, 128 for v6): [None] is a read
    outside the address. *)
Definition bit_read (q : prefix_t) (b : nat) : option bool :=
  if b <? RADIX_MAXBITS_BY_PREFIX q then Some (BIT_TEST_SEARCH_BIT (add q) b)
  else None.

(** [g && BIT_TEST_SEARCH_BIT(q->add, b)] with C's short-circuit: the bit
    is only read when the guard [g] holds. *)
Definition guarded_test (g : bool) (q : prefix_t) (b : nat) : option bool :=
  if g then bit_read q b else Some false.

(** [u_int m = ((~0) << (8 - (mask % 8)))] as a 32-bit unsigned value *)
Definition mask_m (k : nat) : N := (N.ones 32 - N.ones (N.of_nat (8 - k)))%N.

(** [memcmp(addr, dest, n) == 0] *)
Definition memcmp_eq (a d : list byte) (n : nat) : bool :=
  forallb (fun i => Byte.eqb (byte_at a i) (byte_at d i)) (seq 0 n).

Definition comp_with_mask (addr dest : list byte) (mask : nat) : bool :=
  if memcmp_eq addr dest (mask / 8) then
    let n := mask / 8 in
    let m := mask_m (mask mod 8) in
    (mask mod 8 =? 0) ||
    N.eqb (N.land (Byte.to_N (byte_at addr n)) m)
          (N.land (Byte.to_N (byte_at dest n)) m)
  else false.

(** The meaning the proofs use: two addresses agree on their first [n]
    bits. *)
Definition agree (a b : list byte) (n : nat) : Prop :=
  forall i, i < n -> BIT_TEST_SEARCH_BIT a i = BIT_TEST_SEARCH_BIT b i.

(** A prefix [P] contains [Q]: same family, [P] no longer than [Q], and
    the two agree on the first [P.bitlen] bits. *)
Definition contains (P Q : prefix_t) : Prop :=
  family P = family Q /\ bitlen P <= bitlen Q /\ agree (add P) (add Q) (bitlen P).

(** A well-formed prefix: its length fits its family. *)
Definition valid_prefix (P : prefix_t) : Prop := bitlen P <= RADIX_MAXBITS_BY_PREFIX P.

(* ------------------------------------------------------------------ *)
(** ** Nodes, parent chains and the tree (radix.h) *)

Inductive dir := DL | DR.

Definition dir_eqb (a b : dir) : bool :=
  match a, b with DL, DL | DR, DR => true | _, _ => false end.

(** [radix_node_t]: [bit], [prefix], [data] (the payload pointer, an
    object identity) and the children [l], [r]. *)
Inductive ptr :=
| NULL
| Node (bit : nat) (prefix : option prefix_t) (data : option nat) (l r : ptr).

(** One step of a parent chain: the parent's own fields, the side on which
    the child hangs and the parent's other child. *)
Record frame := Frame {
  fbit : nat; fpfx : option prefix_t; fdata : option nat;
  fdir : dir; fsib : ptr
}.

(** Rebuild the parent from a frame and its (possibly new) child. *)
Definition plug (f : frame) (n : ptr) : ptr :=
  match fdir f with
  | DL => Node (fbit f) (fpfx f) (fdata f) n (fsib f)
  | DR => Node (fbit f) (fpfx f) (fdata f) (fsib f) n
  end.

(** Follow the parent chain to the root, rebuilding every ancestor. *)
Fixpoint zip (n : ptr) (ctx : list frame) : ptr :=
  match ctx with
  | [] => n
  | f :: ctx' => zip (plug f n) ctx'
  end.

(** The path from the root to a node whose parent chain is [ctx]. *)
Definition path_of (ctx : list frame) : list dir := rev (map fdir ctx).

(** [radix_tree_t] *)
Record radix_tree := mk_tree {
  head_ipv4 : ptr;
  head_ipv6 : ptr;
  num_active_node : Z
}.

Definition New_Radix : radix_tree := mk_tree NULL NULL 0.

(** [RADIX_HEAD_BY_PREFIX] / [*RADIX_PHEAD_BY_PREFIX = p] *)
Definition RADIX_HEAD (t : radix_tree) (f : addr_family) : ptr :=
  match f with AF_INET => head_ipv4 t | AF_INET6 => head_ipv6 t end.

Definition set_head (t : radix_tree) (f : addr_family) (p : ptr) : radix_tree :=
  match f with
  | AF_INET => mk_tree p (head_ipv6 t) (num_active_node t)
  | AF_INET6 => mk_tree (head_ipv4 t) p (num_active_node t)
  end.

Definition add_active (t : radix_tree) (k : Z) : radix_tree :=
  mk_tree (head_ipv4 t) (head_ipv6 t) (num_active_node t + k)%Z.

(** A node pointer: the head it hangs from and the turns leading to it. *)
Record nodeptr := mk_nodeptr { nfam : addr_family; npath : list dir }.

Fixpoint get (n : ptr) (path : list dir) : ptr :=
  match path, n with
  | [], _ => n
  | _, NULL => NULL
  | DL :: path', Node _ _ _ l _ => get l path'
  | DR :: path', Node _ _ _ _ r => get r path'
  end.

Definition node_at (t : radix_tree) (np : nodeptr) : ptr :=
  get (RADIX_HEAD t (nfam np)) (npath np).

Definition node_prefix (n : ptr) : option prefix_t :=
  match n with NULL => None | Node _ p _ _ _ => p end.

Definition node_bit (n : ptr) : nat :=
  match n with NULL => 0 | Node b _ _ _ _ => b end.

(* ------------------------------------------------------------------ *)
(** ** [radix_lookup] (insert or find) *)

Inductive fault := BitOutOfRange | NullDeref.

Inductive lookup_res :=
| LOk (t : radix_tree) (np : nodeptr)
| LNoMem (t : radix_tree)          (** [radix_lookup] returned NULL *)
| LFault (f : fault).              (** undefined behaviour *)

(** [PyMem_Malloc]: the outcomes of the successive allocations of one call
    are given by a list of booleans; once the list is exhausted every
    allocation succeeds. *)
Definition malloc (m : list bool) : bool * list bool :=
  match m with [] => (true, []) | b :: m' => (b, m') end.

(** The descent loop
    [while (node->bit < bitlen || node->prefix == NULL)]. *)
Fixpoint lookup_descend (maxbits bitlen : nat) (P : prefix_t) (n : ptr)
    (ctx : list frame) : option (ptr * list frame) :=
  match n with
  | NULL => Some (NULL, ctx)
  | Node b p d l r =>
      if (b <? bitlen) || match p with None => true | Some _ => false end then
        match guarded_test (b <? maxbits) P b with
        | None => None
        | Some true =>
            match r with
            | NULL => Some (n, ctx)
            | _ => lookup_descend maxbits bitlen P r (Frame b p d DR l :: ctx)
            end
        | Some false =>
            match l with
            | NULL => Some (n, ctx)
            | _ => lookup_descend maxbits bitlen P l (Frame b p d DL r :: ctx)
            end
        end
      else Some (n, ctx)
  end.

(** [for (j = 0; j < 8; j++) if (BIT_TEST(r, (0x80 >> j))) break;] *)
Fixpoint find_j (r : N) (j k : nat) : nat :=
  match k with
  | 0 => j
  | S k' =>
      if negb (N.eqb (N.land r (N.shiftr 128 (N.of_nat j))) 0) then j
      else find_j r (S j) k'
  end.

(** [for (i = 0; i * 8 < check_bit; i++) ...]: [k] bounds the iterations
    (at most [check_bit] of them run). *)
Fixpoint differ_loop (addr test_addr : list byte) (check_bit i differ_bit k : nat)
    : nat :=
  match k with
  | 0 => differ_bit
  | S k' =>
      if i * 8 <? check_bit then
        let r := N.lxor (Byte.to_N (byte_at addr i)) (Byte.to_N (byte_at test_addr i)) in
        if N.eqb r 0 then differ_loop addr test_addr check_bit (S i) ((i + 1) * 8) k'
        else i * 8 + find_j r 0 8
      else differ_bit
  end.

(** [while (parent && parent->bit >= differ_bit) node = parent;] *)
Fixpoint walk_up (differ_bit : nat) (n : ptr) (ctx : list frame) : ptr * list frame :=
  match ctx with
  | f :: ctx' => if differ_bit <=? fbit f then walk_up differ_bit (plug f n) ctx' else (n, ctx)
  | [] => (n, ctx)
  end.

Definition radix_lookup_m (m : list bool) (t : radix_tree) (P : prefix_t) : lookup_res :=
  let maxbits := RADIX_MAXBITS_BY_PREFIX P in
  let fam := family P in
  let bitlen := bitlen P in
  match RADIX_HEAD t fam with
  | NULL =>
      if fst (malloc m) then
        LOk (add_active (set_head t fam (Node bitlen (Some P) None NULL NULL)) 1)
            (mk_nodeptr fam [])
      else LNoMem t
  | h =>
    match lookup_descend maxbits bitlen P h [] with
    | None => LFault BitOutOfRange
    | Some (n0, ctx0) =>
      match n0 with
      | NULL => LFault NullDeref
      | Node b0 p0 _ _ _ =>
        match p0 with
        | None => LFault NullDeref          (* test_addr = node->prefix *)
        | Some q0 =>
          let check_bit := if b0 <? bitlen then b0 else bitlen in
          let differ_bit0 := differ_loop (add P) (add q0) check_bit 0 0 check_bit in
          let differ_bit := if check_bit <? differ_bit0 then check_bit else differ_bit0 in
          let (node, ctx) := walk_up differ_bit n0 ctx0 in
          match node with
          | NULL => LFault NullDeref
          | Node b p d l r =>
            if (differ_bit =? bitlen) && (b =? bitlen) then
              let node' := match p with None => Node b (Some P) d l r | Some _ => node end in
              LOk (set_head t fam (zip node' ctx)) (mk_nodeptr fam (path_of ctx))
            else
            let (ok, m1) := malloc m in
            if negb ok then LNoMem t else
            let t1 := add_active t 1 in
            if b =? differ_bit then
              match guarded_test (b <? maxbits) P b with
              | None => LFault BitOutOfRange
              | Some true =>
                  LOk (set_head t1 fam (zip (Node b p d l (Node bitlen (Some P) None NULL NULL)) ctx))
                      (mk_nodeptr fam (path_of ctx ++ [DR]))
              | Some false =>
                  LOk (set_head t1 fam (zip (Node b p d (Node bitlen (Some P) None NULL NULL) r) ctx))
                      (mk_nodeptr fam (path_of ctx ++ [DL]))
              end
            else if bitlen =? differ_bit then
              match guarded_test (bitlen <? maxbits) q0 bitlen with
              | None => LFault BitOutOfRange
              | Some true =>
                  LOk (set_head t1 fam (zip (Node bitlen (Some P) None NULL node) ctx))
                      (mk_nodeptr fam (path_of ctx))
              | Some false =>
                  LOk (set_head t1 fam (zip (Node bitlen (Some P) None node NULL) ctx))
                      (mk_nodeptr fam (path_of ctx))
              end
            else
              (* the glue node; when it cannot be allocated, the new node
                 stays allocated and counted *)
              if negb (fst (malloc m1)) then LNoMem t1 else
              let t2 := add_active t1 1 in
              match guarded_test (differ_bit <? maxbits) P differ_bit with
              | None => LFault BitOutOfRange
              | Some true =>
                  LOk (set_head t2 fam (zip (Node differ_bit None None node
                                               (Node bitlen (Some P) None NULL NULL)) ctx))
                      (mk_nodeptr fam (path_of ctx ++ [DR]))
              | Some false =>
                  LOk (set_head t2 fam (zip (Node differ_bit None None
                                               (Node bitlen (Some P) None NULL NULL) node) ctx))
                      (mk_nodeptr fam (path_of ctx ++ [DL]))
              end
          end
        end
      end
    end
  end.

(** The lookup whose allocations all succeed. *)
Definition radix_lookup (t : radix_tree) (P : prefix_t) : lookup_res :=
  radix_lookup_m [] t P.

(* ------------------------------------------------------------------ *)
(** ** Searches *)

(** [RADIX_SEARCH_FOREACH]: descend while [node->bit < bitlen]; the result
    is the node where the loop stops (possibly [NULL]) with its parent
    chain. *)
Fixpoint search_foreach (P : prefix_t) (n : ptr) (ctx : list frame) : ptr * list frame :=
  match n with
  | NULL => (NULL, ctx)
  | Node b p d l r =>
      if b <? bitlen P then
        if BIT_TEST_SEARCH_BIT (add P) b
        then search_foreach P r (Frame b p d DR l :: ctx)
        else search_foreach P l (Frame b p d DL r :: ctx)
      else (n, ctx)
  end.

Definition radix_search_exact (t : radix_tree) (P : prefix_t) : option nodeptr :=
  let fam := family P in
  match RADIX_HEAD t fam with
  | NULL => None
  | h =>
      let (n, ctx) := search_foreach P h [] in
      match n with
      | NULL => None
      | Node b p _ _ _ =>
          if bitlen P <? b then None else
          match p with
          | None => None
          | Some q =>
              if comp_with_mask (add q) (add P) (bitlen P)
              then Some (mk_nodeptr fam (path_of ctx)) else None
          end
      end
  end.

(** [RADIX_SEARCH_FOREACH_INCLUSIVE] of [radix_search_best2], pushing every
    node with a prefix (and, unless [inclusive], [bit != bitlen]) on
    [stack]; the top of the stack is the head of the list. *)
Fixpoint best_push (P : prefix_t) (inclusive : bool) (n : ptr) (ctx : list frame)
    (stack : list (ptr * list frame)) : list (ptr * list frame) :=
  match n with
  | NULL => stack
  | Node b p d l r =>
      if b <=? bitlen P then
        let stack' :=
          match p with
          | Some _ => if inclusive || negb (b =? bitlen P) then (n, ctx) :: stack else stack
          | None => stack
          end in
        if BIT_TEST_SEARCH_BIT (add P) b
        then best_push P inclusive r (Frame b p d DR l :: ctx) stack'
        else best_push P inclusive l (Frame b p d DL r :: ctx) stack'
      else stack
  end.

(** [while (--cnt >= 0) ...] *)
Fixpoint best_pop (P : prefix_t) (stack : list (ptr * list frame)) : option (ptr * list frame) :=
  match stack with
  | [] => None
  | (n, ctx) :: st =>
      match n with
      | Node _ (Some q) _ _ _ =>
          if comp_with_mask (add q) (add P) (bitlen q) && (bitlen q <=? bitlen P)
          then Some (n, ctx) else best_pop P st
      | _ => best_pop P st
      end
  end.

Definition search_best2_z (t : radix_tree) (P : prefix_t) (inclusive : bool)
    : option (ptr * list frame) :=
  match RADIX_HEAD t (family P) with
  | NULL => None
  | h => best_pop P (best_push P inclusive h [] [])
  end.

Definition radix_search_best2 (t : radix_tree) (P : prefix_t) (inclusive : bool)
    : option nodeptr :=
  match search_best2_z t P inclusive with
  | None => None
  | Some (_, ctx) => Some (mk_nodeptr (family P) (path_of ctx))
  end.

Definition radix_search_best (t : radix_tree) (P : prefix_t) : option nodeptr :=
  radix_search_best2 t P true.

(** Callbacks of the enumerations: [func(node, cbctx)]; the walks return
    the result code and the nodes the callback was invoked on, in order. *)
Definition rdx_search_cb_t := nodeptr -> Z.

(** The [do { ... } while ((node = node->parent) != NULL)] loop of
    [radix_search_covering]; [rc] is the last callback result. *)
Fixpoint covering_walk (func : rdx_search_cb_t) (fam : addr_family) (rc : Z)
    (n : ptr) (ctx : list frame) (calls : list nodeptr) : Z * list nodeptr :=
  let '(rc', calls', stop) :=
    match node_prefix n with
    | None => (rc, calls, false)
    | Some _ =>
        let np := mk_nodeptr fam (path_of ctx) in
        let rc' := func np in
        (rc', calls ++ [np], negb (Z.eqb rc' 0))
    end in
  if stop then (rc', calls') else
  match ctx with
  | [] => (rc', calls')
  | f :: ctx' => covering_walk func fam rc' (plug f n) ctx' calls'
  end.

Definition radix_search_covering (t : radix_tree) (P : prefix_t) (func : rdx_search_cb_t)
    : Z * list nodeptr :=
  match search_best2_z t P true with
  | None => (0%Z, [])
  | Some (n, ctx) => covering_walk func (family P) 0%Z n ctx []
  end.

(** [radix_search_covered] *)

Fixpoint path_eqb (a b : list dir) : bool :=
  match a, b with
  | [], [] => true
  | x :: a', y :: b' => dir_eqb x y && path_eqb a' b'
  | _, _ => false
  end.

Fixpoint count_nodes (n : ptr) : nat :=
  match n with NULL => 0 | Node _ _ _ l r => S (count_nodes l + count_nodes r) end.

(** [COMP_NODE_PREFIX(node, prefix)] (only used on nodes with a prefix) *)
Definition COMP_NODE_PREFIX (n : ptr) (P : prefix_t) : bool :=
  match node_prefix n with
  | Some q => comp_with_mask (add q) (add P) (Nat.min (bitlen q) (bitlen P))
  | None => false
  end.

(** The inclusive descent of [radix_search_covered]: the node where the
    loop stops (possibly [NULL]), [prev_node] and [prefixed_node]. *)
Fixpoint covered_descend (P : prefix_t) (n : ptr) (ctx : list frame)
    (prev prefixed : option (ptr * list frame))
    : (ptr * list frame) * option (ptr * list frame) * option (ptr * list frame) :=
  match n with
  | NULL => ((NULL, ctx), prev, prefixed)
  | Node b p d l r =>
      if b <=? bitlen P then
        let prev' := Some (n, ctx) in
        if b =? bitlen P then ((n, ctx), prev', prefixed) else
        let prefixed' := match p with Some _ => Some (n, ctx) | None => prefixed end in
        if BIT_TEST_SEARCH_BIT (add P) b
        then covered_descend P r (Frame b p d DR l :: ctx) prev' prefixed'
        else covered_descend P l (Frame b p d DL r :: ctx) prev' prefixed'
      else ((n, ctx), prev, prefixed)
  end.

Inductive cstate := RADIX_STATE_LEFT | RADIX_STATE_RIGHT | RADIX_STATE_SELF.

(** An entry of the explicit stack: node (with its parent chain, which
    identifies it), state and [checked] flag. *)
Record cframe := CFrame { cnode : ptr; cctx : list frame; cst : cstate; checked : bool }.

Definition is_some_pfx (p : option prefix_t) : bool :=
  match p with Some _ => true | None => false end.

(** [while (stackpos >= 0) { ... }]; the head of the list is
    [stack + stackpos].  [fuel] bounds the iterations: three per node. *)
Fixpoint covered_loop (fuel : nat) (func : rdx_search_cb_t) (fam : addr_family)
    (P : prefix_t) (inclusive : bool) (stack : list cframe) (calls : list nodeptr)
    : Z * list nodeptr :=
  match fuel with
  | 0 => (0%Z, calls)
  | S fuel' =>
    match stack with
    | [] => (0%Z, calls)
    | pst :: rest =>
      match cst pst, cnode pst with
      | RADIX_STATE_SELF, n =>
          if negb (match rest with [] => true | _ => false end) ||
             (if inclusive then bitlen P <=? node_bit n else bitlen P <? node_bit n) then
            match node_prefix n with
            | Some _ =>
                let np := mk_nodeptr fam (path_of (cctx pst)) in
                let rc := func np in
                if negb (Z.eqb rc 0) then (rc, calls ++ [np])
                else covered_loop fuel' func fam P inclusive rest (calls ++ [np])
            | None => covered_loop fuel' func fam P inclusive rest calls
            end
          else covered_loop fuel' func fam P inclusive rest calls
      | s, Node b p d l r =>
          let '(child, side, sib, s') :=
            match s with
            | RADIX_STATE_LEFT => (l, DL, r, RADIX_STATE_RIGHT)
            | _ => (r, DR, l, RADIX_STATE_SELF)
            end in
          let pst' := CFrame (cnode pst) (cctx pst) s' (checked pst) in
          match child with
          | NULL => covered_loop fuel' func fam P inclusive (pst' :: rest) calls
          | Node _ cp _ _ _ =>
              if negb (checked pst) && is_some_pfx cp && negb (COMP_NODE_PREFIX child P)
              then covered_loop fuel' func fam P inclusive (pst' :: rest) calls
              else covered_loop fuel' func fam P inclusive
                     (CFrame child (Frame b p d side sib :: cctx pst) RADIX_STATE_LEFT
                             (checked pst || is_some_pfx cp) :: pst' :: rest) calls
          end
      | _, NULL => (0%Z, calls)
      end
    end
  end.

Definition radix_search_covered (t : radix_tree) (P : prefix_t) (func : rdx_search_cb_t)
    (inclusive : bool) : Z * list nodeptr :=
  let fam := family P in
  let '(exitz, prev, prefixed) := covered_descend P (RADIX_HEAD t fam) [] None None in
  let start :=
    match fst exitz with
    | NULL => match prev with None => None | Some z => Some (z, prefixed) end
    | Node _ p _ _ _ => Some (exitz, match p with Some _ => Some exitz | None => prefixed end)
    end in
  match start with
  | None => (0%Z, [])
  | Some ((node, nctx), prefixed_node) =>
      if match prefixed_node with
         | Some (pn, _) => negb (COMP_NODE_PREFIX pn P)
         | None => false
         end then (0%Z, []) else
      let chk := match prefixed_node with
                 | Some (_, pctx) => path_eqb (path_of pctx) (path_of nctx) && (bitlen P <=? node_bit node)
                 | None => false
                 end in
      covered_loop (3 * count_nodes node + 1) func fam P inclusive
                   [CFrame node nctx RADIX_STATE_LEFT chk] []
  end.

(* ------------------------------------------------------------------ *)
(** ** [radix_remove] *)

(** The parent chain of the node at [path]. *)
Fixpoint locate (n : ptr) (path : list dir) (ctx : list frame) : ptr * list frame :=
  match path, n with
  | [], _ => (n, ctx)
  | _, NULL => (NULL, ctx)
  | DL :: path', Node b p d l r => locate l path' (Frame b p d DL r :: ctx)
  | DR :: path', Node b p d l r => locate r path' (Frame b p d DR l :: ctx)
  end.

(** The node at [np] has a parent and that parent holds no prefix: it is
    a glue node. *)
Definition glue_parent (t : radix_tree) (np : nodeptr) : bool :=
  match npath np with
  | [] => false
  | _ => negb (is_some_pfx (node_prefix (node_at t (mk_nodeptr (nfam np) (removelast (npath np))))))
  end.

(** [None] is undefined behaviour (a dangling or NULL dereference). *)
Definition radix_remove (t : radix_tree) (np : nodeptr) : option radix_tree :=
  let fam := nfam np in
  let (node, ctx) := locate (RADIX_HEAD t fam) (npath np) [] in
  match node with
  | NULL => None
  | Node b p d l r =>
    match p with
    | None => None          (* RADIX_PHEAD_BY_PREFIX(radix, node->prefix) *)
    | Some q =>
      let pfam := family q in
      match l, r with
      | Node _ _ _ _ _, Node _ _ _ _ _ =>
          (* becomes a glue node: prefix and data cleared *)
          Some (set_head t fam (zip (Node b None None l r) ctx))
      | NULL, NULL =>
          let t1 := add_active t (-1) in
          match ctx with
          | [] => Some (set_head t1 pfam NULL)
          | f :: ctx' =>
              let child := fsib f in
              match fpfx f with
              | Some _ => Some (set_head t1 fam (zip (plug f NULL) ctx'))
              | None =>
                  (* the parent is a glue node: remove it too *)
                  match child with
                  | NULL => None
                  | _ =>
                      let t2 := add_active t1 (-1) in
                      match ctx' with
                      | [] => Some (set_head t2 pfam child)
                      | _ => Some (set_head t2 fam (zip child ctx'))
                      end
                  end
              end
          end
      | _, _ =>
          let child := match r with NULL => l | _ => r end in
          let t1 := add_active t (-1) in
          match ctx with
          | [] => Some (set_head t1 pfam child)
          | _ => Some (set_head t1 fam (zip child ctx))
          end
      end
    end
  end.

(* ------------------------------------------------------------------ *)
(** ** The Python binding (_radix.c): generation counter and iterator *)

(** [RadixObject]: the tree and [unsigned int gen_id]. *)
Record RadixObject := mk_radix_obj { rt : radix_tree; gen_id : Z }.

Definition gen_incr (g : Z) : Z := ((g + 1) mod 2 ^ 32)%Z.

Inductive py_exc := MemoryError | KeyError | RuntimeWarning.

(** The outcome of a binding call: a value, a raised exception (with the
    object's state at that point), or undefined behaviour. *)
Inductive py_res (A : Type) :=
| PyOk (self : RadixObject) (v : A)
| PyErr (self : RadixObject) (e : py_exc)
| PyCrash.
Arguments PyOk {A} self v.
Arguments PyErr {A} self e.
Arguments PyCrash {A}.

(** [node->data = v] for the node at [path]. *)
Fixpoint set_data_at (n : ptr) (path : list dir) (v : option nat) : ptr :=
  match path, n with
  | _, NULL => NULL
  | [], Node b p _ l r => Node b p v l r
  | DL :: path', Node b p d l r => Node b p d (set_data_at l path' v) r
  | DR :: path', Node b p d l r => Node b p d l (set_data_at r path' v)
  end.

Definition set_node_data (t : radix_tree) (np : nodeptr) (v : option nat) : radix_tree :=
  set_head t (nfam np) (set_data_at (RADIX_HEAD t (nfam np)) (npath np) v).

(** [create_add_node]: [m] gives the allocations of [radix_lookup];
    [node_obj] is the object [newRadixNodeObject] returns ([None] when it
    fails).  The result is the node's object. *)
Definition create_add_node (m : list bool) (node_obj : option nat)
    (self : RadixObject) (P : prefix_t) : py_res nat :=
  match radix_lookup_m m (rt self) P with
  | LFault _ => PyCrash
  | LNoMem t' => PyErr (mk_radix_obj t' (gen_id self)) MemoryError
  | LOk t' np =>
      match node_at t' np with
      | Node _ _ (Some o) _ _ => PyOk (mk_radix_obj t' (gen_incr (gen_id self))) o
      | Node _ _ None _ _ =>
          match node_obj with
          | None => PyErr (mk_radix_obj t' (gen_id self)) MemoryError
          | Some o =>
              PyOk (mk_radix_obj (set_node_data t' np (Some o)) (gen_incr (gen_id self))) o
          end
      | NULL => PyCrash
      end
  end.

(** [Radix.add] once its arguments are parsed into [P]. *)
Definition Radix_add (m : list bool) (node_obj : option nat) (self : RadixObject)
    (P : prefix_t) : py_res nat :=
  create_add_node m node_obj self P.

(** [Radix.delete] once its arguments are parsed into [P]. *)
Definition Radix_delete (self : RadixObject) (P : prefix_t) : py_res unit :=
  match radix_search_exact (rt self) P with
  | None => PyErr self KeyError
  | Some np =>
      match radix_remove (rt self) np with
      | None => PyCrash
      | Some t' => PyOk (mk_radix_obj t' (gen_incr (gen_id self))) tt
      end
  end.

(** The Python side: the tree object and the [user_attr] dictionaries of
    the node objects (a key-value store per object). *)
Record World := mk_world { radix : RadixObject; user_attr : nat -> Z -> option Z }.

(** [node.data[k] = v] on the node object [o]. *)
Definition set_user_attr (w : World) (o : nat) (k v : Z) : World :=
  mk_world (radix w)
    (fun o' k' => if (o' =? o) && Z.eqb k' k then Some v else user_attr w o' k').

(** [RadixIterObject]: the stack, [rn], [af] and the captured [gen_id]. *)
Record RadixIter := mk_iter {
  iterstack : list ptr;
  rn : ptr;
  af : addr_family;
  it_gen_id : Z
}.

Definition newRadixIterObject (self : RadixObject) : RadixIter :=
  mk_iter [] (head_ipv4 (rt self)) AF_INET (gen_id self).

Inductive iter_res := IterNext (o : nat) | IterStop | IterError.

(** The [again:] loop of [RadixIter_iternext]; [fuel] bounds its rounds. *)
Fixpoint iter_again (fuel : nat) (self : RadixObject) (it : RadixIter)
    : iter_res * RadixIter :=
  match fuel with
  | 0 => (IterStop, it)
  | S fuel' =>
    match rn it with
    | NULL =>
        match af it with
        | AF_INET6 => (IterStop, it)
        | AF_INET =>
            iter_again fuel' self (mk_iter [] (head_ipv6 (rt self)) AF_INET6 (it_gen_id it))
        end
    | Node _ p d l r =>
        let it' :=
          match l, r with
          | Node _ _ _ _ _, Node _ _ _ _ _ => mk_iter (r :: iterstack it) l (af it) (it_gen_id it)
          | Node _ _ _ _ _, NULL => mk_iter (iterstack it) l (af it) (it_gen_id it)
          | NULL, Node _ _ _ _ _ => mk_iter (iterstack it) r (af it) (it_gen_id it)
          | NULL, NULL =>
              match iterstack it with
              | s :: st => mk_iter st s (af it) (it_gen_id it)
              | [] => mk_iter [] NULL (af it) (it_gen_id it)
              end
          end in
        match p, d with
        | Some _, Some o => (IterNext o, it')
        | _, _ => iter_again fuel' self it'
        end
    end
  end.

Definition iter_fuel (self : RadixObject) (it : RadixIter) : nat :=
  count_nodes (rn it) + fold_right (fun n k => count_nodes n + k) 0 (iterstack it)
  + count_nodes (head_ipv6 (rt self)) + 2.

Definition RadixIter_iternext (self : RadixObject) (it : RadixIter) : iter_res * RadixIter :=
  if negb (Z.eqb (it_gen_id it) (gen_id self)) then (IterError, it)
  else iter_again (iter_fuel self it) self it.

(* ------------------------------------------------------------------ *)
(** ** Byte-level checks, decided by enumerating all bytes *)

Definition all_bytes : list byte :=
  flat_map (fun n => match Byte.of_nat n with Some x => [x] | None => [] end) (seq 0 256).

Definition byte_bits_eqb (x y : byte) (k : nat) : bool :=
  forallb (fun j => Bool.eqb (byte_bit x j) (byte_bit y j)) (seq 0 k).

(** The byte facts checked by enumeration, one pair of bytes at a time. *)
Definition byte_eq_f (x y : byte) : bool :=
  implb (byte_bits_eqb x y 8) (Byte.eqb x y).

Definition mask_f (x y : byte) : bool :=
  forallb (fun k =>
    Bool.eqb (N.eqb (N.land (Byte.to_N x) (mask_m k)) (N.land (Byte.to_N y) (mask_m k)))
             (byte_bits_eqb x y k)) (seq 1 7).

Definition xor_f (x y : byte) : bool :=
  let r := N.lxor (Byte.to_N x) (Byte.to_N y) in
  Bool.eqb (N.eqb r 0) (Byte.eqb x y) &&
  (Byte.eqb x y ||
   (let j := find_j r 0 8 in
    (j <? 8) && byte_bits_eqb x y j && negb (Bool.eqb (byte_bit x j) (byte_bit y j)))).

(* ------------------------------------------------------------------ *)
(** ** The shape invariant of the trie *)

(** [q] is the prefix of some node of the subtree [n]. *)
Fixpoint InR (q : prefix_t) (n : ptr) : Prop :=
  match n with
  | NULL => False
  | Node _ p _ l r => p = Some q \/ InR q l \/ InR q r
  end.

(** The child of a node at bit [b] tests a larger bit. *)
Definition child_gt (b : nat) (n : ptr) : Prop :=
  match n with NULL => True | Node b' _ _ _ _ => b < b' end.

(** A well-formed subtree of the [fam] head: a node with a prefix holds a
    prefix of that family whose length is its [bit]; a node without one (a
    glue node) has two children; bits grow downwards and stay within the
    address; the prefixes below the left (right) child have bit [bit]
    clear (set); all prefixes of the subtree agree on the first [bit]
    bits. *)
Fixpoint wf (fam : addr_family) (n : ptr) : Prop :=
  match n with
  | NULL => True
  | Node b p _ l r =>
      match p with
      | Some q => family q = fam /\ bitlen q = b
      | None => l <> NULL /\ r <> NULL
      end /\
      b <= maxbits_of fam /\
      child_gt b l /\ child_gt b r /\
      (forall q, InR q l -> BIT_TEST_SEARCH_BIT (add q) b = false) /\
      (forall q, InR q r -> BIT_TEST_SEARCH_BIT (add q) b = true) /\
      (forall q q', InR q n -> InR q' n -> agree (add q) (add q') b) /\
      wf fam l /\ wf fam r
  end.

Definition wf_tree (t : radix_tree) : Prop :=
  wf AF_INET (head_ipv4 t) /\ wf AF_INET6 (head_ipv6 t).

(** Replacing the subtree [n] under the chain [ctx] by [n'] keeps the
    ancestors well formed. *)
Definition compat (ctx : list frame) (n n' : ptr) : Prop :=
  match ctx with
  | [] => True
  | f :: _ =>
      n' <> NULL /\ fbit f < node_bit n' /\
      (forall q', InR q' n' -> exists q, InR q n /\ agree (add q) (add q') (S (fbit f)))
  end.

(** The trees built from [New_Radix] by inserts, removals of nodes
    holding a prefix, and payload updates of such nodes.  An insert whose
    allocations all succeed gives its new tree; an insert where an
    allocation fails ([radix_lookup] returns NULL) leaves the tree as
    [radix_lookup] left it, [num_active_node] included. *)
Inductive reachable : radix_tree -> Prop :=
| reach_new : reachable New_Radix
| reach_lookup t P t' np :
    reachable t -> valid_prefix P -> radix_lookup t P = LOk t' np -> reachable t'
| reach_nomem t P m t' :
    reachable t -> valid_prefix P -> radix_lookup_m m t P = LNoMem t' -> reachable t'
| reach_remove t np t' :
    reachable t -> node_prefix (node_at t np) <> None ->
    radix_remove t np = Some t' -> reachable t'
| reach_data t np v :
    reachable t -> node_prefix (node_at t np) <> None ->
    reachable (set_node_data t np v).

(** The same trees when every allocation succeeds: no insert fails. *)
Inductive reachable_ok : radix_tree -> Prop :=
| rok_new : reachable_ok New_Radix
| rok_lookup t P t' np :
    reachable_ok t -> valid_prefix P -> radix_lookup t P = LOk t' np -> reachable_ok t'
| rok_remove t np t' :
    reachable_ok t -> node_prefix (node_at t np) <> None ->
    radix_remove t np = Some t' -> reachable_ok t'
| rok_data t np v :
    reachable_ok t -> node_prefix (node_at t np) <> None ->
    reachable_ok (set_node_data t np v).

(** The prefixes stored in the tree. *)
Definition stored (t : radix_tree) (q : prefix_t) : Prop :=
  exists np, node_prefix (node_at t np) = Some q.

(** The number of nodes of the two heads. *)
Definition count_tree (t : radix_tree) : nat :=
  count_nodes (head_ipv4 t) + count_nodes (head_ipv6 t).

(** The turn [radix_lookup] takes at a node of bit [b]:
    [b < maxbits && BIT_TEST(addr[b >> 3], 0x80 >> (b & 0x07))]. *)
Definition gbit (P : prefix_t) (b : nat) : bool :=
  (b <? RADIX_MAXBITS_BY_PREFIX P) && BIT_TEST_SEARCH_BIT (add P) b.

Definition dir_of (s : bool) : dir := if s then DR else DL.

(* ------------------------------------------------------------------ *)
(** ** Concrete inputs *)

(** An IPv4 prefix [a.b.c.d/len]. *)
Definition v4 (a b c d : byte) (len : nat) : prefix_t := mk_prefix AF_INET [a; b; c; d] len.

Definition is_LOk (r : lookup_res) : bool :=
  match r with LOk _ _ => true | _ => false end.

(** The tree after a lookup. *)
Definition lookup_tree (r : lookup_res) : radix_tree :=
  match r with LOk t _ | LNoMem t => t | LFault _ => New_Radix end.

Definition insert_all (t : radix_tree) (ps : list prefix_t) : radix_tree :=
  fold_left (fun t P => lookup_tree (radix_lookup t P)) ps t.

Definition valid_prefixb (P : prefix_t) : bool := bitlen P <=? RADIX_MAXBITS_BY_PREFIX P.

(** Every insert of the sequence succeeds. *)
Fixpoint inserts_ok (t : radix_tree) (ps : list prefix_t) : bool :=
  match ps with
  | [] => true
  | P :: ps' => valid_prefixb P && is_LOk (radix_lookup t P) &&
                inserts_ok (lookup_tree (radix_lookup t P)) ps'
  end.

(** [{10.0.0.0/8}] *)
Definition tree_10_8 : radix_tree := insert_all New_Radix [v4 x0a x00 x00 x00 8].

(** [{10.0.0.0/8, 10.0.0.0/16, 10.128.0.0/16}]: [10/8] has two children. *)
Definition tree_10_8_kids : radix_tree :=
  insert_all New_Radix [v4 x0a x00 x00 x00 8; v4 x0a x00 x00 x00 16; v4 x0a x80 x00 x00 16].

(** [{10.0.0.0/16, 10.128.0.0/16}]: the root is a glue node at bit 8. *)
Definition tree_glue : radix_tree :=
  insert_all New_Radix [v4 x0a x00 x00 x00 16; v4 x0a x80 x00 x00 16].

(** ** The stack of [radix_search_best2] *)

(** The test [best_pop] applies to a stack entry. *)
Definition best_cand (P : prefix_t) (e : ptr * list frame) : bool :=
  match fst e with
  | Node _ (Some q) _ _ _ => comp_with_mask (add q) (add P) (bitlen q) && (bitlen q <=? bitlen P)
  | _ => false
  end.

(** Stack entries ordered by strictly decreasing bit from the top. *)
Definition deeper (a b : ptr * list frame) : Prop := node_bit (fst b) < node_bit (fst a).

(** ** What an iterator has left to yield *)
(** The payload objects of the nodes of a subtree holding a prefix and a
    payload, in preorder (node, left, right). *)
Fixpoint preorder_objs (n : ptr) : list nat :=
  match n with
  | NULL => []
  | Node _ p d l r =>
      match p, d with Some _, Some o => [o] | _, _ => [] end ++ preorder_objs l ++ preorder_objs r
  end.

(** What an iterator still has to yield: the subtree at [rn], the saved
    right subtrees, and the IPv6 tree while the IPv4 walk is running. *)
Definition pending (self : RadixObject) (it : RadixIter) : list nat :=
  preorder_objs (rn it) ++ flat_map preorder_objs (iterstack it) ++
  match af it with AF_INET => preorder_objs (head_ipv6 (rt self)) | AF_INET6 => [] end.

(** The shape of iterator states: the stack is empty once [rn] is NULL, and
    holds no NULL. *)
Definition iter_ok (it : RadixIter) : Prop :=
  (rn it = NULL -> iterstack it = []) /\ Forall (fun n => n <> NULL) (iterstack it).

Definition iter_measure (self : RadixObject) (it : RadixIter) : nat :=
  count_nodes (rn it) + fold_right (fun n k => count_nodes n + k) 0 (iterstack it) +
  match af it with AF_INET => count_nodes (head_ipv6 (rt self)) + 1 | AF_INET6 => 0 end.

(** ** The callbacks of the enumerations *)

(** Equality of node pointers, to count the callbacks made on a node. *)
Definition nodeptr_eq_dec (a b : nodeptr) : {a = b} + {a <> b}.
Proof. decide equality; [decide equality; decide equality | decide equality]. Defined.

(** The callbacks of [radix_search_covered] on a subtree whose entries are
    all [checked]: left subtree, right subtree, then the node itself when
    it holds a prefix. *)
Fixpoint subtree_calls (fam : addr_family) (n : ptr) (ctx : list frame) : list nodeptr :=
  match n with
  | NULL => []
  | Node b p d l r =>
      subtree_calls fam l (Frame b p d DL r :: ctx) ++ subtree_calls fam r (Frame b p d DR l :: ctx) ++
      match p with Some _ => [mk_nodeptr fam (path_of ctx)] | None => [] end
  end.

(** The callbacks of [radix_search_covering] from a node up to the root. *)
Fixpoint ancestor_calls (fam : addr_family) (n : ptr) (ctx : list frame) : list nodeptr :=
  match node_prefix n with Some _ => [mk_nodeptr fam (path_of ctx)] | None => [] end ++
  match ctx with
  | [] => []
  | f :: ctx' => ancestor_calls fam (plug f n) ctx'
  end.

(* ------------------------------------------------------------------ *)
(** ** More entry points: [Radix.search_exact], [Radix.search_best],
    [radix_search_worst2] and [radix_search_intersect] *)

(** [node->data] of a node. *)
Definition node_data (n : ptr) : option nat :=
  match n with NULL => None | Node _ _ d _ _ => d end.

(** [Radix.search_exact] once its arguments are parsed into [P]: the node's
    object, or [None]. *)
Definition Radix_search_exact (self : RadixObject) (P : prefix_t) : option nat :=
  match radix_search_exact (rt self) P with
  | None => None
  | Some np => node_data (node_at (rt self) np)
  end.

(** [Radix.search_best] once its arguments are parsed into [P]. *)
Definition Radix_search_best (self : RadixObject) (P : prefix_t) : option nat :=
  match radix_search_best (rt self) P with
  | None => None
  | Some np => node_data (node_at (rt self) np)
  end.


(** [while (iterator < cnt)] of [radix_search_worst2]: the stack from its
    bottom (the shallowest node) up. *)
Fixpoint worst_scan (P : prefix_t) (stack : list (ptr * list frame)) : option (ptr * list frame) :=
  match stack with
  | [] => None
  | (n, ctx) :: st =>
      match n with
      | Node _ (Some q) _ _ _ =>
          if comp_with_mask (add q) (add P) (bitlen q) then Some (n, ctx) else worst_scan P st
      | _ => worst_scan P st
      end
  end.

(** [radix_search_worst2]: the same stack as [radix_search_best2], scanned
    from [stack[0]]. *)
Definition search_worst2_z (t : radix_tree) (P : prefix_t) (inclusive : bool)
    : option (ptr * list frame) :=
  match RADIX_HEAD t (family P) with
  | NULL => None
  | h => worst_scan P (rev (best_push P inclusive h [] []))
  end.

Definition radix_search_worst2 (t : radix_tree) (P : prefix_t) (inclusive : bool)
    : option nodeptr :=
  match search_worst2_z t P inclusive with
  | None => None
  | Some (_, ctx) => Some (mk_nodeptr (family P) (path_of ctx))
  end.

Definition radix_search_worst (t : radix_tree) (P : prefix_t) : option nodeptr :=
  radix_search_worst2 t P true.

(** The test [radix_search_worst2] applies to a stack entry. *)
Definition worst_cand (P : prefix_t) (e : ptr * list frame) : bool :=
  match fst e with
  | Node _ (Some q) _ _ _ => comp_with_mask (add q) (add P) (bitlen q)
  | _ => false
  end.

(** [radix_search_intersect]: the covering walk, then, when it ended with
    0, the non-inclusive covered walk. *)
Definition radix_search_intersect (t : radix_tree) (P : prefix_t) (func : rdx_search_cb_t)
    : Z * list nodeptr :=
  let (rc, calls) := radix_search_covering t P func in
  if Z.eqb rc 0 then
    let (rc', calls') := radix_search_covered t P func false in (rc', calls ++ calls')
  else (rc, calls).

(** The node at [np] holds [P]: it lies in [P]'s family, its bit is
    [P.bitlen] and its prefix agrees with [P] on the first [P.bitlen] bits
    (the test of [radix_search_exact]). *)
Definition holds (t : radix_tree) (np : nodeptr) (P : prefix_t) : Prop :=
  nfam np = family P /\
  exists q d l r, node_at t np = Node (bitlen P) (Some q) d l r /\ agree (add q) (add P) (bitlen P).

(* ------------------------------------------------------------------ *)
(** ** [radix_search_covered] for any prefix *)

(** [contains] as a boolean test. *)
Definition containsb (P Q : prefix_t) : bool :=
  family_eqb (family P) (family Q) && (bitlen P <=? bitlen Q) && comp_with_mask (add P) (add Q) (bitlen P).

(** The callbacks of [radix_search_covered] below a stack entry for the
    node [n] with flag [c]: a child holding a prefix is skipped, while the
    entry is not [checked], when it does not match [P]; the child's own
    entry is [checked] once the entry is or the child holds a prefix. *)
Fixpoint covered_calls (fam : addr_family) (P : prefix_t) (c : bool) (n : ptr) (ctx : list frame)
    : list nodeptr :=
  match n with
  | NULL => []
  | Node b p d l r =>
      match l with
      | NULL => []
      | Node _ cp _ _ _ =>
          if negb c && is_some_pfx cp && negb (COMP_NODE_PREFIX l P) then []
          else covered_calls fam P (c || is_some_pfx cp) l (Frame b p d DL r :: ctx)
      end ++
      match r with
      | NULL => []
      | Node _ cp _ _ _ =>
          if negb c && is_some_pfx cp && negb (COMP_NODE_PREFIX r P) then []
          else covered_calls fam P (c || is_some_pfx cp) r (Frame b p d DR l :: ctx)
      end ++
      match p with Some _ => [mk_nodeptr fam (path_of ctx)] | None => [] end
  end.

Definition covered_child (fam : addr_family) (P : prefix_t) (c : bool) (m : ptr) (ctx : list frame)
    : list nodeptr :=
  match m with
  | NULL => []
  | Node _ cp _ _ _ =>
      if negb c && is_some_pfx cp && negb (COMP_NODE_PREFIX m P) then []
      else covered_calls fam P (c || is_some_pfx cp) m ctx
  end.

(** The turns [path] from [n] follow the bits of [P] through nodes that
    test a bit below [P.bitlen]. *)
Fixpoint qpath (P : prefix_t) (n : ptr) (path : list dir) : Prop :=
  match path, n with
  | [], _ => True
  | _ :: _, NULL => False
  | x :: path', Node b _ _ l r =>
      b < bitlen P /\
      BIT_TEST_SEARCH_BIT (add P) b = match x with DL => false | DR => true end /\
      qpath P match x with DL => l | DR => r end path'
  end.

(** The number of callbacks [radix_search_covered] makes on [np]: one when
    the node holds a prefix contained in [Q] that is longer than [Q], or as
    long when [incl] is set. *)
Definition covered_target (t : radix_tree) (Q : prefix_t) (incl : bool) (np : nodeptr) : nat :=
  match node_prefix (node_at t np) with
  | Some q => if containsb Q q then (if incl || (bitlen Q <? bitlen q) then 1 else 0) else 0
  | None => 0
  end.

(* ------------------------------------------------------------------ *)
(** ** [Clear_Radix], [sanitise_mask], [prefix_from_blob_ex] and
    [RadixNode.parent] *)

(** The loop of [radix_clear_head]: [Xrn], the saved right children
    [Xstack] (top first), the counter [num_active_node] and the payloads
    of the nodes [func] is called on (only when [func] is supplied,
    [has_func]).  [fuel]
    bounds the iterations. *)
Fixpoint clear_loop (fuel : nat) (has_func : bool) (Xrn : ptr) (Xstack : list ptr)
    (num : Z) (calls : list nat) : option (Z * list nat) :=
  match fuel with
  | 0 => None
  | S fuel' =>
      match Xrn with
      | NULL => Some (num, calls)
      | Node _ p d l r =>
          let calls' := calls ++ match p, d with
                                 | Some _, Some o => if has_func then [o] else []
                                 | _, _ => []
                                 end in
          let num' := (num - 1)%Z in
          match l, r with
          | Node _ _ _ _ _, Node _ _ _ _ _ => clear_loop fuel' has_func l (r :: Xstack) num' calls'
          | Node _ _ _ _ _, NULL => clear_loop fuel' has_func l Xstack num' calls'
          | NULL, Node _ _ _ _ _ => clear_loop fuel' has_func r Xstack num' calls'
          | NULL, NULL =>
              match Xstack with
              | x :: st => clear_loop fuel' has_func x st num' calls'
              | [] => clear_loop fuel' has_func NULL [] num' calls'
              end
          end
      end
  end.

(** [radix_clear_head]: the new counter and the callbacks. *)
Definition radix_clear_head (num : Z) (head : ptr) (has_func : bool) : option (Z * list nat) :=
  match head with
  | NULL => Some (num, [])
  | _ => clear_loop (S (count_nodes head)) has_func head [] num []
  end.

(** [Clear_Radix]: both heads, IPv4 first.  The head pointers keep their
    (now freed) values; only the counter and the callbacks are returned. *)
Definition Clear_Radix (t : radix_tree) (has_func : bool) : option (Z * list nat) :=
  match radix_clear_head (num_active_node t) (head_ipv4 t) has_func with
  | None => None
  | Some (n1, c1) =>
      match radix_clear_head n1 (head_ipv6 t) has_func with
      | None => None
      | Some (n2, c2) => Some (n2, c1 ++ c2)
      end
  end.

(** [addr[i] = v]; an index past the end of the array leaves it as it
    is (the callers only write inside). *)
Fixpoint set_byte (a : list byte) (i : nat) (v : byte) : list byte :=
  match a, i with
  | [], _ => []
  | _ :: a', 0 => v :: a'
  | x :: a', S i' => x :: set_byte a' i' v
  end.

(** [addr[i] &= (~0) << (8 - j)]: the low byte of [addr[i] & m], with [m]
    the mask of [comp_with_mask]. *)
Definition mask_byte (x : byte) (j : nat) : byte :=
  match Byte.of_N (N.land (Byte.to_N x) (mask_m j) mod 256) with
  | Some y => y
  | None => x00
  end.

(** [for (; i < maskbits / 8; i++) addr[i] = 0;] *)
Fixpoint zero_loop (addr : list byte) (i k : nat) : list byte :=
  match k with
  | 0 => addr
  | S k' => zero_loop (set_byte addr i x00) (S i) k'
  end.

(** [sanitise_mask(addr, masklen, maskbits)] *)
Definition sanitise_mask (addr : list byte) (masklen maskbits : nat) : list byte :=
  let i := masklen / 8 in
  let j := masklen mod 8 in
  let '(addr', i') :=
    if negb (j =? 0) then (set_byte addr i (mask_byte (byte_at addr i) j), S i) else (addr, i) in
  zero_loop addr' i' (maskbits / 8 - i').

(** [New_Prefix2(family, dest, bitlen, prefix)]: [prefix] is [None] for a
    NULL argument, in which case a prefix is allocated ([malloc_ok] says
    whether [PyMem_Malloc] succeeds).  The address is the member of the
    [add] union the family selects, filled by [memcpy] from [dest].  The
    result is the prefix and its [ref_count]. *)
Definition New_Prefix2 (malloc_ok : bool) (family : addr_family) (dest : list byte) (bitlen : Z)
    (prefix : option prefix_t) : option (prefix_t * Z) :=
  let default_bitlen := match family with AF_INET6 => 128 | AF_INET => 32 end in
  let size := match family with AF_INET6 => 16 | AF_INET => 4 end in
  let dynamic_allocated := match prefix with None => true | Some _ => false end in
  if dynamic_allocated && negb malloc_ok then None else
  let p := mk_prefix family (firstn size dest)
             (if (bitlen >=? 0)%Z then Z.to_nat bitlen else default_bitlen) in
  Some (p, if dynamic_allocated then 1%Z else 0%Z).

(** [prefix_from_blob_ex(ret, blob, len, prefixlen)] *)
Definition prefix_from_blob_ex (malloc_ok : bool) (ret : option prefix_t) (blob : list byte)
    (len prefixlen : Z) : option (prefix_t * Z) :=
  match (if (len =? 4)%Z then Some (AF_INET, 32%Z)
         else if (len =? 16)%Z then Some (AF_INET6, 128%Z) else None) with
  | None => None
  | Some (family, maxprefix) =>
      let prefixlen := if (prefixlen =? -1)%Z then maxprefix else prefixlen in
      if (prefixlen <? 0)%Z || (prefixlen >? maxprefix)%Z then None
      else New_Prefix2 malloc_ok family blob prefixlen ret
  end.

(** The getter [RadixNode.parent] ([Radix_parent]): from the node's parent
    up to the root, the first node whose [data] is set gives the result;
    [None] is Python's [None].  [rn] is the node object's [rn] field,
    [None] once [Radix.delete] has cleared it. *)
Fixpoint parent_walk (ctx : list frame) : option nat :=
  match ctx with
  | [] => None
  | f :: ctx' => match fdata f with Some o => Some o | None => parent_walk ctx' end
  end.

Definition Radix_parent (t : radix_tree) (rn : option nodeptr) : option nat :=
  match rn with
  | None => None
  | Some np => parent_walk (snd (locate (RADIX_HEAD t (nfam np)) (npath np) []))
  end.

(** The nodes below the saved right children of [radix_clear_head]. *)
Definition stack_count (stack : list ptr) : nat :=
  fold_right (fun x k => count_nodes x + k) 0 stack.

(** The payloads [func] is called on while a subtree is cleared. *)
Definition objs_if (has_func : bool) (n : ptr) : list nat :=
  if has_func then preorder_objs n else [].

(** [mask_byte] keeps exactly the first [j] bits of a byte. *)
Definition mask_byte_f (x : byte) : bool :=
  forallb (fun j => forallb (fun k => Bool.eqb (byte_bit (mask_byte x j) k) ((k <? j) && byte_bit x k))
                            (seq 0 8)) (seq 1 7).

(** A node whose [data] is set holds a prefix. *)
Fixpoint dok (n : ptr) : Prop :=
  match n with
  | NULL => True
  | Node _ p d l r => (d <> None -> p <> None) /\ dok l /\ dok r
  end.

Definition dok_tree (t : radix_tree) : Prop := dok (head_ipv4 t) /\ dok (head_ipv6 t).

(** A parent-chain frame of a tree satisfying [dok]. *)
Definition fok (f : frame) : Prop := (fdata f <> None -> fpfx f <> None) /\ dok (fsib f).
(** The tree [tree_10_8_kids] with a payload on its root 10/8. *)
Definition tree_parent_demo : radix_tree :=
  set_node_data tree_10_8_kids (mk_nodeptr AF_INET []) (Some 7).


(** * Proofs *)

(** ** Bytes and bits *)

Lemma all_bytes_complete : forall x, In x all_bytes.
Proof.
  intros x. unfold all_bytes. apply in_flat_map. exists (Byte.to_nat x).
  split.
  - apply in_seq. pose proof (Byte.to_nat_bounded x). lia.
  - rewrite Byte.of_to_nat. left; reflexivity.
Qed.

Lemma forallb2_all_bytes (f : byte -> byte -> bool) :
  forallb (fun x => forallb (fun y => f x y) all_bytes) all_bytes = true ->
  forall x y, f x y = true.
Proof.
  intros H x y. rewrite forallb_forall in H. specialize (H x (all_bytes_complete x)).
  rewrite forallb_forall in H. exact (H y (all_bytes_complete y)).
Qed.

Lemma chk_byte_eq_ok :
  forallb (fun x => forallb (fun y => byte_eq_f x y) all_bytes) all_bytes = true.
Proof. vm_compute. reflexivity. Qed.

Lemma chk_mask_ok :
  forallb (fun x => forallb (fun y => mask_f x y) all_bytes) all_bytes = true.
Proof. vm_compute. reflexivity. Qed.

Lemma chk_xor_ok :
  forallb (fun x => forallb (fun y => xor_f x y) all_bytes) all_bytes = true.
Proof. vm_compute. reflexivity. Qed.

Lemma byte_bits_eqb_spec x y k :
  byte_bits_eqb x y k = true <-> (forall j, j < k -> byte_bit x j = byte_bit y j).
Proof.
  unfold byte_bits_eqb. rewrite forallb_forall. split.
  - intros H j Hj. apply Bool.eqb_prop, H, in_seq. lia.
  - intros H j Hj. apply in_seq in Hj. rewrite (H j ltac:(lia)). apply Bool.eqb_reflx.
Qed.

Lemma byte_eq_of_bits x y :
  (forall j, j < 8 -> byte_bit x j = byte_bit y j) -> x = y.
Proof.
  intros H. pose proof (forallb2_all_bytes byte_eq_f chk_byte_eq_ok x y) as Hxy.
  unfold byte_eq_f in Hxy.
  apply byte_bits_eqb_spec in H. rewrite H in Hxy. simpl in Hxy.
  apply Byte.byte_dec_bl; exact Hxy.
Qed.

Lemma mask_m_spec x y k : 1 <= k <= 7 ->
  N.eqb (N.land (Byte.to_N x) (mask_m k)) (N.land (Byte.to_N y) (mask_m k)) =
  byte_bits_eqb x y k.
Proof.
  intros Hk. pose proof (forallb2_all_bytes mask_f chk_mask_ok x y) as Hxy.
  unfold mask_f in Hxy. rewrite forallb_forall in Hxy.
  apply Bool.eqb_prop, Hxy, in_seq. lia.
Qed.

Lemma xor_spec x y :
  let r := N.lxor (Byte.to_N x) (Byte.to_N y) in
  N.eqb r 0 = Byte.eqb x y /\
  (x <> y -> find_j r 0 8 < 8 /\
     (forall j, j < find_j r 0 8 -> byte_bit x j = byte_bit y j) /\
     byte_bit x (find_j r 0 8) <> byte_bit y (find_j r 0 8)).
Proof.
  pose proof (forallb2_all_bytes xor_f chk_xor_ok x y) as Hxy.
  unfold xor_f in Hxy. cbv zeta in Hxy |- *.
  apply andb_prop in Hxy as [H1 H2]. split.
  - apply Bool.eqb_prop in H1. exact H1.
  - intros Hne. destruct (Byte.eqb x y) eqn:E.
    + apply Byte.byte_dec_bl in E. contradiction.
    + rewrite Bool.orb_false_l in H2. apply andb_prop in H2 as [H2 H4]. apply andb_prop in H2 as [H2 H3].
      apply Nat.ltb_lt in H2. pose proof (proj1 (byte_bits_eqb_spec _ _ _) H3) as H3'.
      split; [exact H2|]. split; [exact H3'|].
      intros He. rewrite He, Bool.eqb_reflx in H4. discriminate.
Qed.

(** ** Agreement of addresses *)

Lemma BIT_byte a i j : j < 8 ->
  BIT_TEST_SEARCH_BIT a (8 * i + j) = byte_bit (byte_at a i) j.
Proof.
  intros Hj. unfold BIT_TEST_SEARCH_BIT.
  replace ((8 * i + j) / 8) with i by (apply Nat.div_unique with j; lia).
  replace ((8 * i + j) mod 8) with j by (apply Nat.mod_unique with i; lia).
  reflexivity.
Qed.

Lemma agree_refl a n : agree a a n.
Proof. intros i _; reflexivity. Qed.

Lemma agree_sym a b n : agree a b n -> agree b a n.
Proof. intros H i Hi; symmetry; auto. Qed.

Lemma agree_trans a b c n : agree a b n -> agree b c n -> agree a c n.
Proof. intros H1 H2 i Hi; rewrite H1, H2; auto. Qed.

Lemma agree_le a b n m : m <= n -> agree a b n -> agree a b m.
Proof. intros Hm H i Hi; apply H; lia. Qed.

Lemma agree_bytes a b i :
  agree a b (8 * i) <-> (forall i', i' < i -> byte_at a i' = byte_at b i').
Proof.
  split.
  - intros H i' Hi'. apply byte_eq_of_bits. intros j Hj.
    rewrite <- !BIT_byte by exact Hj. apply H. lia.
  - intros H k Hk.
    rewrite (Nat.div_mod_eq k 8).
    rewrite !BIT_byte by (apply Nat.mod_upper_bound; lia).
    rewrite H; [reflexivity|].
    apply Nat.Div0.div_lt_upper_bound. lia.
Qed.

Lemma agree_split a b q k : k < 8 ->
  agree a b (8 * q + k) <->
  agree a b (8 * q) /\ (forall j, j < k -> byte_bit (byte_at a q) j = byte_bit (byte_at b q) j).
Proof.
  intros Hk. split.
  - intros H. split.
    + apply (agree_le _ _ (8 * q + k)); [lia | exact H].
    + intros j Hj. rewrite <- !BIT_byte by lia. apply H. lia.
  - intros [H1 H2] i Hi. destruct (Nat.lt_ge_cases i (8 * q)) as [Hl | Hg].
    + apply H1, Hl.
    + replace i with (8 * q + (i - 8 * q)) by lia.
      rewrite !BIT_byte by lia. apply H2. lia.
Qed.

Lemma memcmp_eq_spec a d n :
  memcmp_eq a d n = true <-> (forall i, i < n -> byte_at a i = byte_at d i).
Proof.
  unfold memcmp_eq. rewrite forallb_forall. split.
  - intros H i Hi. apply Byte.byte_dec_bl, H, in_seq. lia.
  - intros H i Hi. apply in_seq in Hi. apply Byte.byte_dec_lb, H. lia.
Qed.

(** [comp_with_mask] decides agreement on the first [mask] bits. *)
Lemma comp_with_mask_spec a d mask :
  comp_with_mask a d mask = true <-> agree a d mask.
Proof.
  unfold comp_with_mask.
  set (q := mask / 8). set (k := mask mod 8).
  assert (Hm : mask = 8 * q + k) by (apply Nat.div_mod_eq).
  assert (Hk : k < 8) by (apply Nat.mod_upper_bound; lia).
  rewrite Hm. rewrite (agree_split _ _ _ _ Hk), agree_bytes, <- memcmp_eq_spec.
  destruct (memcmp_eq a d q); [|split; [discriminate | intros [H _]; discriminate]].
  destruct (Nat.eqb_spec k 0) as [Hk0 | Hk0].
  - rewrite Hk0. simpl. split; [intros _; split; [reflexivity | intros; lia] | auto].
  - simpl. rewrite mask_m_spec by lia. rewrite byte_bits_eqb_spec. tauto.
Qed.

Lemma comp_with_mask_false a d mask :
  comp_with_mask a d mask = false <-> ~ agree a d mask.
Proof.
  rewrite <- comp_with_mask_spec. destruct (comp_with_mask a d mask); intuition discriminate.
Qed.

(** ** The differ bit of [radix_lookup] *)

Lemma differ_loop_spec a t cb : forall k i,
  cb <= k + i -> agree a t (8 * i) ->
  let r := differ_loop a t cb i (i * 8) k in
  agree a t (Nat.min r cb) /\ (r < cb -> BIT_TEST_SEARCH_BIT a r <> BIT_TEST_SEARCH_BIT t r).
Proof.
  induction k as [|k IH]; intros i Hk Hag; cbv zeta; cbn [differ_loop].
  - split.
    + apply (agree_le _ _ (8 * i)); [lia | exact Hag].
    + intros. lia.
  - destruct (Nat.ltb_spec (i * 8) cb) as [Hlt | Hge].
    + pose proof (xor_spec (byte_at a i) (byte_at t i)) as [Hx1 Hx2]. cbv zeta in Hx1, Hx2.
      destruct (N.eqb _ 0) eqn:E.
      * symmetry in Hx1. apply Byte.byte_dec_bl in Hx1.
        replace ((i + 1) * 8) with (S i * 8) by lia.
        apply IH; [lia|].
        apply agree_bytes. intros i' Hi'.
        destruct (Nat.eq_dec i' i) as [-> | Hne]; [exact Hx1|].
        apply (proj1 (agree_bytes a t i) Hag). lia.
      * assert (Hne : byte_at a i <> byte_at t i).
        { intros He. rewrite He, Byte.byte_dec_lb in Hx1 by reflexivity. discriminate. }
        destruct (Hx2 Hne) as (Hj & Hpre & Hdiff).
        set (j := find_j _ 0 8) in *.
        split.
        -- apply (agree_le _ _ (8 * i + j)); [lia|].
           apply agree_split; [lia|]. split; [exact Hag | exact Hpre].
        -- intros _. replace (i * 8 + j) with (8 * i + j) by lia.
           rewrite !BIT_byte by lia. exact Hdiff.
    + split.
      * apply (agree_le _ _ (8 * i)); [lia | exact Hag].
      * intros. lia.
Qed.

(** The capped differ bit [d] of [radix_lookup]: the two addresses agree
    below [d], and when [d < check_bit] they differ at [d]. *)
Lemma differ_bit_spec a t cb :
  let d0 := differ_loop a t cb 0 0 cb in
  let d := if cb <? d0 then cb else d0 in
  d <= cb /\ agree a t d /\ (d < cb -> BIT_TEST_SEARCH_BIT a d <> BIT_TEST_SEARCH_BIT t d).
Proof.
  cbv zeta.
  assert (H0 : agree a t (8 * 0)) by (intros i Hi; lia).
  pose proof (differ_loop_spec a t cb cb 0 ltac:(lia) H0) as [H1 H2].
  simpl in H1, H2.
  destruct (Nat.ltb_spec cb (differ_loop a t cb 0 0 cb)) as [Hc | Hc].
  - split; [lia|]. split; [|lia].
    rewrite Nat.min_r in H1 by lia. exact H1.
  - split; [exact Hc|]. rewrite Nat.min_l in H1 by exact Hc. split; [exact H1 | exact H2].
Qed.

(** ** Parent chains *)

Lemma zip_app n c1 c2 : zip n (c1 ++ c2) = zip (zip n c1) c2.
Proof. revert n; induction c1 as [|f c1 IH]; intros n; simpl; auto. Qed.

Lemma path_of_cons f ctx : path_of (f :: ctx) = path_of ctx ++ [fdir f].
Proof. reflexivity. Qed.

Lemma path_of_app c1 c2 : path_of (c1 ++ c2) = path_of c2 ++ path_of c1.
Proof. unfold path_of. rewrite map_app, rev_app_distr. reflexivity. Qed.

Lemma get_NULL path : get NULL path = NULL.
Proof. destruct path as [|[] ?]; reflexivity. Qed.

Lemma get_nil n : get n [] = n.
Proof. destruct n; reflexivity. Qed.

Lemma get_app n p1 p2 : get n (p1 ++ p2) = get (get n p1) p2.
Proof.
  revert n; induction p1 as [|x p1 IH]; intros n; simpl; [destruct n, p2; reflexivity|].
  destruct n as [|b p d l r].
  - destruct x, p2 as [|[] ?]; simpl; rewrite ?get_NULL; reflexivity.
  - destruct x; apply IH.
Qed.

Lemma get_zip n ctx : get (zip n ctx) (path_of ctx) = n.
Proof.
  revert n; induction ctx as [|f ctx IH]; intros n; [apply get_nil|].
  simpl zip. rewrite path_of_cons, get_app, IH.
  unfold plug; destruct (fdir f); apply get_nil.
Qed.

Lemma get_zip_app n ctx path : get (zip n ctx) (path_of ctx ++ path) = get n path.
Proof. rewrite get_app, get_zip. reflexivity. Qed.

Lemma locate_zip n path ctx n' ctx' :
  locate n path ctx = (n', ctx') -> zip n' ctx' = zip n ctx.
Proof.
  revert n ctx; induction path as [|x path IH]; intros n ctx H; simpl in H.
  - destruct n; inversion H; reflexivity.
  - destruct n as [|b p d l r]; [destruct x; inversion H; reflexivity|].
    destruct x; apply IH in H; rewrite H; reflexivity.
Qed.

Lemma locate_get n path ctx n' ctx' :
  locate n path ctx = (n', ctx') -> get n path <> NULL ->
  n' = get n path /\ path_of ctx' = path_of ctx ++ path.
Proof.
  revert n ctx; induction path as [|x path IH]; intros n ctx H Hn; simpl in H.
  - rewrite get_nil, app_nil_r. destruct n; inversion H; subst; auto.
  - destruct n as [|b p d l r]; [rewrite get_NULL in Hn; congruence|].
    destruct x; apply IH in H; simpl in *; auto;
      destruct H as [H1 H2]; rewrite H2, path_of_cons, <- app_assoc; auto.
Qed.

Lemma InR_plug q f n : InR q n -> InR q (plug f n).
Proof. unfold plug; destruct (fdir f); simpl; tauto. Qed.

Lemma InR_zip q n ctx : InR q n -> InR q (zip n ctx).
Proof.
  revert n; induction ctx as [|f ctx IH]; intros n H; simpl; auto.
  apply IH, InR_plug, H.
Qed.

Lemma InR_plug_inv q f n :
  InR q (plug f n) -> fpfx f = Some q \/ InR q n \/ InR q (fsib f).
Proof. unfold plug; destruct (fdir f); simpl; tauto. Qed.

Lemma wf_plug_inv fam f n : wf fam (plug f n) -> wf fam n.
Proof. unfold plug; destruct (fdir f); simpl; tauto. Qed.

Lemma wf_zip_inv fam n ctx : wf fam (zip n ctx) -> wf fam n.
Proof.
  revert n; induction ctx as [|f ctx IH]; intros n H; simpl in *; auto.
  apply IH in H. eapply wf_plug_inv; eauto.
Qed.

Lemma node_bit_plug f n : node_bit (plug f n) = fbit f.
Proof. unfold plug; destruct (fdir f); reflexivity. Qed.

Lemma plug_not_NULL f n : plug f n <> NULL.
Proof. unfold plug; destruct (fdir f); discriminate. Qed.

(** The replacement lemma. *)
Lemma wf_replace fam ctx : forall n n',
  wf fam (zip n ctx) -> wf fam n' -> compat ctx n n' -> wf fam (zip n' ctx).
Proof.
  induction ctx as [|f ctx IH]; intros n n' Hw Hw' Hc; simpl in *; auto.
  destruct Hc as (Hnn & Hlt & Hag).
  assert (Hp : wf fam (plug f n)) by (eapply wf_zip_inv; eauto).
  apply (IH (plug f n)); auto.
  - unfold plug in *. destruct f as [fb fp fd [|] fs]; simpl in *;
    destruct Hp as (Hpf & Hmb & Hgl & Hgr & Hsl & Hsr & Hpair & Hwl & Hwr);
    (split; [destruct fp; [exact Hpf | destruct Hpf; split; assumption] |]);
    (split; [exact Hmb|]).
    + split; [destruct n' as [|b' ? ? ? ?]; simpl in *; [congruence | lia]|].
      split; [exact Hgr|].
      split; [|split; [exact Hsr|]].
      { intros q Hq. destruct (Hag q Hq) as (q0 & Hq0 & Hqa).
        rewrite <- (Hqa fb) by lia. apply Hsl, Hq0. }
      split; [|split; [exact Hw'|exact Hwr]].
      assert (Hrep : forall q, InR q (Node fb fp fd n' fs) ->
                exists q0, InR q0 (Node fb fp fd n fs) /\ agree (add q0) (add q) fb).
      { intros q [Hq | [Hq | Hq]].
        - exists q; split; [left; exact Hq | apply agree_refl].
        - destruct (Hag q Hq) as (q0 & Hq0 & Hqa). exists q0. split; [right; left; exact Hq0|].
          apply (agree_le _ _ (S fb)); [lia | exact Hqa].
        - exists q; split; [right; right; exact Hq | apply agree_refl]. }
      intros q q' Hq Hq'. destruct (Hrep q Hq) as (q0 & Hq0 & Ha0).
      destruct (Hrep q' Hq') as (q1 & Hq1 & Ha1).
      apply (agree_trans _ (add q0)); [apply agree_sym, Ha0|].
      apply (agree_trans _ (add q1)); [apply Hpair; assumption | exact Ha1].
    + split; [exact Hgl|].
      split; [destruct n' as [|b' ? ? ? ?]; simpl in *; [congruence | lia]|].
      split; [exact Hsl|].
      split.
      { intros q Hq. destruct (Hag q Hq) as (q0 & Hq0 & Hqa).
        rewrite <- (Hqa fb) by lia. apply Hsr, Hq0. }
      split; [|split; [exact Hwl|exact Hw']].
      assert (Hrep : forall q, InR q (Node fb fp fd fs n') ->
                exists q0, InR q0 (Node fb fp fd fs n) /\ agree (add q0) (add q) fb).
      { intros q [Hq | [Hq | Hq]].
        - exists q; split; [left; exact Hq | apply agree_refl].
        - exists q; split; [right; left; exact Hq | apply agree_refl].
        - destruct (Hag q Hq) as (q0 & Hq0 & Hqa). exists q0. split; [right; right; exact Hq0|].
          apply (agree_le _ _ (S fb)); [lia | exact Hqa]. }
      intros q q' Hq Hq'. destruct (Hrep q Hq) as (q0 & Hq0 & Ha0).
      destruct (Hrep q' Hq') as (q1 & Hq1 & Ha1).
      apply (agree_trans _ (add q0)); [apply agree_sym, Ha0|].
      apply (agree_trans _ (add q1)); [apply Hpair; assumption | exact Ha1].
  - destruct ctx as [|f2 ctx]; [exact I|].
    split; [apply plug_not_NULL|].
    assert (Hp2 : wf fam (plug f2 (plug f n))) by (eapply wf_zip_inv; exact Hw).
    assert (Hgt : fbit f2 < fbit f).
    { unfold plug in Hp2 at 1. destruct (fdir f2); simpl in Hp2;
        destruct Hp2 as (_ & _ & Hgl & Hgr & _);
        [generalize Hgl | generalize Hgr]; unfold plug; destruct (fdir f); simpl; auto. }
    rewrite node_bit_plug. split; [exact Hgt|].
    intros q' Hq'. apply InR_plug_inv in Hq'. destruct Hq' as [Hq' | [Hq' | Hq']].
    + exists q'. split; [unfold plug; destruct (fdir f); simpl; left; exact Hq' | apply agree_refl].
    + destruct (Hag q' Hq') as (q0 & Hq0 & Ha0). exists q0. split; [apply InR_plug, Hq0|].
      apply (agree_le _ _ (S (fbit f))); [lia | exact Ha0].
    + exists q'. split; [unfold plug; destruct (fdir f); simpl; tauto | apply agree_refl].
Qed.

(** ** Heads and counts *)

Lemma RADIX_HEAD_set t f p : RADIX_HEAD (set_head t f p) f = p.
Proof. destruct f; reflexivity. Qed.

Lemma RADIX_HEAD_set_other t f g p : f <> g -> RADIX_HEAD (set_head t f p) g = RADIX_HEAD t g.
Proof. destruct f, g; simpl; congruence. Qed.

Lemma set_head_same t f : set_head t f (RADIX_HEAD t f) = t.
Proof. destruct t, f; reflexivity. Qed.

Lemma num_set_head t f p : num_active_node (set_head t f p) = num_active_node t.
Proof. destruct f; reflexivity. Qed.

Lemma RADIX_HEAD_add t k f : RADIX_HEAD (add_active t k) f = RADIX_HEAD t f.
Proof. destruct f; reflexivity. Qed.

Lemma num_add t k : num_active_node (add_active t k) = (num_active_node t + k)%Z.
Proof. reflexivity. Qed.

Lemma wf_tree_iff t : wf_tree t <-> forall f, wf f (RADIX_HEAD t f).
Proof.
  unfold wf_tree. split; [intros [H4 H6] []; assumption | intros H; split; apply (H AF_INET) || apply (H AF_INET6)].
Qed.

Lemma wf_tree_set t f p : wf_tree t -> wf f p -> wf_tree (set_head t f p).
Proof. unfold wf_tree. destruct f; simpl; tauto. Qed.

Lemma wf_tree_add t k : wf_tree t -> wf_tree (add_active t k).
Proof. unfold wf_tree. simpl. tauto. Qed.

Lemma count_tree_set t f p :
  count_tree (set_head t f p) + count_nodes (RADIX_HEAD t f) = count_tree t + count_nodes p.
Proof. unfold count_tree. destruct f; simpl; lia. Qed.

Lemma count_tree_add t k : count_tree (add_active t k) = count_tree t.
Proof. reflexivity. Qed.

Lemma count_zip n n' ctx :
  count_nodes (zip n' ctx) + count_nodes n = count_nodes (zip n ctx) + count_nodes n'.
Proof.
  revert n n'; induction ctx as [|f ctx IH]; intros n n'; simpl; [lia|].
  specialize (IH (plug f n) (plug f n')).
  unfold plug in *; destruct (fdir f); simpl in *; lia.
Qed.

(** ** Consequences of the invariant *)

Lemma wf_InR fam n q : wf fam n -> InR q n -> family q = fam /\ bitlen q <= maxbits_of fam.
Proof.
  induction n as [|b p d l IHl r IHr]; simpl; [tauto|].
  intros (Hp & Hmb & _ & _ & _ & _ & _ & Hwl & Hwr) [Hq | [Hq | Hq]]; auto.
  subst p. destruct Hp as [Hf Hb]. split; [exact Hf | lia].
Qed.

Lemma wf_bits_below fam n q : wf fam n -> InR q n -> node_bit n <= bitlen q.
Proof.
  induction n as [|b p d l IHl r IHr]; simpl; [tauto|].
  intros (Hp & Hmb & Hgl & Hgr & _ & _ & _ & Hwl & Hwr) [Hq | [Hq | Hq]].
  - subst p. lia.
  - specialize (IHl Hwl Hq). destruct l; simpl in *; [tauto | lia].
  - specialize (IHr Hwr Hq). destruct r; simpl in *; [tauto | lia].
Qed.

Lemma wf_has_real fam n : wf fam n -> n <> NULL -> exists q, InR q n.
Proof.
  induction n as [|b p d l IHl r IHr]; simpl; [congruence|].
  intros (Hp & _ & _ & _ & _ & _ & _ & Hwl & _) _.
  destruct p as [q|]; [exists q; left; reflexivity|].
  destruct Hp as [Hl _]. destruct (IHl Hwl Hl) as [q Hq]. exists q; tauto.
Qed.

Lemma chain_lt fam n c :
  wf fam (zip n c) -> n <> NULL -> Forall (fun g => fbit g < node_bit n) c.
Proof.
  revert n; induction c as [|f c IH]; intros n Hw Hn; constructor.
  - assert (Hp : wf fam (plug f n)) by (eapply wf_zip_inv; exact Hw).
    unfold plug in Hp; destruct (fdir f); simpl in Hp;
      destruct Hp as (_ & _ & Hgl & Hgr & _); destruct n; simpl in *; congruence || lia.
  - pose proof (IH (plug f n) Hw (plug_not_NULL f n)) as H.
    rewrite node_bit_plug in H.
    assert (Hp : wf fam (plug f n)) by (eapply wf_zip_inv; exact Hw).
    assert (Hlt : fbit f < node_bit n).
    { unfold plug in Hp; destruct (fdir f); simpl in Hp;
        destruct Hp as (_ & _ & Hgl & Hgr & _); destruct n; simpl in *; congruence || lia. }
    eapply Forall_impl; [|exact H]. intros g Hg; simpl in Hg; lia.
Qed.

(** ** The descent and the walk up of [radix_lookup] *)

Lemma guarded_self P b :
  guarded_test (b <? RADIX_MAXBITS_BY_PREFIX P) P b = Some (gbit P b).
Proof.
  unfold guarded_test, gbit, bit_read. destruct (b <? RADIX_MAXBITS_BY_PREFIX P); reflexivity.
Qed.

Lemma descend_spec P bl : forall n ctx n0 ctx0,
  n <> NULL ->
  lookup_descend (RADIX_MAXBITS_BY_PREFIX P) bl P n ctx = Some (n0, ctx0) ->
  exists cd, ctx0 = cd ++ ctx /\ zip n0 cd = n /\ n0 <> NULL /\
    Forall (fun f => (fbit f < bl \/ fpfx f = None) /\ fdir f = dir_of (gbit P (fbit f))) cd /\
    match n0 with
    | NULL => False
    | Node b p _ l r => (b < bl \/ p = None) -> (if gbit P b then r else l) = NULL
    end.
Proof.
  induction n as [|b p d l IHl r IHr]; intros ctx n0 ctx0 Hn H; [congruence|].
  simpl in H. rewrite guarded_self in H.
  destruct ((b <? bl) || match p with None => true | Some _ => false end) eqn:Ec.
  - assert (Hc : b < bl \/ p = None).
    { apply orb_true_iff in Ec. destruct Ec as [E | E]; [left; apply Nat.ltb_lt, E|].
      right; destruct p; [discriminate | reflexivity]. }
    destruct (gbit P b) eqn:Eg.
    + destruct r as [|br pr dr lr rr].
      * inversion H; subst. exists []. split; [reflexivity|]. split; [reflexivity|].
        split; [discriminate|]. split; [constructor|]. intros _; rewrite Eg; reflexivity.
      * apply IHr in H; [|discriminate].
        destruct H as (cd & -> & Hz & Hn0 & Hf & Hs).
        exists (cd ++ [Frame b p d DR l]). rewrite <- app_assoc. repeat split; auto.
        -- rewrite zip_app, Hz. reflexivity.
        -- apply Forall_app. split; [exact Hf|]. constructor; [|constructor].
           simpl. rewrite Eg. auto.
    + destruct l as [|bl' pl dl ll rl].
      * inversion H; subst. exists []. split; [reflexivity|]. split; [reflexivity|].
        split; [discriminate|]. split; [constructor|]. intros _; rewrite Eg; reflexivity.
      * apply IHl in H; [|discriminate].
        destruct H as (cd & -> & Hz & Hn0 & Hf & Hs).
        exists (cd ++ [Frame b p d DL r]). rewrite <- app_assoc. repeat split; auto.
        -- rewrite zip_app, Hz. reflexivity.
        -- apply Forall_app. split; [exact Hf|]. constructor; [|constructor].
           simpl. rewrite Eg. auto.
  - inversion H; subst. exists []. split; [reflexivity|]. split; [reflexivity|].
    split; [discriminate|]. split; [constructor|].
    intros [Hb | Hp]; exfalso; apply orb_false_iff in Ec; destruct Ec as [E1 E2].
    + apply Nat.ltb_ge in E1. lia.
    + subst p. discriminate.
Qed.

Lemma walk_up_spec d : forall ctx n node ctx',
  walk_up d n ctx = (node, ctx') ->
  exists pop, ctx = pop ++ ctx' /\ node = zip n pop /\ Forall (fun f => d <= fbit f) pop /\
    match ctx' with f :: _ => fbit f < d | [] => True end.
Proof.
  induction ctx as [|f ctx IH]; intros n node ctx' H; simpl in H.
  - inversion H; subst. exists []. repeat split; auto.
  - destruct (Nat.leb_spec d (fbit f)) as [Hle | Hlt].
    + apply IH in H. destruct H as (pop & -> & -> & Hf & Hc).
      exists (f :: pop). repeat split; auto.
    + inversion H; subst. exists []. repeat split; auto.
Qed.

Lemma descend_not_None P bl : forall n ctx,
  lookup_descend (RADIX_MAXBITS_BY_PREFIX P) bl P n ctx <> None.
Proof.
  induction n as [|b p d l IHl r IHr]; intros ctx; simpl; [discriminate|].
  rewrite guarded_self.
  destruct (_ || _); [|discriminate].
  destruct (gbit P b); [destruct r; [discriminate | apply IHr] | destruct l; [discriminate | apply IHl]].
Qed.

Lemma zip_not_NULL n c : n <> NULL -> zip n c <> NULL.
Proof.
  revert n; induction c as [|f c IH]; intros n Hn; simpl; auto. apply IH, plug_not_NULL.
Qed.

Lemma zip_bit_ge k n c :
  Forall (fun f => k <= fbit f) c -> k <= node_bit n -> k <= node_bit (zip n c).
Proof.
  revert n; induction c as [|f c IH]; intros n Hf Hn; simpl; auto.
  inversion Hf; subst. apply IH; auto. rewrite node_bit_plug. assumption.
Qed.

Lemma zip_bit_le fam n c : wf fam (zip n c) -> n <> NULL -> node_bit (zip n c) <= node_bit n.
Proof.
  revert n; induction c as [|f c IH]; intros n Hw Hn; simpl; auto.
  pose proof (chain_lt fam n (f :: c) Hw Hn) as Hc. inversion Hc; subst.
  simpl in Hw. specialize (IH (plug f n) Hw (plug_not_NULL f n)).
  rewrite node_bit_plug in IH. lia.
Qed.

Lemma guarded_other P q k :
  family q = family P ->
  guarded_test (k <? RADIX_MAXBITS_BY_PREFIX P) q k = Some (gbit q k).
Proof. intros Hf. unfold RADIX_MAXBITS_BY_PREFIX. rewrite <- Hf. apply guarded_self. Qed.

Lemma gbit_in P b : b < RADIX_MAXBITS_BY_PREFIX P -> gbit P b = BIT_TEST_SEARCH_BIT (add P) b.
Proof. intros H. unfold gbit. apply Nat.ltb_lt in H. rewrite H. reflexivity. Qed.

Lemma dir_of_inj s s' : dir_of s = dir_of s' -> s = s'.
Proof. destruct s, s'; simpl; congruence. Qed.

Lemma wf_leaf P dd : valid_prefix P -> wf (family P) (Node (bitlen P) (Some P) dd NULL NULL).
Proof.
  intros Hv. unfold valid_prefix, RADIX_MAXBITS_BY_PREFIX in Hv. simpl.
  repeat split; auto; try tauto.
  intros q q' [Hq | [[] | []]] [Hq' | [[] | []]]. congruence.
Qed.

Lemma wf_node_inv fam b p dd l r : wf fam (Node b p dd l r) ->
  b <= maxbits_of fam /\ child_gt b l /\ child_gt b r /\
  (forall q, InR q l -> BIT_TEST_SEARCH_BIT (add q) b = false) /\
  (forall q, InR q r -> BIT_TEST_SEARCH_BIT (add q) b = true) /\
  (forall q q', InR q (Node b p dd l r) -> InR q' (Node b p dd l r) -> agree (add q) (add q') b) /\
  wf fam l /\ wf fam r.
Proof. simpl. tauto. Qed.

Lemma compat_intro ctx n n' k :
  match ctx with f :: _ => fbit f < k | [] => True end ->
  n' <> NULL -> k <= node_bit n' ->
  (forall q', InR q' n' -> exists q, InR q n /\ agree (add q) (add q') k) ->
  compat ctx n n'.
Proof.
  destruct ctx as [|f ctx]; simpl; auto. intros Hf Hn Hk Hag.
  split; [exact Hn|]. split; [lia|].
  intros q' Hq'. destruct (Hag q' Hq') as (q & Hq & Ha). exists q. split; [exact Hq|].
  apply (agree_le _ _ k); [lia | exact Ha].
Qed.

Lemma lookup_finish t fam node n' ctx k :
  wf_tree t -> zip node ctx = RADIX_HEAD t fam -> wf fam n' -> compat ctx node n' ->
  count_nodes n' = count_nodes node + k ->
  wf_tree (set_head t fam (zip n' ctx)) /\
  count_tree (set_head t fam (zip n' ctx)) = count_tree t + k.
Proof.
  intros Hwt Hz Hw' Hc Hcnt. split.
  - apply wf_tree_set; [exact Hwt|]. apply (wf_replace fam ctx node n'); auto.
    rewrite Hz. apply wf_tree_iff, Hwt.
  - pose proof (count_tree_set t fam (zip n' ctx)) as H1.
    pose proof (count_zip node n' ctx) as H2. rewrite Hz in H2. lia.
Qed.

Lemma node_at_set_zip t fam n ctx sigma :
  node_at (set_head t fam (zip n ctx)) (mk_nodeptr fam (path_of ctx ++ sigma)) = get n sigma.
Proof. unfold node_at. simpl. rewrite RADIX_HEAD_set. apply get_zip_app. Qed.

Lemma node_at_set_zip0 t fam n ctx :
  node_at (set_head t fam (zip n ctx)) (mk_nodeptr fam (path_of ctx)) = n.
Proof. unfold node_at. simpl. rewrite RADIX_HEAD_set. apply get_zip. Qed.

(** ** The new shapes built by [radix_lookup] *)

Lemma agree_extend n k P q0 :
  (forall q q', InR q n -> InR q' n -> agree (add q) (add q') k) ->
  InR q0 n -> agree (add P) (add q0) k ->
  forall q q', (q = P \/ InR q n) -> (q' = P \/ InR q' n) -> agree (add q) (add q') k.
Proof.
  intros Hp Hq0 Ha q q' [-> | Hq] [-> | Hq'].
  - apply agree_refl.
  - apply (agree_trans _ (add q0)); [exact Ha | apply Hp; assumption].
  - apply (agree_trans _ (add q0)); [apply Hp; assumption | apply agree_sym, Ha].
  - apply Hp; assumption.
Qed.

Lemma wf_set_prefix fam b d l r P q0 :
  wf fam (Node b None d l r) -> family P = fam -> bitlen P = b ->
  InR q0 (Node b None d l r) -> agree (add P) (add q0) b ->
  wf fam (Node b (Some P) d l r).
Proof.
  intros Hw Hf Hb Hq0 Ha. pose proof Hw as Hw2. apply wf_node_inv in Hw2.
  destruct Hw2 as (Hmb & Hgl & Hgr & Hsl & Hsr & Hpair & Hwl & Hwr).
  simpl. split; [split; assumption|]. repeat (split; [assumption|]).
  split; [|split; assumption].
  intros q q' Hq Hq'.
  apply (agree_extend (Node b None d l r) b P q0 Hpair Hq0 Ha);
    simpl in *; intuition congruence.
Qed.

Lemma wf_new_below fam b p d l r P q0 (s : bool) :
  wf fam (Node b p d l r) -> (if s then r else l) = NULL -> p <> None ->
  valid_prefix P -> family P = fam -> b < bitlen P -> BIT_TEST_SEARCH_BIT (add P) b = s ->
  InR q0 (Node b p d l r) -> agree (add P) (add q0) b ->
  wf fam (if s then Node b p d l (Node (bitlen P) (Some P) None NULL NULL)
          else Node b p d (Node (bitlen P) (Some P) None NULL NULL) r).
Proof.
  intros Hw Hc Hp Hv Hf Hlt Hs Hq0 Ha. pose proof Hw as Hw2. apply wf_node_inv in Hw2.
  destruct Hw2 as (Hmb & Hgl & Hgr & Hsl & Hsr & Hpair & Hwl & Hwr).
  pose proof (wf_leaf P None Hv) as Hlf. rewrite Hf in Hlf.
  assert (Hpf : match p with Some q => family q = fam /\ bitlen q = b
                | None => l <> NULL /\ r <> NULL end) by (simpl in Hw; tauto).
  destruct p as [q|]; [|congruence].
  destruct Hpf as [Hpf1 Hpf2]. subst fam.
  destruct s; simpl in Hc; [subst r | subst l]; simpl;
    repeat match goal with |- _ /\ _ => split end; try assumption;
    try solve [intros q1 [Hq1 | [[] | []]]; inversion Hq1; subst; assumption];
    try reflexivity; try solve [intros ? []];
    try solve [intros q1 q2 [H1 | [[] | []]] [H2 | [[] | []]]; inversion H1; inversion H2;
               subst; apply agree_refl].
  - intros q1 q2 Hq1 Hq2.
    apply (agree_extend (Node b (Some q) d l NULL) b P q0 Hpair Hq0 Ha);
      simpl in *; intuition congruence.
  - intros q1 q2 Hq1 Hq2.
    apply (agree_extend (Node b (Some q) d NULL r) b P q0 Hpair Hq0 Ha);
      simpl in *; intuition congruence.
Qed.

Lemma wf_new_above fam n P q0 (s : bool) :
  wf fam n -> n <> NULL -> valid_prefix P -> family P = fam -> bitlen P < node_bit n ->
  BIT_TEST_SEARCH_BIT (add q0) (bitlen P) = s ->
  InR q0 n -> agree (add P) (add q0) (bitlen P) ->
  wf fam (if s then Node (bitlen P) (Some P) None NULL n
          else Node (bitlen P) (Some P) None n NULL).
Proof.
  intros Hw Hn Hv Hf Hlt Hs Hq0 Ha.
  assert (Hpair : forall q q', InR q n -> InR q' n -> agree (add q) (add q') (node_bit n)).
  { destruct n as [|b p d l r]; [congruence|]. apply wf_node_inv in Hw. simpl. tauto. }
  assert (Hside : forall q, InR q n -> BIT_TEST_SEARCH_BIT (add q) (bitlen P) = s).
  { intros q Hq. rewrite <- Hs. symmetry. apply (Hpair q0 q Hq0 Hq). exact Hlt. }
  assert (Hpair' : forall q q', InR q n -> InR q' n -> agree (add q) (add q') (bitlen P)).
  { intros q q' Hq Hq'. apply (agree_le _ _ (node_bit n)); [lia | apply Hpair; assumption]. }
  unfold valid_prefix, RADIX_MAXBITS_BY_PREFIX in Hv. rewrite Hf in Hv.
  assert (Hgt : child_gt (bitlen P) n) by (destruct n; simpl in *; [congruence | lia]).
  destruct s; simpl.
  - split; [split; [exact Hf | reflexivity]|]. split; [exact Hv|].
    split; [exact I|]. split; [exact Hgt|]. split; [intros _ []|]. split; [exact Hside|].
    split; [|split; [exact I | exact Hw]].
    intros q1 q2 Hq1 Hq2. apply (agree_extend n (bitlen P) P q0 Hpair' Hq0 Ha);
      intuition congruence.
  - split; [split; [exact Hf | reflexivity]|]. split; [exact Hv|].
    split; [exact Hgt|]. split; [exact I|]. split; [exact Hside|]. split; [intros _ []|].
    split; [|split; [exact Hw | exact I]].
    intros q1 q2 Hq1 Hq2. apply (agree_extend n (bitlen P) P q0 Hpair' Hq0 Ha);
      intuition congruence.
Qed.

Lemma wf_fork fam n P q0 k :
  wf fam n -> n <> NULL -> valid_prefix P -> family P = fam ->
  k < bitlen P -> k < node_bit n ->
  BIT_TEST_SEARCH_BIT (add P) k <> BIT_TEST_SEARCH_BIT (add q0) k ->
  InR q0 n -> agree (add P) (add q0) k ->
  wf fam (if BIT_TEST_SEARCH_BIT (add P) k
          then Node k None None n (Node (bitlen P) (Some P) None NULL NULL)
          else Node k None None (Node (bitlen P) (Some P) None NULL NULL) n).
Proof.
  intros Hw Hn Hv Hf Hk1 Hk2 Hdif Hq0 Ha.
  assert (Hpair : forall q q', InR q n -> InR q' n -> agree (add q) (add q') (node_bit n)).
  { destruct n as [|b p d l r]; [congruence|]. apply wf_node_inv in Hw. simpl. tauto. }
  assert (Hside : forall q, InR q n -> BIT_TEST_SEARCH_BIT (add q) k = negb (BIT_TEST_SEARCH_BIT (add P) k)).
  { intros q Hq. rewrite <- (Hpair q0 q Hq0 Hq k Hk2). revert Hdif.
    destruct (BIT_TEST_SEARCH_BIT (add P) k), (BIT_TEST_SEARCH_BIT (add q0) k); simpl; congruence. }
  assert (Hpair' : forall q q', InR q n -> InR q' n -> agree (add q) (add q') k).
  { intros q q' Hq Hq'. apply (agree_le _ _ (node_bit n)); [lia | apply Hpair; assumption]. }
  pose proof (wf_leaf P None Hv) as Hlf. rewrite Hf in Hlf.
  unfold valid_prefix, RADIX_MAXBITS_BY_PREFIX in Hv. rewrite Hf in Hv.
  assert (Hgt : child_gt k n) by (destruct n; simpl in *; [congruence | lia]).
  destruct (BIT_TEST_SEARCH_BIT (add P) k) eqn:Eb; simpl in Hside |- *.
  - split; [split; [exact Hn | discriminate]|]. split; [lia|].
    split; [exact Hgt|]. split; [exact Hk1|]. split; [exact Hside|].
    split; [intros q1 [Hq1 | [[] | []]]; inversion Hq1; subst; exact Eb|].
    split; [|split; [exact Hw | exact Hlf]].
    intros q1 q2 Hq1 Hq2. apply (agree_extend n k P q0 Hpair' Hq0 Ha);
      intuition (congruence || (inversion H; subst; auto) || (inversion H0; subst; auto)).
  - split; [split; [discriminate | exact Hn]|]. split; [lia|].
    split; [exact Hk1|]. split; [exact Hgt|].
    split; [intros q1 [Hq1 | [[] | []]]; inversion Hq1; subst; exact Eb|].
    split; [exact Hside|].
    split; [|split; [exact Hlf | exact Hw]].
    intros q1 q2 Hq1 Hq2. apply (agree_extend n k P q0 Hpair' Hq0 Ha);
      intuition (congruence || (inversion H; subst; auto) || (inversion H0; subst; auto)).
Qed.

Lemma compat_ext ctx n n' k P q0 :
  match ctx with f :: _ => fbit f < k | [] => True end ->
  n' <> NULL -> k <= node_bit n' -> InR q0 n -> agree (add P) (add q0) k ->
  (forall q, InR q n' -> q = P \/ InR q n) -> compat ctx n n'.
Proof.
  intros Htop Hn Hk Hq0 Ha Hsub. apply (compat_intro _ _ _ k Htop Hn Hk).
  intros q' Hq'. destruct (Hsub q' Hq') as [-> | Hq].
  - exists q0. split; [exact Hq0 | apply agree_sym, Ha].
  - exists q'. split; [exact Hq | apply agree_refl].
Qed.

Lemma lookup_result t t0 fam node n' ctx k sigma P :
  wf_tree t -> zip node ctx = RADIX_HEAD t fam -> fam = family P ->
  (forall f, RADIX_HEAD t0 f = RADIX_HEAD t f) -> count_tree t0 = count_tree t ->
  num_active_node t0 = (num_active_node t + Z.of_nat k)%Z ->
  wf fam n' -> compat ctx node n' -> count_nodes n' = count_nodes node + k ->
  (exists q d l r, get n' sigma = Node (bitlen P) (Some q) d l r /\
                   agree (add P) (add q) (bitlen P)) ->
  wf_tree (set_head t0 fam (zip n' ctx)) /\
  (Z.of_nat (count_tree (set_head t0 fam (zip n' ctx))) -
   num_active_node (set_head t0 fam (zip n' ctx)) =
   Z.of_nat (count_tree t) - num_active_node t)%Z /\
  nfam (mk_nodeptr fam (path_of ctx ++ sigma)) = family P /\
  exists q d l r,
    node_at (set_head t0 fam (zip n' ctx)) (mk_nodeptr fam (path_of ctx ++ sigma)) =
      Node (bitlen P) (Some q) d l r /\ agree (add P) (add q) (bitlen P).
Proof.
  intros Hwt Hz Hf Hh Hc Hn Hw' Hcp Hcnt Hget.
  assert (Hwt0 : wf_tree t0) by (apply wf_tree_iff; intros g; rewrite Hh; apply wf_tree_iff, Hwt).
  assert (Hz0 : zip node ctx = RADIX_HEAD t0 fam) by (rewrite Hh; exact Hz).
  destruct (lookup_finish t0 fam node n' ctx k Hwt0 Hz0 Hw' Hcp Hcnt) as [Hw1 Hc1].
  split; [exact Hw1|]. split; [rewrite Hc1, num_set_head, Hc, Hn; lia|].
  split; [exact Hf|]. rewrite node_at_set_zip. exact Hget.
Qed.

(** ** [radix_lookup] keeps the invariant *)

Lemma lookup_wf m t P :
  wf_tree t -> valid_prefix P ->
  match radix_lookup_m m t P with
  | LOk t' np =>
      wf_tree t' /\
      (Z.of_nat (count_tree t') - num_active_node t' =
       Z.of_nat (count_tree t) - num_active_node t)%Z /\
      nfam np = family P /\
      exists q d l r, node_at t' np = Node (bitlen P) (Some q) d l r /\
                      agree (add P) (add q) (bitlen P)
  | LNoMem _ => True
  | LFault _ => False
  end.
Proof.
  intros Hwt Hv. unfold radix_lookup_m.
  assert (Hwh : wf (family P) (RADIX_HEAD t (family P))) by (apply wf_tree_iff; exact Hwt).
  destruct (RADIX_HEAD t (family P)) as [|hb hp hd hl hr] eqn:Eh.
  - destruct (fst (malloc m)); [|exact I].
    split; [apply wf_tree_add, wf_tree_set; [exact Hwt | apply wf_leaf, Hv]|].
    split.
    { pose proof (count_tree_set t (family P) (Node (bitlen P) (Some P) None NULL NULL)) as Hc.
      rewrite Eh in Hc. rewrite count_tree_add, num_add, num_set_head. simpl in Hc. lia. }
    split; [reflexivity|].
    exists P, None, NULL, NULL. split; [|apply agree_refl].
    unfold node_at. simpl. rewrite RADIX_HEAD_add, RADIX_HEAD_set. reflexivity.
  - set (h := Node hb hp hd hl hr) in *.
    destruct (lookup_descend _ _ P h []) as [[n0 ctx0]|] eqn:Ed;
      [|exfalso; eapply descend_not_None; exact Ed].
    apply descend_spec in Ed; [|discriminate].
    destruct Ed as (cd & Hcd & Hz0 & Hn0 & Hfr & Hstop). rewrite app_nil_r in Hcd. subst cd.
    assert (Hw0 : wf (family P) n0) by (eapply wf_zip_inv; rewrite Hz0; exact Hwh).
    destruct n0 as [|b0 p0 d0 l0 r0]; [contradiction|].
    destruct p0 as [q0|].
    2:{ exfalso. simpl in Hw0. destruct Hw0 as ([Hl Hr] & _).
        specialize (Hstop (or_intror eq_refl)). destruct (gbit P b0); contradiction. }
    assert (Hq0 : family q0 = family P /\ bitlen q0 = b0) by (simpl in Hw0; tauto).
    assert (HInq0 : InR q0 h) by (rewrite <- Hz0; apply InR_zip; left; reflexivity).
    set (cb := if b0 <? bitlen P then b0 else bitlen P) in *.
    assert (Hcb : cb <= b0 /\ cb <= bitlen P /\ (b0 < bitlen P -> cb = b0) /\
                  (bitlen P <= b0 -> cb = bitlen P)).
    { unfold cb. destruct (Nat.ltb_spec b0 (bitlen P)); lia. }
    pose proof (differ_bit_spec (add P) (add q0) cb) as Hd. cbv zeta in Hd.
    set (dd := if cb <? differ_loop (add P) (add q0) cb 0 0 cb then cb
               else differ_loop (add P) (add q0) cb 0 0 cb) in *.
    destruct Hd as (Hdcb & Hdag & Hddif).
    destruct (walk_up dd _ ctx0) as [node ctx] eqn:Ew.
    apply walk_up_spec in Ew. destruct Ew as (pop & Hctx0 & Hnode & Hpop & Htop).
    subst ctx0.
    assert (Hzn : zip node ctx = h) by (rewrite Hnode, <- zip_app; exact Hz0).
    assert (Hwn : wf (family P) node) by (eapply wf_zip_inv; rewrite Hzn; exact Hwh).
    assert (HInn : InR q0 node) by (rewrite Hnode; apply InR_zip; left; reflexivity).
    assert (Hbge : dd <= node_bit node).
    { rewrite Hnode. apply zip_bit_ge; [exact Hpop | simpl; lia]. }
    assert (Hble : node_bit node <= b0).
    { rewrite Hnode. apply (zip_bit_le (family P)); [|discriminate].
      rewrite <- Hnode. exact Hwn. }
    destruct node as [|b p d l r];
      [exfalso; apply (zip_not_NULL (Node b0 (Some q0) d0 l0 r0) pop); [discriminate | symmetry; exact Hnode]|].
    simpl in Hbge, Hble.
    assert (Hnb : b < b0 -> BIT_TEST_SEARCH_BIT (add q0) b = gbit P b /\
                             (b < bitlen P \/ p = None)).
    { intros Hlt. destruct pop as [|f pop'] using rev_ind.
      - simpl in Hnode. inversion Hnode; subst. lia.
      - clear IHpop'. rewrite zip_app in Hnode. simpl in Hnode.
        assert (Hf : In f (pop' ++ [f] ++ ctx)) by (apply in_app_iff; right; left; reflexivity).
        rewrite app_assoc in Hf. rewrite Forall_forall in Hfr. specialize (Hfr f Hf).
        destruct Hfr as [Hf1 Hf2].
        unfold plug in Hnode. destruct (fdir f) eqn:Ed; inversion Hnode; subst b p d;
          [subst l | subst r]; apply wf_node_inv in Hwn;
          destruct Hwn as (_ & _ & _ & Hsl & Hsr & _);
          (split; [|destruct Hf1; [left; assumption | right; assumption]]).
        + rewrite (Hsl q0 (InR_zip q0 (Node b0 (Some q0) d0 l0 r0) pop' (or_introl eq_refl))).
          destruct (gbit P (fbit f)); [discriminate | reflexivity].
        + rewrite (Hsr q0 (InR_zip q0 (Node b0 (Some q0) d0 l0 r0) pop' (or_introl eq_refl))).
          destruct (gbit P (fbit f)); [reflexivity | discriminate]. }
    assert (Hb0 : b = b0 -> pop = []).
    { intros Hbb. destruct pop as [|f pop'] using rev_ind; [reflexivity|]. clear IHpop'.
      exfalso. pose proof (chain_lt (family P) _ _ (eq_ind _ _ Hwn _ Hnode) Hn0) as Hc.
      rewrite Forall_forall in Hc. specialize (Hc f ltac:(apply in_app_iff; right; left; reflexivity)).
      rewrite zip_app in Hnode. simpl in Hnode. rewrite <- node_bit_plug with (n := zip (Node b0 (Some q0) d0 l0 r0) pop') in Hc.
      rewrite <- Hnode in Hc. simpl in Hc. lia. }
    assert (HzE : zip (Node b p d l r) ctx = RADIX_HEAD t (family P)) by (rewrite Eh; exact Hzn).
    destruct ((dd =? bitlen P) && (b =? bitlen P)) eqn:Eex.
    { apply andb_prop in Eex as [E1 E2]. apply Nat.eqb_eq in E1, E2.
      destruct p as [q|].
      - assert (Hcp : compat ctx (Node b (Some q) d l r) (Node b (Some q) d l r)).
        { apply (compat_intro _ _ _ dd); [exact Htop | discriminate | simpl; lia |].
          intros q' Hq'. exists q'; split; [exact Hq' | apply agree_refl]. }
        destruct (lookup_finish t (family P) _ _ ctx 0 Hwt HzE Hwn Hcp ltac:(lia)) as [Hw1 Hc1].
        split; [exact Hw1|]. split; [rewrite Hc1, num_set_head; lia|]. split; [reflexivity|].
        exists q, d, l, r. rewrite node_at_set_zip0. split; [rewrite E2; reflexivity|].
        apply wf_node_inv in Hwn. destruct Hwn as (_ & _ & _ & _ & _ & Hpair & _).
        rewrite <- E1. apply (agree_trans _ (add q0)); [exact Hdag|].
        apply (agree_le _ _ b); [lia|]. apply Hpair; [exact HInn | left; reflexivity].
      - assert (Hcp : compat ctx (Node b None d l r) (Node b (Some P) d l r)).
        { apply (compat_intro _ _ _ dd); [exact Htop | discriminate | simpl; lia |].
          intros q' [Hq' | Hq'].
          - inversion Hq'; subst. exists q0. split; [exact HInn | apply agree_sym; exact Hdag].
          - exists q'. split; [right; exact Hq' | apply agree_refl]. }
        assert (Hw' : wf (family P) (Node b (Some P) d l r)).
        { apply (wf_set_prefix _ _ _ _ _ P q0 Hwn eq_refl (eq_sym E2) HInn).
          rewrite E2, <- E1. exact Hdag. }
        destruct (lookup_finish t (family P) _ _ ctx 0 Hwt HzE Hw' Hcp ltac:(simpl; lia)) as [Hw1 Hc1].
        split; [exact Hw1|]. split; [rewrite Hc1, num_set_head; lia|]. split; [reflexivity|].
        exists P, d, l, r. rewrite node_at_set_zip0. split; [rewrite E2; reflexivity|].
        apply agree_refl. }
    assert (Hnex : ~ (dd = bitlen P /\ b = bitlen P)).
    { intros [E1 E2]. apply Nat.eqb_eq in E1, E2. rewrite E1, E2 in Eex. discriminate. }
    clear Eex.
    assert (Hmb : bitlen P <= RADIX_MAXBITS_BY_PREFIX P) by exact Hv.
    destruct (malloc m) as [ok m1]. destruct ok; [|exact I]. simpl negb. cbv iota.
    destruct (Nat.eqb_spec b dd) as [Ebd | Ebd].
    + (* a new leaf below [node] *)
      assert (Hbb0 : b = b0).
      { destruct (Nat.lt_ge_cases b b0) as [Hlt | Hge]; [|lia]. exfalso.
        destruct (Hnb Hlt) as [Hbit _].
        destruct (Nat.lt_ge_cases b (bitlen P)) as [Hbl | Hbl].
        - rewrite gbit_in in Hbit by lia. apply Hddif; [lia|]. rewrite <- Ebd. congruence.
        - apply Hnex. lia. }
      specialize (Hb0 Hbb0). subst pop. simpl in Hnode. injection Hnode as -> -> -> -> ->.
      assert (Hbl : b0 < bitlen P) by (destruct (Nat.lt_ge_cases b0 (bitlen P)); [assumption|]; exfalso; apply Hnex; lia).
      specialize (Hstop (or_introl Hbl)).
      rewrite guarded_self.
      pose proof (gbit_in P b0 ltac:(lia)) as Hg.
      destruct (gbit P b0) eqn:Eg; cbv iota.
        * refine (lookup_result t (add_active t 1) (family P) _ _ ctx 1 [DR] P Hwt HzE eq_refl
                  (RADIX_HEAD_add t 1) (count_tree_add t 1) (num_add t 1) _ _ _ _).
          -- exact (wf_new_below (family P) b0 (Some q0) d0 l0 r0 P q0 true Hwn Hstop
                   ltac:(discriminate) Hv eq_refl Hbl (eq_sym Hg) HInn ltac:(rewrite Ebd; exact Hdag)).
          -- apply (compat_ext _ _ _ dd P q0 Htop); [discriminate | simpl; lia | exact HInn | exact Hdag |].
          rewrite Hstop. simpl. intuition congruence.
          -- rewrite Hstop. simpl. lia.
          -- exists P, None, NULL, NULL. split; [reflexivity | apply agree_refl].
        * refine (lookup_result t (add_active t 1) (family P) _ _ ctx 1 [DL] P Hwt HzE eq_refl
                  (RADIX_HEAD_add t 1) (count_tree_add t 1) (num_add t 1) _ _ _ _).
          -- exact (wf_new_below (family P) b0 (Some q0) d0 l0 r0 P q0 false Hwn Hstop
                   ltac:(discriminate) Hv eq_refl Hbl (eq_sym Hg) HInn ltac:(rewrite Ebd; exact Hdag)).
          -- apply (compat_ext _ _ _ dd P q0 Htop); [discriminate | simpl; lia | exact HInn | exact Hdag |].
          rewrite Hstop. simpl. intuition congruence.
          -- rewrite Hstop. simpl. lia.
          -- exists P, None, NULL, NULL. split; [reflexivity | apply agree_refl].
    + assert (Hbgt : dd < b) by lia.
      destruct (Nat.eqb_spec (bitlen P) dd) as [Ebl | Ebl].
      * (* the new node above [node] *)
        assert (Hmq : b <= RADIX_MAXBITS_BY_PREFIX q0).
        { unfold RADIX_MAXBITS_BY_PREFIX. rewrite (proj1 Hq0).
          apply wf_node_inv in Hwn. tauto. }
        rewrite (guarded_other P q0 (bitlen P) (proj1 Hq0)).
        pose proof (gbit_in q0 (bitlen P) ltac:(lia)) as Hg.
        assert (Hag' : agree (add P) (add q0) (bitlen P)) by (rewrite Ebl; exact Hdag).
        rewrite <- (app_nil_r (path_of ctx)).
        destruct (gbit q0 (bitlen P)) eqn:Eg; cbv iota.
        -- refine (lookup_result t (add_active t 1) (family P) _ _ ctx 1 [] P Hwt HzE eq_refl
                  (RADIX_HEAD_add t 1) (count_tree_add t 1) (num_add t 1) _ _ _ _).
           ++ exact (wf_new_above (family P) (Node b p d l r) P q0 true Hwn ltac:(discriminate)
                       Hv eq_refl ltac:(simpl; lia) (eq_sym Hg) HInn Hag').
           ++ apply (compat_ext _ _ _ dd P q0 Htop); [discriminate | simpl; lia | exact HInn | exact Hdag |].
              simpl. intuition congruence.
           ++ simpl. lia.
           ++ exists P, None, NULL, (Node b p d l r). split; [reflexivity | apply agree_refl].
        -- refine (lookup_result t (add_active t 1) (family P) _ _ ctx 1 [] P Hwt HzE eq_refl
                  (RADIX_HEAD_add t 1) (count_tree_add t 1) (num_add t 1) _ _ _ _).
           ++ exact (wf_new_above (family P) (Node b p d l r) P q0 false Hwn ltac:(discriminate)
                       Hv eq_refl ltac:(simpl; lia) (eq_sym Hg) HInn Hag').
           ++ apply (compat_ext _ _ _ dd P q0 Htop); [discriminate | simpl; lia | exact HInn | exact Hdag |].
              simpl. intuition congruence.
           ++ simpl. lia.
           ++ exists P, None, (Node b p d l r), NULL. split; [reflexivity | apply agree_refl].
      * (* a glue node above [node] and the new leaf *)
        destruct (fst (malloc m1)); [|exact I]. cbv iota.
        assert (Hdcb' : dd < cb) by (destruct (Nat.lt_ge_cases b0 (bitlen P)); lia).
        specialize (Hddif Hdcb').
        rewrite guarded_self, (gbit_in P dd) by lia.
        pose proof (wf_fork (family P) (Node b p d l r) P q0 dd Hwn ltac:(discriminate) Hv eq_refl
                      ltac:(lia) ltac:(simpl; lia) Hddif HInn Hdag) as Hw'.
        destruct (BIT_TEST_SEARCH_BIT (add P) dd) eqn:Eb; cbv iota.
        -- refine (lookup_result t (add_active (add_active t 1) 1) (family P) _ _ ctx 2 [DR] P Hwt
                     HzE eq_refl ltac:(intros g; rewrite !RADIX_HEAD_add; reflexivity) eq_refl
                     ltac:(simpl; lia) Hw' _ _ _).
           ++ apply (compat_ext _ _ _ dd P q0 Htop); [discriminate | simpl; lia | exact HInn | exact Hdag |].
              simpl. intuition congruence.
           ++ simpl. lia.
           ++ exists P, None, NULL, NULL. split; [reflexivity | apply agree_refl].
        -- refine (lookup_result t (add_active (add_active t 1) 1) (family P) _ _ ctx 2 [DL] P Hwt
                     HzE eq_refl ltac:(intros g; rewrite !RADIX_HEAD_add; reflexivity) eq_refl
                     ltac:(simpl; lia) Hw' _ _ _).
           ++ apply (compat_ext _ _ _ dd P q0 Htop); [discriminate | simpl; lia | exact HInn | exact Hdag |].
              simpl. intuition congruence.
           ++ simpl. lia.
           ++ exists P, None, NULL, NULL. split; [reflexivity | apply agree_refl].
Qed.

(** ** [radix_remove] and payload updates keep the invariant *)

Lemma wf_sib fam f n :
  wf fam (plug f n) ->
  wf fam (fsib f) /\ child_gt (fbit f) (fsib f) /\ (forall q, InR q (fsib f) -> InR q (plug f n)).
Proof.
  unfold plug; destruct (fdir f); intros Hw; apply wf_node_inv in Hw;
    destruct Hw as (_ & Hgl & Hgr & _ & _ & _ & Hwl & Hwr); simpl; auto.
Qed.

Lemma wf_plug_null fam f n : wf fam (plug f n) -> fpfx f <> None -> wf fam (plug f NULL).
Proof.
  unfold plug; destruct (fdir f); simpl; intros Hw Hp; destruct (fpfx f) as [q|]; [|congruence| |congruence];
    destruct Hw as (Hq & Hmb & Hgl & Hgr & Hsl & Hsr & Hpair & Hwl & Hwr);
    repeat match goal with |- _ /\ _ => split end;
    solve [assumption | exact I | tauto | intros ? [] |
           intros q1 q2 Hq1 Hq2; apply Hpair; tauto].
Qed.

Lemma wf_clear_prefix fam b q d d' l r :
  wf fam (Node b (Some q) d l r) -> l <> NULL -> r <> NULL -> wf fam (Node b None d' l r).
Proof.
  simpl. intros (Hq & Hmb & Hgl & Hgr & Hsl & Hsr & Hpair & Hwl & Hwr) Hl Hr.
  split; [split; assumption|]. repeat (split; [assumption|]). split; [|tauto].
  intros q1 q2 Hq1 Hq2.
  apply Hpair; [destruct Hq1 as [E | E]; [discriminate | right; exact E]
               | destruct Hq2 as [E | E]; [discriminate | right; exact E]].
Qed.

Lemma compat_sub fam ctx n n' :
  wf fam (zip n ctx) -> n <> NULL -> n' <> NULL -> node_bit n <= node_bit n' ->
  (forall q, InR q n' -> InR q n) -> compat ctx n n'.
Proof.
  intros Hw Hn Hn' Hle Hsub. apply (compat_intro _ _ _ (node_bit n)); auto.
  - pose proof (chain_lt fam n ctx Hw Hn) as Hc. destruct ctx as [|f ctx]; [exact I|].
    inversion Hc; assumption.
  - intros q' Hq'. exists q'. split; [apply Hsub, Hq' | apply agree_refl].
Qed.

Lemma remove_finish t fam node n' ctx :
  wf_tree t -> zip node ctx = RADIX_HEAD t fam -> wf fam n' -> compat ctx node n' ->
  wf_tree (set_head t fam (zip n' ctx)) /\
  count_tree (set_head t fam (zip n' ctx)) + count_nodes node = count_tree t + count_nodes n'.
Proof.
  intros Hwt Hz Hw' Hc. split.
  - apply wf_tree_set; [exact Hwt|]. apply (wf_replace fam ctx node n'); auto.
    rewrite Hz. apply wf_tree_iff, Hwt.
  - pose proof (count_tree_set t fam (zip n' ctx)) as H1.
    pose proof (count_zip node n' ctx) as H2. rewrite Hz in H2. lia.
Qed.

Lemma remove_wf t np t' :
  wf_tree t -> radix_remove t np = Some t' ->
  wf_tree t' /\
  (Z.of_nat (count_tree t') - num_active_node t' =
   Z.of_nat (count_tree t) - num_active_node t)%Z.
Proof.
  intros Hwt H. unfold radix_remove in H.
  destruct (locate (RADIX_HEAD t (nfam np)) (npath np) []) as [node ctx] eqn:El.
  apply locate_zip in El. simpl in El.
  assert (Hwh : wf (nfam np) (RADIX_HEAD t (nfam np))) by (apply wf_tree_iff, Hwt).
  assert (Hwn : wf (nfam np) node) by (eapply wf_zip_inv; rewrite El; exact Hwh).
  destruct node as [|b p d l r]; [discriminate|].
  destruct p as [q|]; [|discriminate].
  assert (Hfq : family q = nfam np) by (simpl in Hwn; tauto).
  assert (Hwlr : wf (nfam np) l /\ wf (nfam np) r) by (apply wf_node_inv in Hwn; tauto).
  destruct Hwlr as [Hwl Hwr].
  assert (Hgl : child_gt b l /\ child_gt b r) by (apply wf_node_inv in Hwn; tauto).
  destruct Hgl as [Hgl Hgr].
  destruct l as [|bl pl dl ll rl], r as [|br pr dr lr rr].
  - (* a leaf *)
    destruct ctx as [|f ctx'].
    + inversion H; subst t'. rewrite Hfq. simpl in El.
      split; [apply wf_tree_set; [apply wf_tree_add, Hwt | exact I]|].
      pose proof (count_tree_set (add_active t (-1)) (nfam np) NULL) as Hc.
      rewrite RADIX_HEAD_add, <- El in Hc. rewrite count_tree_add in Hc.
      rewrite num_set_head, num_add. simpl in Hc. lia.
    + simpl in El.
      assert (Hwp : wf (nfam np) (plug f (Node b (Some q) d NULL NULL)))
        by (eapply wf_zip_inv; rewrite El; exact Hwh).
      destruct (fpfx f) as [qf|] eqn:Ef.
      * inversion H; subst t'.
        assert (Hwp' : wf (nfam np) (plug f NULL)) by (eapply wf_plug_null; [exact Hwp | congruence]).
        assert (Hcp : compat ctx' (plug f (Node b (Some q) d NULL NULL)) (plug f NULL)).
        { apply (compat_sub (nfam np)); [rewrite El; exact Hwh | apply plug_not_NULL | apply plug_not_NULL | rewrite !node_bit_plug; lia |].
          intros q' Hq'. apply InR_plug_inv in Hq'. unfold plug; destruct (fdir f); simpl; tauto. }
        destruct (remove_finish (add_active t (-1)) (nfam np) _ _ ctx' (wf_tree_add _ _ Hwt)
                    ltac:(rewrite RADIX_HEAD_add; exact El) Hwp' Hcp) as [Hw1 Hc1].
        split; [exact Hw1|]. rewrite num_set_head, num_add. rewrite count_tree_add in Hc1.
        unfold plug in Hc1 |- *; destruct (fdir f); simpl in Hc1; lia.
      * destruct (fsib f) as [|bs ps ds ls rs] eqn:Es; [discriminate|].
        destruct (wf_sib _ _ _ Hwp) as (Hws & Hgs & Hsubs). rewrite Es in Hws, Hgs, Hsubs.
        destruct ctx' as [|g ctx''].
        -- inversion H; subst t'. rewrite Hfq.
           split; [apply wf_tree_set; [apply wf_tree_add, wf_tree_add, Hwt | exact Hws]|].
           pose proof (count_tree_set (add_active (add_active t (-1)) (-1)) (nfam np) (Node bs ps ds ls rs)) as Hc.
           rewrite !RADIX_HEAD_add, <- El in Hc. rewrite !count_tree_add in Hc.
           rewrite num_set_head, !num_add.
           unfold plug in Hc; rewrite Es in Hc; destruct (fdir f); simpl in Hc; lia.
        -- inversion H; subst t'.
           assert (Hcp : compat (g :: ctx'') (plug f (Node b (Some q) d NULL NULL)) (Node bs ps ds ls rs)).
           { apply (compat_sub (nfam np)); [rewrite El; exact Hwh | apply plug_not_NULL | discriminate | rewrite node_bit_plug; simpl in Hgs |- *; lia | exact Hsubs]. }
           destruct (remove_finish (add_active (add_active t (-1)) (-1)) (nfam np) _ _ (g :: ctx'')
                       (wf_tree_add _ _ (wf_tree_add _ _ Hwt))
                       ltac:(rewrite !RADIX_HEAD_add; exact El) Hws Hcp) as [Hw1 Hc1].
           split; [exact Hw1|]. rewrite num_set_head, !num_add. rewrite !count_tree_add in Hc1.
           unfold plug in Hc1; rewrite Es in Hc1; destruct (fdir f); simpl in Hc1; lia.
  - (* only a right child *)
    assert (Hcnt : count_nodes (zip (Node b (Some q) d NULL (Node br pr dr lr rr)) ctx) =
                   count_nodes (RADIX_HEAD t (nfam np))) by (rewrite El; reflexivity).
    destruct ctx as [|f ctx'].
    + inversion H; subst t'. rewrite Hfq.
      split; [apply wf_tree_set; [apply wf_tree_add, Hwt | exact Hwr]|].
      pose proof (count_tree_set (add_active t (-1)) (nfam np) (Node br pr dr lr rr)) as Hc.
      rewrite RADIX_HEAD_add, <- El in Hc. rewrite count_tree_add in Hc.
      rewrite num_set_head, num_add. simpl in Hc. lia.
    + inversion H; subst t'.
      assert (Hcp : compat (f :: ctx') (Node b (Some q) d NULL (Node br pr dr lr rr)) (Node br pr dr lr rr)).
      { apply (compat_sub (nfam np)); [rewrite El; exact Hwh | discriminate | discriminate | simpl in Hgr |- *; lia |].
        intros q' Hq'. simpl. tauto. }
      destruct (remove_finish (add_active t (-1)) (nfam np) _ _ (f :: ctx') (wf_tree_add _ _ Hwt)
                  ltac:(rewrite RADIX_HEAD_add; exact El) Hwr Hcp) as [Hw1 Hc1].
      split; [exact Hw1|]. rewrite num_set_head, num_add. rewrite count_tree_add in Hc1.
      simpl in Hc1. lia.
  - (* only a left child *)
    destruct ctx as [|f ctx'].
    + inversion H; subst t'. rewrite Hfq.
      split; [apply wf_tree_set; [apply wf_tree_add, Hwt | exact Hwl]|].
      pose proof (count_tree_set (add_active t (-1)) (nfam np) (Node bl pl dl ll rl)) as Hc.
      rewrite RADIX_HEAD_add, <- El in Hc. rewrite count_tree_add in Hc.
      rewrite num_set_head, num_add. simpl in Hc. lia.
    + inversion H; subst t'.
      assert (Hcp : compat (f :: ctx') (Node b (Some q) d (Node bl pl dl ll rl) NULL) (Node bl pl dl ll rl)).
      { apply (compat_sub (nfam np)); [rewrite El; exact Hwh | discriminate | discriminate | simpl in Hgl |- *; lia |].
        intros q' Hq'. simpl. tauto. }
      destruct (remove_finish (add_active t (-1)) (nfam np) _ _ (f :: ctx') (wf_tree_add _ _ Hwt)
                  ltac:(rewrite RADIX_HEAD_add; exact El) Hwl Hcp) as [Hw1 Hc1].
      split; [exact Hw1|]. rewrite num_set_head, num_add. rewrite count_tree_add in Hc1.
      simpl in Hc1. lia.
  - (* two children: the node becomes a glue node *)
    inversion H; subst t'.
    assert (Hw' : wf (nfam np) (Node b None None (Node bl pl dl ll rl) (Node br pr dr lr rr)))
      by (eapply wf_clear_prefix; [exact Hwn | discriminate | discriminate]).
    assert (Hcp : compat ctx (Node b (Some q) d (Node bl pl dl ll rl) (Node br pr dr lr rr))
                    (Node b None None (Node bl pl dl ll rl) (Node br pr dr lr rr))).
    { apply (compat_sub (nfam np)); [rewrite El; exact Hwh | discriminate | discriminate | simpl; lia |].
      intros q' [E | E]; [discriminate | right; exact E]. }
    destruct (remove_finish t (nfam np) _ _ ctx Hwt El Hw' Hcp) as [Hw1 Hc1].
    split; [exact Hw1|]. rewrite num_set_head. simpl in Hc1. lia.
Qed.

Lemma InR_set_data q n path v : InR q (set_data_at n path v) <-> InR q n.
Proof.
  revert path; induction n as [|b p d l IHl r IHr]; intros path; [destruct path as [|[] ?]; reflexivity|].
  destruct path as [|[] path]; simpl; [tauto | rewrite IHl; tauto | rewrite IHr; tauto].
Qed.

Lemma child_gt_set_data k n path v : child_gt k (set_data_at n path v) <-> child_gt k n.
Proof. destruct n, path as [|[] ?]; reflexivity. Qed.

Lemma set_data_NULL n path v : set_data_at n path v = NULL <-> n = NULL.
Proof. destruct n, path as [|[] ?]; simpl; split; congruence. Qed.

Lemma wf_set_data fam n path v : wf fam n -> wf fam (set_data_at n path v).
Proof.
  revert path; induction n as [|b p d l IHl r IHr]; intros path Hw;
    [destruct path as [|[] ?]; exact I|].
  pose proof Hw as Hw2. apply wf_node_inv in Hw2.
  destruct Hw2 as (Hmb & Hgl & Hgr & Hsl & Hsr & Hpair & Hwl & Hwr).
  assert (Hp : match p with Some q => family q = fam /\ bitlen q = b
               | None => l <> NULL /\ r <> NULL end) by (simpl in Hw; tauto).
  destruct path as [|[] path]; simpl; [tauto| |]; rewrite child_gt_set_data;
    repeat match goal with |- _ /\ _ => split end;
    try solve [assumption | apply IHl, Hwl | apply IHr, Hwr
              | destruct p; [tauto | split; intros E; rewrite ?set_data_NULL in E; tauto]
              | intros q Hq; rewrite InR_set_data in Hq; apply Hsl, Hq
              | intros q Hq; rewrite InR_set_data in Hq; apply Hsr, Hq
              | intros q1 q2 Hq1 Hq2; rewrite InR_set_data in Hq1, Hq2; apply Hpair; assumption].
Qed.

Lemma count_set_data n path v : count_nodes (set_data_at n path v) = count_nodes n.
Proof.
  revert path; induction n as [|b p d l IHl r IHr]; intros path; [destruct path as [|[] ?]; reflexivity|].
  destruct path as [|[] path]; simpl; rewrite ?IHl, ?IHr; reflexivity.
Qed.

(** ** The invariant of reachable trees *)

(** A lookup that returns NULL leaves the tree as it was, with the
    counter raised by one when the glue allocation failed. *)
Lemma lookup_nomem m t P t' :
  radix_lookup_m m t P = LNoMem t' -> t' = t \/ t' = add_active t 1.
Proof.
  unfold radix_lookup_m.
  repeat match goal with
  | |- context [match ?x with _ => _ end] =>
      lazymatch type of x with lookup_res => fail | _ => destruct x eqn:?; cbv iota beta end
  end; intros H; first [discriminate H | injection H as <-; auto].
Qed.

Lemma set_data_inv t np v :
  wf_tree t ->
  wf_tree (set_node_data t np v) /\
  Z.of_nat (count_tree (set_node_data t np v)) = Z.of_nat (count_tree t) /\
  num_active_node (set_node_data t np v) = num_active_node t.
Proof.
  intros Hw. unfold set_node_data. split; [|split].
  - apply wf_tree_set; [exact Hw|]. apply wf_set_data, wf_tree_iff, Hw.
  - pose proof (count_tree_set t (nfam np) (set_data_at (RADIX_HEAD t (nfam np)) (npath np) v)) as H.
    rewrite count_set_data in H. lia.
  - apply num_set_head.
Qed.

Lemma reachable_inv t :
  reachable t -> wf_tree t /\ (Z.of_nat (count_tree t) <= num_active_node t)%Z.
Proof.
  induction 1 as [| t P t' np Hr [Hw Hc] Hv Hl | t P m t' Hr [Hw Hc] Hv Hl
                  | t np t' Hr [Hw Hc] Hp Hrem | t np v Hr [Hw Hc] Hp].
  - split; [split; exact I | reflexivity].
  - pose proof (lookup_wf [] t P Hw Hv) as H. unfold radix_lookup in Hl. rewrite Hl in H.
    destruct H as (Hw' & Hc' & _). split; [exact Hw' | lia].
  - destruct (lookup_nomem m t P t' Hl) as [-> | ->]; [split; assumption|].
    split; [apply wf_tree_add, Hw|]. rewrite count_tree_add, num_add. lia.
  - destruct (remove_wf t np t' Hw Hrem) as [Hw' Hc']. split; [exact Hw' | lia].
  - destruct (set_data_inv t np v Hw) as (Hw' & Hc' & Hn'). split; [exact Hw' | lia].
Qed.

Lemma reachable_wf t : reachable t -> wf_tree t.
Proof. intros H. apply (reachable_inv t H). Qed.

Lemma reachable_ok_inv t :
  reachable_ok t -> reachable t /\ Z.of_nat (count_tree t) = num_active_node t.
Proof.
  induction 1 as [| t P t' np Hr [Hr' Hc] Hv Hl | t np t' Hr [Hr' Hc] Hp Hrem | t np v Hr [Hr' Hc] Hp].
  - split; [exact reach_new | reflexivity].
  - pose proof (reachable_wf t Hr') as Hw.
    pose proof (lookup_wf [] t P Hw Hv) as H. unfold radix_lookup in Hl. rewrite Hl in H.
    destruct H as (Hw' & Hc' & _). split; [exact (reach_lookup t P t' np Hr' Hv Hl) | lia].
  - pose proof (reachable_wf t Hr') as Hw.
    destruct (remove_wf t np t' Hw Hrem) as [Hw' Hc']. split; [exact (reach_remove t np t' Hr' Hp Hrem) | lia].
  - pose proof (reachable_wf t Hr') as Hw.
    destruct (set_data_inv t np v Hw) as (Hw' & Hc' & Hn'). split; [exact (reach_data t np v Hr' Hp) | lia].
Qed.

Lemma reachable_ok_insert_all ps : forall t,
  reachable_ok t -> inserts_ok t ps = true -> reachable_ok (insert_all t ps).
Proof.
  induction ps as [|P ps IH]; intros t Hr Hok; simpl in *; [exact Hr|].
  apply andb_prop in Hok as [Hok Hrest]. apply andb_prop in Hok as [Hv Hl].
  apply IH; [|exact Hrest].
  destruct (radix_lookup t P) as [t' np| |] eqn:E; try discriminate.
  apply (rok_lookup t P t' np Hr); [apply Nat.leb_le, Hv | exact E].
Qed.

Lemma reachable_insert_all ps : forall t,
  reachable t -> inserts_ok t ps = true -> reachable (insert_all t ps).
Proof.
  induction ps as [|P ps IH]; intros t Hr Hok; simpl in *; [exact Hr|].
  apply andb_prop in Hok as [Hok Hrest]. apply andb_prop in Hok as [Hv Hl].
  apply IH; [|exact Hrest].
  destruct (radix_lookup t P) as [t' np| |] eqn:E; try discriminate.
  apply (reach_lookup t P t' np Hr); [apply Nat.leb_le, Hv | exact E].
Qed.

(** ** Lookup never reads a bit outside the address *)

Lemma lookup_no_bitfault m t P :
  wf_tree t -> radix_lookup_m m t P <> LFault BitOutOfRange.
Proof.
  intros Hwt. unfold radix_lookup_m.
  assert (Hwh : wf (family P) (RADIX_HEAD t (family P))) by (apply wf_tree_iff; exact Hwt).
  destruct (RADIX_HEAD t (family P)) as [|hb hp hd hl hr] eqn:Eh.
  - destruct (fst (malloc m)); discriminate.
  - set (h := Node hb hp hd hl hr) in *.
    destruct (lookup_descend _ _ P h []) as [[n0 ctx0]|] eqn:Ed;
      [|exfalso; eapply descend_not_None; exact Ed].
    apply descend_spec in Ed; [|discriminate].
    destruct Ed as (cd & Hcd & Hz0 & _). rewrite app_nil_r in Hcd. subst cd.
    destruct n0 as [|b0 p0 d0 l0 r0]; [discriminate|].
    destruct p0 as [q0|]; [|discriminate].
    assert (Hfq : family q0 = family P).
    { apply (wf_InR _ h); [exact Hwh|]. rewrite <- Hz0. apply InR_zip. left; reflexivity. }
    destruct (walk_up _ _ ctx0) as [node ctx].
    destruct node as [|b p d l r]; [discriminate|].
    destruct (_ && _); [discriminate|].
    destruct (malloc m) as [ok m1]. destruct ok; [|discriminate]. simpl negb. cbv iota.
    destruct (b =? _).
    + rewrite guarded_self. destruct (gbit P b); discriminate.
    + destruct (bitlen P =? _).
      * rewrite (guarded_other P q0 _ Hfq). destruct (gbit q0 _); discriminate.
      * destruct (fst (malloc m1)); [|discriminate]. cbv iota.
        rewrite guarded_self. destruct (gbit P _); discriminate.
Qed.

(** ** Deletion *)

Lemma search_foreach_zip P : forall n ctx n' ctx',
  search_foreach P n ctx = (n', ctx') -> zip n' ctx' = zip n ctx.
Proof.
  induction n as [|b p d l IHl r IHr]; intros ctx n' ctx' H; simpl in H.
  - inversion H; reflexivity.
  - destruct (b <? bitlen P); [|inversion H; reflexivity].
    destruct (BIT_TEST_SEARCH_BIT (add P) b); [apply IHr in H | apply IHl in H]; exact H.
Qed.

Lemma search_exact_real t P np :
  radix_search_exact t P = Some np -> node_prefix (node_at t np) <> None.
Proof.
  unfold radix_search_exact.
  destruct (RADIX_HEAD t (family P)) as [|hb hp hd hl hr] eqn:Eh; [discriminate|].
  destruct (search_foreach P _ []) as [n ctx] eqn:Es. apply search_foreach_zip in Es.
  simpl in Es. destruct n as [|b p d l r]; [discriminate|].
  destruct (bitlen P <? b); [discriminate|]. destruct p as [q|]; [|discriminate].
  destruct (comp_with_mask _ _ _); [|discriminate]. intros H; inversion H; subst np.
  unfold node_at. simpl. rewrite Eh, <- Es, get_zip. discriminate.
Qed.

Lemma glue_parent_frame t fam f ctx node :
  zip node (f :: ctx) = RADIX_HEAD t fam ->
  glue_parent t (mk_nodeptr fam (path_of (f :: ctx))) = negb (is_some_pfx (fpfx f)).
Proof.
  intros Hz. unfold glue_parent, node_at. cbn [npath nfam]. rewrite path_of_cons, removelast_last.
  rewrite <- Hz. simpl zip. rewrite get_zip.
  destruct (path_of ctx ++ [fdir f]) eqn:E; [apply app_eq_nil in E as [_ E]; discriminate E|].
  unfold plug. destruct (fdir f); reflexivity.
Qed.

Lemma remove_num t np :
  wf_tree t -> node_prefix (node_at t np) <> None ->
  exists t', radix_remove t np = Some t' /\
    match node_at t np with
    | Node b _ _ l r =>
        match l, r with
        | Node _ _ _ _ _, Node _ _ _ _ _ =>
            node_at t' np = Node b None None l r /\ num_active_node t' = num_active_node t
        | NULL, NULL =>
            num_active_node t' = (num_active_node t - if glue_parent t np then 2 else 1)%Z
        | _, _ => num_active_node t' = (num_active_node t - 1)%Z
        end
    | NULL => False
    end.
Proof.
  intros Hwt Hp. destruct np as [fam path]. unfold radix_remove. cbn [nfam npath].
  destruct (locate (RADIX_HEAD t fam) path []) as [node ctx] eqn:El.
  pose proof El as El2. apply locate_zip in El2. simpl in El2.
  apply locate_get in El; [|intros E; unfold node_at in Hp; simpl in Hp; rewrite E in Hp; apply Hp; reflexivity].
  destruct El as [Hn Hpath].
  assert (Ep : path = path_of ctx) by (rewrite Hpath; reflexivity). subst path.
  unfold node_at in Hp |- *. cbn [nfam npath] in Hp |- *. rewrite <- Hn in Hp |- *.
  assert (Hwh : wf fam (RADIX_HEAD t fam)) by (apply wf_tree_iff, Hwt).
  destruct node as [|b p d l r]; [contradiction Hp; reflexivity|].
  destruct p as [q|]; [|contradiction Hp; reflexivity].
  destruct l as [|bl pl dl ll rl], r as [|br pr dr lr rr].
  - destruct ctx as [|f ctx'].
    + eexists; split; [reflexivity|]. rewrite num_set_head, num_add. reflexivity.
    + rewrite (glue_parent_frame t fam f ctx' _ El2).
      destruct (fpfx f) as [qf|] eqn:Ef.
      * eexists; split; [reflexivity|]. rewrite num_set_head, num_add. reflexivity.
      * assert (Hwp : wf fam (plug f (Node b (Some q) d NULL NULL)))
          by (eapply wf_zip_inv; simpl in El2; rewrite El2; exact Hwh).
        assert (Hs : fsib f <> NULL).
        { unfold plug in Hwp. rewrite Ef in Hwp.
          destruct (fdir f); simpl in Hwp; tauto. }
        destruct (fsib f) as [|bs ps ds ls rs]; [contradiction Hs; reflexivity|].
        destruct ctx'; (eexists; split; [reflexivity|]); rewrite num_set_head, !num_add; simpl; lia.
  - destruct ctx; (eexists; split; [reflexivity|]); rewrite num_set_head, num_add; reflexivity.
  - destruct ctx; (eexists; split; [reflexivity|]); rewrite num_set_head, num_add; reflexivity.
  - eexists; split; [reflexivity|]. rewrite num_set_head, RADIX_HEAD_set, get_zip. split; reflexivity.
Qed.

(** ** A lookup of a stored prefix *)

Lemma lookup_nil_no_nomem t P t' : radix_lookup_m [] t P <> LNoMem t'.
Proof.
  unfold radix_lookup_m. cbn [malloc fst negb].
  destruct (RADIX_HEAD t (family P)); [discriminate|].
  destruct lookup_descend as [[n0 ctx0]|]; [|discriminate].
  destruct n0 as [|b0 p0 d0 l0 r0]; [discriminate|]. destruct p0 as [q0|]; [|discriminate].
  destruct walk_up as [node ctx]. destruct node as [|b p d l r]; [discriminate|].
  destruct (_ && _); [discriminate|]. cbv iota.
  destruct (b =? _); [destruct guarded_test as [[]|]; discriminate|].
  destruct (bitlen P =? _); [destruct guarded_test as [[]|]; discriminate|].
  destruct guarded_test as [[]|]; discriminate.
Qed.

Lemma InR_get n path q : node_prefix (get n path) = Some q -> InR q n.
Proof.
  revert n; induction path as [|x path IH]; intros n H.
  - rewrite get_nil in H. destruct n; simpl in *; [discriminate | left; exact H].
  - destruct n as [|b p d l r]; [rewrite get_NULL in H; discriminate|].
    destruct x; simpl in H; apply IH in H; simpl; tauto.
Qed.

Lemma wf_get fam n path : wf fam n -> wf fam (get n path).
Proof.
  revert n; induction path as [|x path IH]; intros n H.
  - rewrite get_nil. exact H.
  - destruct n as [|b p d l r]; [rewrite get_NULL; exact I|].
    apply wf_node_inv in H. destruct x; simpl; apply IH; tauto.
Qed.

Lemma child_lt_bit fam b c q : wf fam c -> InR q c -> child_gt b c -> b < bitlen q.
Proof.
  intros Hw Hq Hg. pose proof (wf_bits_below _ _ _ Hw Hq) as H.
  destruct c; simpl in *; [contradiction | lia].
Qed.

Lemma descend_reaches P q d l r : forall path n ctx,
  wf (family P) n ->
  get n path = Node (bitlen P) (Some q) d l r ->
  agree (add P) (add q) (bitlen P) ->
  lookup_descend (RADIX_MAXBITS_BY_PREFIX P) (bitlen P) P n ctx =
    Some (get n path, snd (locate n path ctx)).
Proof.
  induction path as [|x path IH]; intros n ctx Hw Hg Hag.
  - rewrite get_nil in Hg |- *. subst n. simpl. rewrite Nat.ltb_irrefl. reflexivity.
  - destruct n as [|b p dd l0 r0]; [rewrite get_NULL in Hg; discriminate|].
    pose proof Hw as Hw2. apply wf_node_inv in Hw2.
    destruct Hw2 as (Hmb & Hgl & Hgr & Hsl & Hsr & _ & Hwl & Hwr).
    assert (Hq : InR q (get (Node b p dd l0 r0) (x :: path))) by (rewrite Hg; left; reflexivity).
    assert (Hbq : bitlen q = bitlen P).
    { pose proof (wf_get _ _ (x :: path) Hw) as Hwg. rewrite Hg in Hwg. simpl in Hwg. tauto. }
    assert (Hbm : bitlen P <= maxbits_of (family P))
      by (rewrite <- Hbq; exact (proj2 (wf_InR _ _ _ Hw (InR_get _ (x :: path) q ltac:(rewrite Hg; reflexivity))))).
    assert (Hlt : b < bitlen P /\ gbit P b = match x with DL => false | DR => true end).
    { destruct x; simpl in Hg.
      - assert (Hc : InR q l0) by (apply (InR_get _ path); rewrite Hg; reflexivity).
        assert (Hbl : b < bitlen P) by (rewrite <- Hbq; apply (child_lt_bit _ _ _ _ Hwl Hc Hgl)).
        split; [exact Hbl|]. rewrite gbit_in by (unfold RADIX_MAXBITS_BY_PREFIX; lia).
        rewrite (Hag b Hbl). apply Hsl, Hc.
      - assert (Hc : InR q r0) by (apply (InR_get _ path); rewrite Hg; reflexivity).
        assert (Hbl : b < bitlen P) by (rewrite <- Hbq; apply (child_lt_bit _ _ _ _ Hwr Hc Hgr)).
        split; [exact Hbl|]. rewrite gbit_in by (unfold RADIX_MAXBITS_BY_PREFIX; lia).
        rewrite (Hag b Hbl). apply Hsr, Hc. }
    destruct Hlt as [Hlt Hgb].
    simpl. rewrite guarded_self, Hgb.
    apply Nat.ltb_lt in Hlt. rewrite Hlt. simpl orb. cbv iota.
    destruct x; simpl in Hg.
    + destruct l0 as [|b1 p1 d1 l1 r1]; [rewrite get_NULL in Hg; discriminate|].
      apply IH; assumption.
    + destruct r0 as [|b1 p1 d1 l1 r1]; [rewrite get_NULL in Hg; discriminate|].
      apply IH; assumption.
Qed.

Lemma lookup_stored m t P np q d l r :
  wf_tree t -> nfam np = family P ->
  node_at t np = Node (bitlen P) (Some q) d l r ->
  agree (add P) (add q) (bitlen P) ->
  radix_lookup_m m t P = LOk t np.
Proof.
  intros Hwt Hf Hg Hag. destruct np as [fam path]. simpl in Hf. subst fam.
  unfold node_at in Hg. simpl in Hg.
  assert (Hwh : wf (family P) (RADIX_HEAD t (family P))) by (apply wf_tree_iff; exact Hwt).
  unfold radix_lookup_m.
  destruct (RADIX_HEAD t (family P)) as [|hb hp hd hl hr] eqn:Eh;
    [rewrite get_NULL in Hg; discriminate|].
  set (h := Node hb hp hd hl hr) in *.
  rewrite (descend_reaches P q d l r path h [] Hwh Hg Hag), Hg.
  destruct (locate h path []) as [n' ctx] eqn:El. simpl snd.
  pose proof El as El2. apply locate_zip in El2. simpl in El2.
  apply locate_get in El; [|rewrite Hg; discriminate]. destruct El as [En' Ep].
  rewrite Hg in En'. subst n'. simpl in Ep.
  rewrite Nat.ltb_irrefl. cbv zeta.
  pose proof (differ_bit_spec (add P) (add q) (bitlen P)) as Hd. cbv zeta in Hd.
  set (dd := if bitlen P <? differ_loop (add P) (add q) (bitlen P) 0 0 (bitlen P) then bitlen P
             else differ_loop (add P) (add q) (bitlen P) 0 0 (bitlen P)) in *.
  assert (Hdd : dd = bitlen P).
  { destruct Hd as (H1 & _ & H3). destruct (Nat.eq_dec dd (bitlen P)) as [E|E]; [exact E|].
    exfalso. apply H3; [lia|]. apply Hag. lia. }
  clearbody dd. subst dd.
  assert (Hwz : wf (family P) (zip (Node (bitlen P) (Some q) d l r) ctx)) by (rewrite El2; exact Hwh).
  pose proof (chain_lt _ _ _ Hwz ltac:(discriminate)) as Hch.
  assert (Hwu : walk_up (bitlen P) (Node (bitlen P) (Some q) d l r) ctx =
                (Node (bitlen P) (Some q) d l r, ctx)).
  { destruct ctx as [|f ctx']; [reflexivity|]. inversion Hch as [|f' c' Hlt _]; subst. simpl in Hlt.
    simpl. destruct (Nat.leb_spec (bitlen P) (fbit f)); [lia | reflexivity]. }
  rewrite Hwu, Nat.eqb_refl. simpl andb. cbv iota.
  rewrite El2, <- Eh, set_head_same, <- Ep. reflexivity.
Qed.

(** ** [radix_search_best2] *)
Lemma best_pop_some P : forall st e,
  best_pop P st = Some e -> In e st /\ best_cand P e = true.
Proof.
  induction st as [|[n ctx] st IH]; intros e H; simpl in H; [discriminate|].
  destruct n as [|b [q|] d l r].
  - apply IH in H. simpl; tauto.
  - destruct (_ && _) eqn:E.
    + inversion H; subst. split; [left; reflexivity | exact E].
    + apply IH in H. simpl; tauto.
  - apply IH in H. simpl; tauto.
Qed.

Lemma best_pop_none P : forall st,
  best_pop P st = None -> forall x, In x st -> best_cand P x = false.
Proof.
  induction st as [|[n ctx] st IH]; intros H x Hx; [destruct Hx|].
  destruct Hx as [<- | Hx].
  - simpl in H. unfold best_cand. simpl.
    destruct n as [|b [q|] d l r]; try reflexivity. destruct (_ && _); [discriminate | reflexivity].
  - apply IH; [|exact Hx]. simpl in H. destruct n as [|b [q|] d l r]; try exact H.
    destruct (_ && _); [discriminate | exact H].
Qed.

Lemma best_pop_max P : forall st e,
  best_pop P st = Some e -> StronglySorted deeper st ->
  forall x, In x st -> best_cand P x = true -> node_bit (fst x) <= node_bit (fst e).
Proof.
  induction st as [|[n ctx] st IH]; intros e H Hs x Hx Hc; [destruct Hx|].
  apply StronglySorted_inv in Hs. destruct Hs as [Hs Hall]. rewrite Forall_forall in Hall.
  assert (Hy : best_cand P (n, ctx) = true -> e = (n, ctx)).
  { intros Hb. unfold best_cand in Hb. simpl in Hb, H.
    destruct n as [|b [q|] d l r]; try discriminate. rewrite Hb in H. inversion H; reflexivity. }
  destruct (best_cand P (n, ctx)) eqn:Eb.
  - rewrite (Hy eq_refl). destruct Hx as [<- | Hx]; [lia|]. apply Hall in Hx. unfold deeper in Hx. lia.
  - assert (H' : best_pop P st = Some e).
    { unfold best_cand in Eb. simpl in Eb, H. destruct n as [|b [q|] d l r]; try exact H.
      rewrite Eb in H. exact H. }
    destruct Hx as [<- | Hx]; [congruence|]. exact (IH e H' Hs x Hx Hc).
Qed.

Lemma best_push_keep P incl : forall n ctx stack e,
  In e stack -> In e (best_push P incl n ctx stack).
Proof.
  induction n as [|b p d l IHl r IHr]; intros ctx stack e H; simpl; [exact H|].
  destruct (b <=? bitlen P); [|exact H].
  destruct (BIT_TEST_SEARCH_BIT (add P) b); [apply IHr | apply IHl];
    (destruct p as [q|]; [destruct (_ || _)|]); simpl; auto.
Qed.

Lemma best_push_in P incl : forall n ctx stack e,
  In e (best_push P incl n ctx stack) ->
  In e stack \/
  exists cd b q d l r, snd e = cd ++ ctx /\ zip (fst e) cd = n /\
    fst e = Node b (Some q) d l r /\ b <= bitlen P /\ (incl = true \/ b <> bitlen P).
Proof.
  induction n as [|b p d l IHl r IHr]; intros ctx stack e H; simpl in H; [left; exact H|].
  destruct (Nat.leb_spec b (bitlen P)) as [Hb|Hb]; [|left; exact H].
  set (stack' := match p with
                 | Some _ => if incl || negb (b =? bitlen P) then (Node b p d l r, ctx) :: stack else stack
                 | None => stack end) in H.
  assert (Hs : forall e, In e stack' -> In e stack \/
    exists cd b' q d' l' r', snd e = cd ++ ctx /\ zip (fst e) cd = Node b p d l r /\
      fst e = Node b' (Some q) d' l' r' /\ b' <= bitlen P /\ (incl = true \/ b' <> bitlen P)).
  { intros e' He'. unfold stack' in He'. destruct p as [q|]; [|left; exact He'].
    destruct (incl || negb (b =? bitlen P)) eqn:Ei; [|left; exact He'].
    destruct He' as [<- | He']; [|left; exact He'].
    right. exists [], b, q, d, l, r. repeat split; auto.
    destruct incl; [left; reflexivity | right]. simpl in Ei. apply negb_true_iff, Nat.eqb_neq in Ei. exact Ei. }
  destruct (BIT_TEST_SEARCH_BIT (add P) b); [apply IHr in H | apply IHl in H];
    (destruct H as [H | (cd & b' & q & d' & l' & r' & H1 & H2 & H3 & H4 & H5)]; [apply Hs, H|]);
    right; [exists (cd ++ [Frame b p d DR l]) | exists (cd ++ [Frame b p d DL r])];
    exists b', q, d', l', r';
    (split; [rewrite H1, <- app_assoc; reflexivity|]);
    (split; [rewrite zip_app, H2; reflexivity|]); auto.
Qed.

Lemma best_push_sorted fam P incl : forall n ctx stack,
  wf fam n -> StronglySorted deeper stack ->
  (forall x, In x stack -> child_gt (node_bit (fst x)) n) ->
  StronglySorted deeper (best_push P incl n ctx stack).
Proof.
  induction n as [|b p d l IHl r IHr]; intros ctx stack Hw Hs Hlt; simpl; [exact Hs|].
  destruct (b <=? bitlen P); [|exact Hs].
  apply wf_node_inv in Hw. destruct Hw as (_ & Hgl & Hgr & _ & _ & _ & Hwl & Hwr).
  simpl in Hlt.
  set (stack' := match p with
                 | Some _ => if incl || negb (b =? bitlen P) then (Node b p d l r, ctx) :: stack else stack
                 | None => stack end).
  assert (Hs' : StronglySorted deeper stack' /\ forall x, In x stack' -> node_bit (fst x) <= b).
  { unfold stack'. destruct p; [destruct (_ || _)|].
    - split.
      + constructor; [exact Hs|]. apply Forall_forall. intros x Hx. apply Hlt, Hx.
      + intros x [<- | Hx]; [simpl; lia|]. apply Hlt in Hx. lia.
    - split; [exact Hs|]. intros x Hx. apply Hlt in Hx. lia.
    - split; [exact Hs|]. intros x Hx. apply Hlt in Hx. lia. }
  destruct Hs' as [Hs' Hle].
  destruct (BIT_TEST_SEARCH_BIT (add P) b); [apply IHr | apply IHl]; auto;
    intros x Hx; apply Hle in Hx; [destruct r | destruct l]; simpl in *; auto; lia.
Qed.

Lemma best_push_complete fam P incl q : forall n ctx stack,
  wf fam n -> InR q n -> bitlen q <= bitlen P -> agree (add q) (add P) (bitlen q) ->
  (incl = true \/ bitlen q <> bitlen P) ->
  exists e d l r, In e (best_push P incl n ctx stack) /\ fst e = Node (bitlen q) (Some q) d l r.
Proof.
  induction n as [|b p d l IHl r IHr]; intros ctx stack Hw Hq Hle Hag Hi; [destruct Hq|].
  pose proof Hw as Hw2. apply wf_node_inv in Hw2.
  destruct Hw2 as (_ & Hgl & Hgr & Hsl & Hsr & _ & Hwl & Hwr).
  simpl. destruct Hq as [Hq | [Hq | Hq]].
  - subst p. assert (Hb : b = bitlen q) by (simpl in Hw; destruct Hw as ([_ E] & _); lia). subst b.
    apply Nat.leb_le in Hle. rewrite Hle. cbv zeta.
    assert (Hpush : incl || negb (bitlen q =? bitlen P) = true).
    { destruct Hi as [-> | Hne]; [reflexivity|]. apply Nat.eqb_neq in Hne. rewrite Hne, orb_true_r. reflexivity. }
    rewrite Hpush. exists (Node (bitlen q) (Some q) d l r, ctx), d, l, r. split; [|reflexivity].
    destruct (BIT_TEST_SEARCH_BIT (add P) (bitlen q)); apply best_push_keep; left; reflexivity.
  - pose proof (child_lt_bit _ _ _ _ Hwl Hq Hgl) as Hbq.
    assert (Hb : (b <=? bitlen P) = true) by (apply Nat.leb_le; lia). rewrite Hb. cbv zeta.
    rewrite <- (Hag b Hbq), (Hsl q Hq). apply IHl; assumption.
  - pose proof (child_lt_bit _ _ _ _ Hwr Hq Hgr) as Hbq.
    assert (Hb : (b <=? bitlen P) = true) by (apply Nat.leb_le; lia). rewrite Hb. cbv zeta.
    rewrite <- (Hag b Hbq), (Hsr q Hq). apply IHr; assumption.
Qed.

Lemma stored_in_head t q fam :
  wf_tree t -> stored t q -> family q = fam -> InR q (RADIX_HEAD t fam).
Proof.
  intros Hw [np Hnp] Hf. unfold node_at in Hnp. apply InR_get in Hnp.
  pose proof (wf_InR _ _ _ (proj1 (wf_tree_iff t) Hw (nfam np)) Hnp) as [Hf' _].
  rewrite <- Hf, Hf'. exact Hnp.
Qed.

Lemma best_cand_node P q d l r ctx :
  best_cand P (Node (bitlen q) (Some q) d l r, ctx) = true <->
  agree (add q) (add P) (bitlen q) /\ bitlen q <= bitlen P.
Proof.
  unfold best_cand. simpl. rewrite andb_true_iff, comp_with_mask_spec, Nat.leb_le. reflexivity.
Qed.

(** ** The iterator *)
Lemma iter_again_spec self : forall fuel it,
  iter_ok it -> iter_measure self it < fuel ->
  match iter_again fuel self it with
  | (IterNext o, it') => pending self it = o :: pending self it' /\ iter_ok it' /\
                         it_gen_id it' = it_gen_id it
  | (IterStop, _) => pending self it = []
  | (IterError, _) => False
  end.
Proof.
  induction fuel as [|fuel IH]; intros [st n a g] [Hnul Hst] Hm; [unfold iter_measure in Hm; lia|].
  simpl in Hnul, Hst. cbn [iter_again rn af iterstack it_gen_id].
  destruct n as [|b p d l r].
  - rewrite (Hnul eq_refl) in *. destruct a.
    + specialize (IH (mk_iter [] (head_ipv6 (rt self)) AF_INET6 g)).
      unfold iter_measure in Hm, IH. simpl in Hm, IH.
      destruct (iter_again fuel self _) as [[o| |] it'];
        specialize (IH ltac:(split; [reflexivity | constructor]) ltac:(lia));
        try exact IH; unfold pending in IH |- *; simpl in IH |- *; rewrite app_nil_r in IH; exact IH.
    + reflexivity.
  - cbn [iterstack af it_gen_id].
    set (it' := match l, r with
          | Node _ _ _ _ _, Node _ _ _ _ _ => mk_iter (r :: st) l a g
          | Node _ _ _ _ _, NULL => mk_iter st l a g
          | NULL, Node _ _ _ _ _ => mk_iter st r a g
          | NULL, NULL => match st with s :: st' => mk_iter st' s a g | [] => mk_iter [] NULL a g end
          end).
    assert (Hit' : pending self it' = preorder_objs l ++ preorder_objs r ++ flat_map preorder_objs st ++
                     match a with AF_INET => preorder_objs (head_ipv6 (rt self)) | AF_INET6 => [] end /\
                   iter_ok it' /\ it_gen_id it' = g /\
                   S (iter_measure self it') = iter_measure self (mk_iter st (Node b p d l r) a g)).
    { unfold it', pending, iter_ok, iter_measure. simpl.
      destruct l as [|bl pl dl ll rl], r as [|br pr dr lr rr]; simpl.
      - destruct st as [|s st']; simpl.
        + repeat split; auto; try lia.
        + inversion Hst as [|x y Hs Hst']; subst. repeat split; auto; try lia;
            [rewrite app_assoc; reflexivity | intros E; contradiction].
      - repeat split; auto; try discriminate; lia.
      - repeat split; auto; try discriminate; lia.
      - rewrite !app_assoc. repeat split; auto; try discriminate; try lia.
        constructor; [discriminate | exact Hst]. }
    destruct Hit' as (Hp & Hok & Hg & Hmeas).
    assert (Hpend : pending self (mk_iter st (Node b p d l r) a g) =
                    match p, d with Some _, Some o => [o] | _, _ => [] end ++ pending self it').
    { rewrite Hp. unfold pending. simpl. rewrite !app_assoc. reflexivity. }
    pose proof (IH it' Hok ltac:(lia)) as IH'. clear IH.
    destruct p as [q|], d as [o|]; simpl in Hpend;
      try (split; [exact Hpend | split; [exact Hok | exact Hg]]).
    all: revert IH'; destruct (iter_again fuel self it') as [[o'| |] it'']; intros IH;
      [destruct IH as (IH1 & IH2 & IH3); rewrite Hpend, IH1; auto; split; [reflexivity | split; [exact IH2 | congruence]]
      | rewrite Hpend; exact IH | exact IH].
Qed.

Lemma iter_again_no_error self : forall fuel it, fst (iter_again fuel self it) <> IterError.
Proof.
  induction fuel as [|fuel IH]; intros [st n a g]; simpl; [discriminate|].
  destruct n as [|b p d l r].
  - destruct a; [apply IH | discriminate].
  - destruct p, d; try discriminate; apply IH.
Qed.

Lemma gen_incr_neq g : gen_incr g <> g.
Proof.
  unfold gen_incr. intros E.
  pose proof (Z.div_mod (g + 1) (2 ^ 32) ltac:(lia)) as H.
  pose proof (Z.mod_pos_bound (g + 1) (2 ^ 32) ltac:(lia)) as Hb.
  rewrite E in H. lia.
Qed.

Lemma add_ok_gen m o self P self' v :
  Radix_add m o self P = PyOk self' v -> gen_id self' = gen_incr (gen_id self).
Proof.
  unfold Radix_add, create_add_node.
  destruct (radix_lookup_m m (rt self) P) as [t' np| |]; try discriminate.
  destruct (node_at t' np) as [|b p [d|] l r]; [discriminate | |];
    [|destruct o]; intros H; inversion H; reflexivity.
Qed.

(** ** [radix_search_covering] and [radix_search_covered] *)

Section CoveredLoop.
Variable func : rdx_search_cb_t.
Hypothesis func_zero : forall x, func x = 0%Z.
Variables (fam : addr_family) (P : prefix_t) (incl : bool).

Lemma covered_loop_subtree : forall n ctx rest calls k,
  n <> NULL ->
  (rest <> [] \/ (if incl then bitlen P <=? node_bit n else bitlen P <? node_bit n) = true) ->
  covered_loop (3 * count_nodes n + k) func fam P incl (CFrame n ctx RADIX_STATE_LEFT true :: rest) calls =
  covered_loop k func fam P incl rest (calls ++ subtree_calls fam n ctx).
Proof.
  induction n as [|b p d l IHl r IHr]; intros ctx rest calls k Hn Hself; [contradiction Hn; reflexivity|].
  replace (3 * count_nodes (Node b p d l r) + k)
    with (S (3 * count_nodes l + S (3 * count_nodes r + S k))) by (simpl; lia).
  set (me := Node b p d l r).
  (* the left child *)
  assert (HL : covered_loop (S (3 * count_nodes l + S (3 * count_nodes r + S k))) func fam P incl
                 (CFrame me ctx RADIX_STATE_LEFT true :: rest) calls =
               covered_loop (S (3 * count_nodes r + S k)) func fam P incl
                 (CFrame me ctx RADIX_STATE_RIGHT true :: rest)
                 (calls ++ subtree_calls fam l (Frame b p d DL r :: ctx))).
  { destruct l as [|bl pl dl ll rl].
    - simpl. rewrite app_nil_r. reflexivity.
    - cbn [covered_loop cst cnode cctx checked me]. simpl andb. cbv iota.
      rewrite IHl; [reflexivity | discriminate | left; discriminate]. }
  assert (HR : covered_loop (S (3 * count_nodes r + S k)) func fam P incl
                 (CFrame me ctx RADIX_STATE_RIGHT true :: rest)
                 (calls ++ subtree_calls fam l (Frame b p d DL r :: ctx)) =
               covered_loop (S k) func fam P incl
                 (CFrame me ctx RADIX_STATE_SELF true :: rest)
                 (calls ++ subtree_calls fam l (Frame b p d DL r :: ctx) ++
                  subtree_calls fam r (Frame b p d DR l :: ctx))).
  { destruct r as [|br pr dr lr rr].
    - simpl. rewrite app_nil_r. reflexivity.
    - cbn [covered_loop cst cnode cctx checked me]. simpl andb. cbv iota.
      rewrite IHr; [rewrite app_assoc; reflexivity | discriminate | left; discriminate]. }
  rewrite HL, HR. clear HL HR.
  cbn [covered_loop cst cnode cctx].
  assert (Hc : negb match rest with [] => true | _ => false end ||
               (if incl then bitlen P <=? node_bit me else bitlen P <? node_bit me) = true).
  { destruct Hself as [Hr | Hb]; [destruct rest; [contradiction Hr; reflexivity | reflexivity]|].
    unfold me; rewrite Hb, orb_true_r. reflexivity. }
  rewrite Hc. unfold me at 1. simpl node_prefix. simpl subtree_calls.
  destruct p as [q|].
  - rewrite func_zero. simpl. rewrite !app_assoc. reflexivity.
  - rewrite !app_assoc, app_nil_r. reflexivity.
Qed.

End CoveredLoop.

Lemma subtree_calls_paths fam : forall n ctx x,
  In x (subtree_calls fam n ctx) -> exists s, x = mk_nodeptr fam (path_of ctx ++ s).
Proof.
  induction n as [|b p d l IHl r IHr]; intros ctx x H; simpl in H; [contradiction|].
  apply in_app_or in H. destruct H as [H | H]; [|apply in_app_or in H; destruct H as [H | H]].
  - destruct (IHl _ _ H) as [s E]. exists (DL :: s). rewrite E, path_of_cons. simpl.
    rewrite <- app_assoc. reflexivity.
  - destruct (IHr _ _ H) as [s E]. exists (DR :: s). rewrite E, path_of_cons. simpl.
    rewrite <- app_assoc. reflexivity.
  - destruct p; [|contradiction]. destruct H as [H | []]. exists []. rewrite app_nil_r. auto.
Qed.

Lemma count_subtree_none fam n ctx y :
  (forall s, y <> mk_nodeptr fam (path_of ctx ++ s)) ->
  count_occ nodeptr_eq_dec (subtree_calls fam n ctx) y = 0.
Proof.
  intros H. apply count_occ_not_In. intros Hin.
  destruct (subtree_calls_paths fam n ctx y Hin) as [s E]. exact (H s E).
Qed.

Lemma mk_nodeptr_app_inj fam c s s' :
  mk_nodeptr fam (c ++ s) = mk_nodeptr fam (c ++ s') -> s = s'.
Proof. intros E. injection E as E. exact (app_inv_head _ _ _ E). Qed.

Lemma subtree_calls_count fam : forall n ctx s,
  count_occ nodeptr_eq_dec (subtree_calls fam n ctx) (mk_nodeptr fam (path_of ctx ++ s)) =
  match node_prefix (get n s) with Some _ => 1 | None => 0 end.
Proof.
  induction n as [|b p d l IHl r IHr]; intros ctx s.
  - rewrite get_NULL. reflexivity.
  - simpl subtree_calls. rewrite !count_occ_app.
    assert (Hl : forall c, path_of (Frame b p d DL r :: ctx) ++ c = path_of ctx ++ DL :: c)
      by (intros c; rewrite path_of_cons, <- app_assoc; reflexivity).
    assert (Hr : forall c, path_of (Frame b p d DR l :: ctx) ++ c = path_of ctx ++ DR :: c)
      by (intros c; rewrite path_of_cons, <- app_assoc; reflexivity).
    assert (Hself : count_occ nodeptr_eq_dec
              match p with Some _ => [mk_nodeptr fam (path_of ctx)] | None => [] end
              (mk_nodeptr fam (path_of ctx ++ s)) =
              match s with [] => match p with Some _ => 1 | None => 0 end | _ => 0 end).
    { destruct p as [q|]; [|destruct s; reflexivity].
      destruct s as [|y s].
      - rewrite app_nil_r, count_occ_cons_eq by reflexivity. reflexivity.
      - rewrite count_occ_cons_neq; [reflexivity|]. intros E.
        rewrite <- (app_nil_r (path_of ctx)) in E at 1. apply mk_nodeptr_app_inj in E. discriminate. }
    rewrite Hself. clear Hself.
    destruct s as [|x s'].
    + rewrite !count_subtree_none; [reflexivity| |];
        intros c E; [rewrite Hr in E | rewrite Hl in E]; apply mk_nodeptr_app_inj in E; discriminate.
    + destruct x.
      * rewrite <- Hl, IHl, (count_subtree_none fam r); [simpl; lia|].
        intros c E. rewrite Hl, Hr in E. apply mk_nodeptr_app_inj in E. discriminate.
      * rewrite <- Hr, IHr, (count_subtree_none fam l); [simpl; lia|].
        intros c E. rewrite Hl, Hr in E. apply mk_nodeptr_app_inj in E. discriminate.
Qed.

Lemma covering_walk_calls func (func_zero : forall x, func x = 0%Z) fam : forall ctx n rc calls,
  snd (covering_walk func fam rc n ctx calls) = calls ++ ancestor_calls fam n ctx.
Proof.
  induction ctx as [|f ctx IH]; intros n rc calls; simpl covering_walk; simpl ancestor_calls;
    destruct (node_prefix n); rewrite ?func_zero; simpl; rewrite ?app_nil_r; try reflexivity.
  - rewrite IH, <- app_assoc. reflexivity.
  - rewrite IH. reflexivity.
Qed.

Lemma ancestor_calls_paths fam : forall ctx n x,
  In x (ancestor_calls fam n ctx) -> exists pi s, x = mk_nodeptr fam pi /\ path_of ctx = pi ++ s.
Proof.
  induction ctx as [|f ctx IH]; intros n x H; simpl in H; apply in_app_or in H.
  - destruct H as [H | []]. destruct (node_prefix n); [|contradiction].
    destruct H as [H | []]. exists (path_of []), []. rewrite app_nil_r. auto.
  - destruct H as [H | H].
    + destruct (node_prefix n); [|contradiction].
      destruct H as [H | []]. exists (path_of (f :: ctx)), []. rewrite app_nil_r. auto.
    + destruct (IH _ _ H) as (pi & s & E1 & E2). exists pi, (s ++ [fdir f]).
      rewrite path_of_cons, E2, app_assoc. auto.
Qed.

Lemma subtree_calls_prefixed fam : forall n ctx x,
  In x (subtree_calls fam n ctx) ->
  exists s, x = mk_nodeptr fam (path_of ctx ++ s) /\ node_prefix (get n s) <> None.
Proof.
  induction n as [|b p d l IHl r IHr]; intros ctx x H; simpl in H; [contradiction|].
  apply in_app_or in H. destruct H as [H | H]; [|apply in_app_or in H; destruct H as [H | H]].
  - destruct (IHl _ _ H) as (s & E & Hs). exists (DL :: s). rewrite E, path_of_cons, <- app_assoc.
    split; [reflexivity | exact Hs].
  - destruct (IHr _ _ H) as (s & E & Hs). exists (DR :: s). rewrite E, path_of_cons, <- app_assoc.
    split; [reflexivity | exact Hs].
  - destruct p; [|contradiction]. destruct H as [H | []]. exists []. rewrite app_nil_r, get_nil.
    split; [symmetry; exact H | discriminate].
Qed.

Lemma ancestor_calls_prefixed fam : forall ctx n x,
  In x (ancestor_calls fam n ctx) ->
  nfam x = fam /\ node_prefix (get (zip n ctx) (npath x)) <> None.
Proof.
  induction ctx as [|f ctx IH]; intros n x H; simpl in H; apply in_app_or in H.
  - destruct H as [H | []]. destruct (node_prefix n) eqn:E; [|contradiction].
    destruct H as [<- | []]. cbn [nfam npath]. rewrite get_zip, E. split; [reflexivity | discriminate].
  - destruct H as [H | H].
    + destruct (node_prefix n) eqn:E; [|contradiction].
      destruct H as [<- | []]. cbn [nfam npath]. rewrite get_zip, E. split; [reflexivity | discriminate].
    + exact (IH _ _ H).
Qed.

Lemma ancestor_calls_count fam : forall ctx n pi s,
  path_of ctx = pi ++ s ->
  count_occ nodeptr_eq_dec (ancestor_calls fam n ctx) (mk_nodeptr fam pi) =
  match node_prefix (get (zip n ctx) pi) with Some _ => 1 | None => 0 end.
Proof.
  induction ctx as [|f ctx IH]; intros n pi s E.
  - simpl in E. symmetry in E. apply app_eq_nil in E. destruct E as [-> ->].
    simpl zip. rewrite get_nil. simpl ancestor_calls. rewrite app_nil_r.
    destruct (node_prefix n); [|reflexivity].
    rewrite count_occ_cons_eq by reflexivity. reflexivity.
  - assert (Hfar : forall pi', length pi' < length (path_of (f :: ctx)) ->
              count_occ nodeptr_eq_dec
                match node_prefix n with Some _ => [mk_nodeptr fam (path_of (f :: ctx))] | None => [] end
                (mk_nodeptr fam pi') = 0).
    { intros pi' Hl. destruct (node_prefix n); [|reflexivity].
      rewrite count_occ_cons_neq; [reflexivity|]. intros E'. injection E' as E'.
      rewrite E' in Hl. lia. }
    destruct (rev s) as [|y rs] eqn:Es.
    + assert (s = []) by (rewrite <- (rev_involutive s), Es; reflexivity). subst s.
      rewrite app_nil_r in E. subst pi.
      simpl ancestor_calls. rewrite count_occ_app.
      rewrite (proj1 (count_occ_not_In nodeptr_eq_dec (ancestor_calls fam (plug f n) ctx) _)).
      * rewrite get_zip. destruct (node_prefix n); [|reflexivity].
        rewrite count_occ_cons_eq by reflexivity. reflexivity.
      * intros Hin. destruct (ancestor_calls_paths fam ctx (plug f n) _ Hin) as (pi & s & E1 & E2).
        injection E1 as E1. apply (f_equal (@length dir)) in E1, E2.
        rewrite path_of_cons, length_app in E1. rewrite length_app in E2. simpl in E1. lia.
    + assert (Hs : s = rev rs ++ [y]) by (rewrite <- (rev_involutive s), Es; reflexivity).
      rewrite Hs, app_assoc, path_of_cons in E. apply app_inj_tail in E. destruct E as [E _].
      simpl ancestor_calls. rewrite count_occ_app, Hfar.
      * simpl zip. apply (IH _ _ _ E).
      * rewrite path_of_cons, length_app, E, length_app. simpl. lia.
Qed.

Lemma in_subtree fam : forall pQ n pP P Q,
  wf fam n -> node_prefix (get n pP) = Some P -> node_prefix (get n pQ) = Some Q ->
  bitlen Q <= bitlen P -> agree (add Q) (add P) (bitlen Q) ->
  exists s, pP = pQ ++ s.
Proof.
  induction pQ as [|x pQ IH]; intros n pP P Q Hw HP HQ Hle Hag; [exists pP; reflexivity|].
  destruct n as [|b p d l r]; [rewrite get_NULL in HQ; discriminate|].
  pose proof Hw as Hw2. apply wf_node_inv in Hw2.
  destruct Hw2 as (_ & Hgl & Hgr & Hsl & Hsr & _ & Hwl & Hwr).
  assert (Hbit : b < bitlen Q /\ forall (c : bool), (forall q, InR q match x with DL => l | DR => r end ->
            BIT_TEST_SEARCH_BIT (add q) b = c) -> BIT_TEST_SEARCH_BIT (add P) b = c).
  { assert (HQin : InR Q match x with DL => l | DR => r end)
      by (destruct x; apply (InR_get _ pQ); exact HQ).
    assert (Hb : b < bitlen Q) by (destruct x; [exact (child_lt_bit _ _ _ _ Hwl HQin Hgl) | exact (child_lt_bit _ _ _ _ Hwr HQin Hgr)]).
    split; [exact Hb|]. intros c Hc. rewrite <- (Hag b Hb). apply Hc, HQin. }
  destruct Hbit as [Hb Hside].
  destruct pP as [|y pP].
  - rewrite get_nil in HP. simpl in HP. subst p. simpl in Hw. lia.
  - destruct x, y; simpl in HP, HQ.
    + destruct (IH l pP P Q Hwl HP HQ Hle Hag) as [s ->]. exists s. reflexivity.
    + apply InR_get in HP. rewrite (Hsr P HP) in Hside. discriminate (Hside false Hsl).
    + apply InR_get in HP. rewrite (Hsl P HP) in Hside. discriminate (Hside true Hsr).
    + destruct (IH r pP P Q Hwr HP HQ Hle Hag) as [s ->]. exists s. reflexivity.
Qed.

Lemma covered_descend_reaches Q q d l r : forall path n ctx prev pfx,
  wf (family Q) n ->
  get n path = Node (bitlen Q) (Some q) d l r ->
  agree (add Q) (add q) (bitlen Q) ->
  exists prev' pfx', covered_descend Q n ctx prev pfx = ((get n path, snd (locate n path ctx)), prev', pfx').
Proof.
  induction path as [|x path IH]; intros n ctx prev pfx Hw Hg Hag.
  - rewrite get_nil in Hg |- *. subst n. simpl. rewrite Nat.leb_refl, Nat.eqb_refl. eauto.
  - destruct n as [|b p dd l0 r0]; [rewrite get_NULL in Hg; discriminate|].
    pose proof Hw as Hw2. apply wf_node_inv in Hw2.
    destruct Hw2 as (_ & Hgl & Hgr & Hsl & Hsr & _ & Hwl & Hwr).
    assert (Hbq : bitlen q = bitlen Q).
    { pose proof (wf_get _ _ (x :: path) Hw) as Hwg. rewrite Hg in Hwg. simpl in Hwg. tauto. }
    assert (Hlt : b < bitlen Q /\ BIT_TEST_SEARCH_BIT (add Q) b = match x with DL => false | DR => true end).
    { destruct x; simpl in Hg.
      - assert (Hc : InR q l0) by (apply (InR_get _ path); rewrite Hg; reflexivity).
        assert (Hbl : b < bitlen Q) by (rewrite <- Hbq; apply (child_lt_bit _ _ _ _ Hwl Hc Hgl)).
        split; [exact Hbl|]. rewrite (Hag b Hbl). apply Hsl, Hc.
      - assert (Hc : InR q r0) by (apply (InR_get _ path); rewrite Hg; reflexivity).
        assert (Hbl : b < bitlen Q) by (rewrite <- Hbq; apply (child_lt_bit _ _ _ _ Hwr Hc Hgr)).
        split; [exact Hbl|]. rewrite (Hag b Hbl). apply Hsr, Hc. }
    destruct Hlt as [Hlt Hgb].
    simpl covered_descend. rewrite Hgb.
    rewrite (proj2 (Nat.leb_le b (bitlen Q))) by lia.
    rewrite (proj2 (Nat.eqb_neq b (bitlen Q))) by lia.
    destruct x; simpl in Hg |- *; apply IH; assumption.
Qed.

Lemma path_eqb_refl p : path_eqb p p = true.
Proof. induction p as [|x p IH]; [reflexivity|]. destruct x; exact IH. Qed.

Lemma search_best_at_stored t P path :
  wf_tree t -> node_prefix (get (RADIX_HEAD t (family P)) path) = Some P ->
  exists ctx, search_best2_z t P true = Some (get (RADIX_HEAD t (family P)) path, ctx) /\
              path_of ctx = path /\ zip (get (RADIX_HEAD t (family P)) path) ctx = RADIX_HEAD t (family P).
Proof.
  intros Hw HP.
  assert (Hwh : wf (family P) (RADIX_HEAD t (family P))) by (apply wf_tree_iff; exact Hw).
  pose proof (InR_get _ _ _ HP) as Hin.
  destruct (best_push_complete (family P) P true P _ [] [] Hwh Hin (le_n _) (agree_refl _ _))
    as (e & d & l & r & He & Hfe); [left; reflexivity|].
  assert (Hce : best_cand P e = true)
    by (destruct e as [n c]; simpl in Hfe; subst n; apply best_cand_node; split; [apply agree_refl | lia]).
  unfold search_best2_z.
  destruct (RADIX_HEAD t (family P)) as [|hb hp hd hl hr] eqn:Eh; [simpl in He; contradiction|].
  set (h := Node hb hp hd hl hr) in *.
  destruct (best_pop P (best_push P true h [] [])) as [[n ctx]|] eqn:Ep;
    [|rewrite (best_pop_none _ _ Ep e He) in Hce; discriminate].
  pose proof (best_pop_some _ _ _ Ep) as [Hin' Hc].
  destruct (best_push_in P true h [] [] _ Hin') as [[] | (cd & b & q & d' & l' & r' & H1 & H2 & H3 & H4 & H5)].
  simpl in H1, H2, H3. rewrite app_nil_r in H1. subst cd n.
  assert (Hwn : wf (family P) (Node b (Some q) d' l' r')) by (eapply wf_zip_inv; rewrite H2; exact Hwh).
  assert (Hbq : bitlen q = b) by (simpl in Hwn; tauto). subst b.
  apply best_cand_node in Hc. destruct Hc as [Hag Hle].
  assert (Hsort : StronglySorted deeper (best_push P true h [] [])).
  { apply (best_push_sorted (family P)); [exact Hwh | constructor | intros x []]. }
  pose proof (best_pop_max P _ _ Ep Hsort e He Hce) as Hm.
  rewrite Hfe in Hm. simpl in Hm.
  assert (Hg : get h (path_of ctx) = Node (bitlen q) (Some q) d' l' r') by (rewrite <- H2, get_zip; reflexivity).
  assert (Hq : node_prefix (get h (path_of ctx)) = Some q) by (rewrite Hg; reflexivity).
  destruct (in_subtree _ (path_of ctx) h path P q Hwh HP Hq Hle Hag) as [s1 E1].
  destruct (in_subtree _ path h (path_of ctx) q P Hwh Hq HP Hm
              (agree_le (add P) (add q) (bitlen q) (bitlen P) ltac:(lia) (agree_sym _ _ _ Hag))) as [s2 E2].
  assert (Hs : s1 = []).
  { apply (f_equal (@length dir)) in E1, E2. rewrite length_app in E1, E2. destruct s1; [reflexivity|].
    simpl in E1. lia. }
  subst s1. rewrite app_nil_r in E1. subst path.
  exists ctx. rewrite Hg. auto.
Qed.

(* ------------------------------------------------------------------ *)
(** ** [radix_search_exact], [Radix.add] and the best/worst stacks *)

Lemma search_foreach_stop P : forall n ctx n' ctx',
  search_foreach P n ctx = (n', ctx') -> n' = NULL \/ bitlen P <= node_bit n'.
Proof.
  induction n as [|b p d l IHl r IHr]; intros ctx n' ctx' H; simpl in H.
  - inversion H; auto.
  - destruct (b <? bitlen P) eqn:E.
    + destruct (BIT_TEST_SEARCH_BIT (add P) b); eauto.
    + inversion H; subst. right. simpl. apply Nat.ltb_ge in E. exact E.
Qed.

Lemma search_foreach_reaches P q d l r : forall path n ctx,
  wf (family P) n ->
  get n path = Node (bitlen P) (Some q) d l r ->
  agree (add P) (add q) (bitlen P) ->
  search_foreach P n ctx = (get n path, snd (locate n path ctx)).
Proof.
  induction path as [|x path IH]; intros n ctx Hw Hg Hag.
  - rewrite get_nil in Hg |- *. subst n. simpl. rewrite Nat.ltb_irrefl. reflexivity.
  - destruct n as [|b p dd l0 r0]; [rewrite get_NULL in Hg; discriminate|].
    pose proof Hw as Hw2. apply wf_node_inv in Hw2.
    destruct Hw2 as (_ & Hgl & Hgr & Hsl & Hsr & _ & Hwl & Hwr).
    assert (Hbq : bitlen q = bitlen P).
    { pose proof (wf_get _ _ (x :: path) Hw) as Hwg. rewrite Hg in Hwg. simpl in Hwg. tauto. }
    assert (Hlt : b < bitlen P /\ BIT_TEST_SEARCH_BIT (add P) b = match x with DL => false | DR => true end).
    { destruct x; simpl in Hg.
      - assert (Hc : InR q l0) by (apply (InR_get _ path); rewrite Hg; reflexivity).
        assert (Hbl : b < bitlen P) by (rewrite <- Hbq; apply (child_lt_bit _ _ _ _ Hwl Hc Hgl)).
        split; [exact Hbl|]. rewrite (Hag b Hbl). apply Hsl, Hc.
      - assert (Hc : InR q r0) by (apply (InR_get _ path); rewrite Hg; reflexivity).
        assert (Hbl : b < bitlen P) by (rewrite <- Hbq; apply (child_lt_bit _ _ _ _ Hwr Hc Hgr)).
        split; [exact Hbl|]. rewrite (Hag b Hbl). apply Hsr, Hc. }
    destruct Hlt as [Hlt Hgb].
    simpl search_foreach. rewrite Hgb. apply Nat.ltb_lt in Hlt. rewrite Hlt.
    destruct x; simpl in Hg |- *; apply IH; assumption.
Qed.

(** The node of [P]: a node of the [P] head at bit [bitlen P] whose prefix
    agrees with [P] on its [bitlen P] bits. *)
Lemma search_exact_iff t P np :
  wf_tree t -> (radix_search_exact t P = Some np <-> holds t np P).
Proof.
  intros Hw.
  assert (Hwh : wf (family P) (RADIX_HEAD t (family P))) by (apply wf_tree_iff; exact Hw).
  unfold radix_search_exact, holds, node_at. split.
  - destruct (RADIX_HEAD t (family P)) as [|hb hp hd hl hr] eqn:Eh; [discriminate|].
    set (h := Node hb hp hd hl hr) in *.
    destruct (search_foreach P h []) as [n ctx] eqn:Es.
    pose proof (search_foreach_stop _ _ _ _ _ Es) as Hst.
    apply search_foreach_zip in Es. simpl in Es.
    destruct n as [|b p d l r]; [discriminate|].
    destruct (bitlen P <? b) eqn:Eb; [discriminate|].
    destruct p as [q|]; [|discriminate].
    destruct (comp_with_mask (add q) (add P) (bitlen P)) eqn:Ec; [|discriminate].
    intros E. injection E as <-. simpl. split; [reflexivity|].
    apply Nat.ltb_ge in Eb. destruct Hst as [Hst | Hst]; [discriminate|]. simpl in Hst.
    assert (b = bitlen P) by lia. subst b.
    exists q, d, l, r. rewrite Eh. fold h. rewrite <- Es, get_zip. split; [reflexivity|].
    apply comp_with_mask_spec, Ec.
  - intros [Hf (q & d & l & r & Hg & Hag)]. destruct np as [fam path]. simpl in Hf, Hg. subst fam.
    destruct (RADIX_HEAD t (family P)) as [|hb hp hd hl hr] eqn:Eh; [rewrite get_NULL in Hg; discriminate|].
    set (h := Node hb hp hd hl hr) in *.
    rewrite (search_foreach_reaches P q d l r path h [] Hwh Hg (agree_sym _ _ _ Hag)).
    destruct (locate h path []) as [n' ctx] eqn:El.
    apply locate_get in El; [|rewrite Hg; discriminate]. destruct El as [En' Ep]. simpl in Ep.
    subst n'. rewrite Hg. simpl snd. rewrite Nat.ltb_irrefl.
    rewrite (proj2 (comp_with_mask_spec _ _ _) Hag), Ep. reflexivity.
Qed.

Lemma get_set_data : forall path n v,
  get (set_data_at n path v) path =
  match get n path with NULL => NULL | Node b p _ l r => Node b p v l r end.
Proof.
  induction path as [|x path IH]; intros n v.
  - destruct n; reflexivity.
  - destruct n as [|b p d l r]; [destruct x; reflexivity|]. destruct x; simpl; apply IH.
Qed.

Lemma node_at_set_data t np v :
  node_at (set_node_data t np v) np =
  match node_at t np with NULL => NULL | Node b p _ l r => Node b p v l r end.
Proof. unfold node_at, set_node_data. rewrite RADIX_HEAD_set. apply get_set_data. Qed.

Lemma wf_tree_set_data t np v : wf_tree t -> wf_tree (set_node_data t np v).
Proof.
  intros Hw. unfold set_node_data. apply wf_tree_set; [exact Hw|].
  apply wf_set_data, wf_tree_iff, Hw.
Qed.

Lemma add_ok_holds m o self P self' v :
  wf_tree (rt self) -> valid_prefix P -> Radix_add m o self P = PyOk self' v ->
  wf_tree (rt self') /\ exists np, holds (rt self') np P /\ node_data (node_at (rt self') np) = Some v.
Proof.
  intros Hw Hv. unfold Radix_add, create_add_node.
  pose proof (lookup_wf m (rt self) P Hw Hv) as Hl.
  destruct (radix_lookup_m m (rt self) P) as [t' np | t' | f]; try discriminate; try contradiction.
  destruct Hl as (Hw' & _ & Hf & q & d & l & r & Hg & Hag). rewrite Hg.
  destruct d as [o'|].
  - intros E. injection E as <- <-. simpl. split; [exact Hw'|].
    exists np. split; [split; [exact Hf | exists q, (Some o'), l, r; split; [exact Hg | apply agree_sym, Hag]]|].
    rewrite Hg. reflexivity.
  - destruct o as [o|]; [|discriminate]. intros E. injection E as <- <-. simpl.
    split; [apply wf_tree_set_data, Hw'|].
    exists np. unfold holds. rewrite node_at_set_data, Hg.
    split; [split; [exact Hf | exists q, (Some o), l, r; split; [reflexivity | apply agree_sym, Hag]] | reflexivity].
Qed.

Lemma search_best_holds t P np :
  wf_tree t -> holds t np P -> radix_search_best2 t P true = Some np.
Proof.
  intros Hw [Hf (q & d & l & r & Hg & Hag)].
  destruct np as [fam path]. simpl in Hf. subst fam. unfold node_at in Hg. simpl in Hg.
  assert (Hwh : wf (family P) (RADIX_HEAD t (family P))) by (apply wf_tree_iff; exact Hw).
  assert (Hbq : bitlen q = bitlen P).
  { pose proof (wf_get _ _ path Hwh) as Hwg. rewrite Hg in Hwg. simpl in Hwg. tauto. }
  assert (HPq : node_prefix (get (RADIX_HEAD t (family P)) path) = Some q) by (rewrite Hg; reflexivity).
  pose proof (InR_get _ _ _ HPq) as Hin.
  destruct (best_push_complete (family P) P true q _ [] [] Hwh Hin ltac:(lia) ltac:(rewrite Hbq; exact Hag))
    as (e & d0 & l0 & r0 & He & Hfe); [left; reflexivity|].
  assert (Hce : best_cand P e = true)
    by (destruct e as [n c]; simpl in Hfe; subst n; apply best_cand_node; split; [rewrite Hbq; exact Hag | lia]).
  unfold radix_search_best2, search_best2_z.
  destruct (RADIX_HEAD t (family P)) as [|hb hp hd hl hr] eqn:Eh; [simpl in He; contradiction|].
  set (h := Node hb hp hd hl hr) in *.
  destruct (best_pop P (best_push P true h [] [])) as [[n ctx]|] eqn:Ep;
    [|rewrite (best_pop_none _ _ Ep e He) in Hce; discriminate].
  pose proof (best_pop_some _ _ _ Ep) as [Hin' Hc].
  destruct (best_push_in P true h [] [] _ Hin') as [[] | (cd & b & q' & d' & l' & r' & H1 & H2 & H3 & H4 & H5)].
  simpl in H1, H2, H3. rewrite app_nil_r in H1. subst cd n.
  assert (Hwn : wf (family P) (Node b (Some q') d' l' r')) by (eapply wf_zip_inv; rewrite H2; exact Hwh).
  assert (Hbq' : bitlen q' = b) by (simpl in Hwn; tauto). subst b.
  apply best_cand_node in Hc. destruct Hc as [Hag' Hle'].
  assert (Hsort : StronglySorted deeper (best_push P true h [] [])).
  { apply (best_push_sorted (family P)); [exact Hwh | constructor | intros x []]. }
  pose proof (best_pop_max P _ _ Ep Hsort e He Hce) as Hm.
  rewrite Hfe in Hm. simpl in Hm.
  assert (Hg' : get h (path_of ctx) = Node (bitlen q') (Some q') d' l' r') by (rewrite <- H2, get_zip; reflexivity).
  assert (Hq' : node_prefix (get h (path_of ctx)) = Some q') by (rewrite Hg'; reflexivity).
  assert (Hqq : agree (add q') (add q) (bitlen q')).
  { apply (agree_trans _ (add P)); [exact Hag'|]. apply agree_sym.
    apply (agree_le _ _ (bitlen P)); [lia | exact Hag]. }
  destruct (in_subtree _ (path_of ctx) h path q q' Hwh HPq Hq' ltac:(lia) Hqq) as [s1 E1].
  destruct (in_subtree _ path h (path_of ctx) q' q Hwh Hq' HPq ltac:(lia)
              (agree_le (add q) (add q') (bitlen q') (bitlen q) ltac:(lia) (agree_sym _ _ _ Hqq))) as [s2 E2].
  assert (Hs : s1 = []).
  { apply (f_equal (@length dir)) in E1, E2. rewrite length_app in E1, E2. destruct s1; [reflexivity|].
    simpl in E1. lia. }
  subst s1. rewrite app_nil_r in E1. subst path. reflexivity.
Qed.

Lemma worst_scan_some P : forall st e,
  worst_scan P st = Some e -> In e st /\ worst_cand P e = true.
Proof.
  induction st as [|[n c] st IH]; intros e H; simpl in H; [discriminate|].
  destruct n as [|b [q|] d l r]; try (apply IH in H; simpl; tauto).
  destruct (comp_with_mask (add q) (add P) (bitlen q)) eqn:E; [|apply IH in H; simpl; tauto].
  injection H as <-. split; [left; reflexivity | exact E].
Qed.

Lemma worst_scan_none P : forall st,
  worst_scan P st = None -> forall e, In e st -> worst_cand P e = false.
Proof.
  induction st as [|[n c] st IH]; intros H e He; [destruct He|].
  simpl in H. destruct He as [<- | He].
  - unfold worst_cand. simpl. destruct n as [|b [q|] d l r]; try reflexivity.
    destruct (comp_with_mask (add q) (add P) (bitlen q)); [discriminate | reflexivity].
  - apply IH; [|exact He]. destruct n as [|b [q|] d l r]; try exact H.
    destruct (comp_with_mask (add q) (add P) (bitlen q)); [discriminate | exact H].
Qed.

Lemma worst_scan_min P : forall st e,
  worst_scan P st = Some e -> StronglySorted (fun a b => deeper b a) st ->
  forall x, In x st -> worst_cand P x = true -> node_bit (fst e) <= node_bit (fst x).
Proof.
  induction st as [|[n c] st IH]; intros e H Hs x Hx Hc; [destruct Hx|].
  inversion Hs as [|a l' Hs' Hall]; subst.
  assert (Hfirst : worst_cand P (n, c) = true -> e = (n, c)).
  { intros Hc'. unfold worst_cand in Hc'. simpl in Hc', H.
    destruct n as [|b [q|] d l r]; try discriminate. rewrite Hc' in H. injection H as <-. reflexivity. }
  assert (Hrest : worst_cand P (n, c) = false -> worst_scan P st = Some e).
  { intros Hc'. unfold worst_cand in Hc'. simpl in Hc', H.
    destruct n as [|b [q|] d l r]; try exact H. rewrite Hc' in H. exact H. }
  destruct (worst_cand P (n, c)) eqn:Ec.
  - rewrite (Hfirst eq_refl). destruct Hx as [<- | Hx]; [lia|].
    rewrite Forall_forall in Hall. specialize (Hall x Hx). unfold deeper in Hall. lia.
  - destruct Hx as [<- | Hx]; [congruence|]. exact (IH e (Hrest eq_refl) Hs' x Hx Hc).
Qed.

Lemma StronglySorted_app_last {A} (R : A -> A -> Prop) : forall l a,
  StronglySorted R l -> (forall x, In x l -> R x a) -> StronglySorted R (l ++ [a]).
Proof.
  induction l as [|y l IH]; intros a Hs Ha; simpl.
  - constructor; constructor.
  - inversion Hs as [|b l' Hs' Hall]; subst. constructor.
    + apply IH; [exact Hs'|]. intros x Hx. apply Ha. right. exact Hx.
    + apply Forall_app. split; [exact Hall|]. constructor; [apply Ha; left; reflexivity | constructor].
Qed.

Lemma StronglySorted_rev {A} (R : A -> A -> Prop) : forall l,
  StronglySorted R l -> StronglySorted (fun a b => R b a) (rev l).
Proof.
  induction l as [|a l IH]; intros Hs; simpl; [constructor|].
  inversion Hs as [|b l' Hs' Hall]; subst.
  apply StronglySorted_app_last; [apply IH, Hs'|].
  intros x Hx. apply in_rev in Hx. rewrite Forall_forall in Hall. apply Hall, Hx.
Qed.

(** The stack of [radix_search_best2] and [radix_search_worst2] gets at
    most one node per bit from the current one to [bitlen]. *)
Lemma best_push_length fam P incl : forall n ctx stack lo,
  wf fam n -> (n = NULL \/ lo <= node_bit n) ->
  length (best_push P incl n ctx stack) <= length stack + (S (bitlen P) - lo).
Proof.
  induction n as [|b p d l IHl r IHr]; intros ctx stack lo Hw Hlo; cbn [best_push]; [lia|].
  destruct Hlo as [Hlo | Hlo]; [discriminate|]. simpl in Hlo.
  pose proof Hw as Hw2. apply wf_node_inv in Hw2. destruct Hw2 as (_ & Hgl & Hgr & _ & _ & _ & Hwl & Hwr).
  destruct (b <=? bitlen P) eqn:Eb; [|lia]. apply Nat.leb_le in Eb.
  set (stack' := match p with
                 | Some _ => if incl || negb (b =? bitlen P) then (Node b p d l r, ctx) :: stack else stack
                 | None => stack end).
  assert (Hs' : length stack' <= S (length stack))
    by (unfold stack'; destruct p; [destruct (_ || _)|]; simpl; lia).
  destruct (BIT_TEST_SEARCH_BIT (add P) b).
  - pose proof (IHr (Frame b p d DR l :: ctx) stack' (S b) Hwr
                  ltac:(destruct r; [left; reflexivity | right; simpl in *; lia])). lia.
  - pose proof (IHl (Frame b p d DL r :: ctx) stack' (S b) Hwl
                  ltac:(destruct l; [left; reflexivity | right; simpl in *; lia])). lia.
Qed.

(* ------------------------------------------------------------------ *)
(** ** [radix_search_intersect] and the general covering walk *)

Lemma covering_walk_rc (func : rdx_search_cb_t) (func_zero : forall x, func x = 0%Z) fam : forall ctx n calls,
  fst (covering_walk func fam 0 n ctx calls) = 0%Z.
Proof.
  induction ctx as [|f ctx IH]; intros n calls; simpl covering_walk;
    destruct (node_prefix n); rewrite ?func_zero; simpl; try reflexivity; apply IH.
Qed.

Lemma ancestor_contains fam h pa sigma qa qd :
  wf fam h ->
  node_prefix (get h pa) = Some qa -> node_prefix (get h (pa ++ sigma)) = Some qd ->
  contains qa qd.
Proof.
  intros Hwh Ha Hd. rewrite get_app in Hd.
  assert (Hw : wf fam (get h pa)) by (apply wf_get, Hwh).
  destruct (get h pa) as [|b p d l r] eqn:Eg; [discriminate|].
  simpl in Ha. subst p.
  assert (HInd : InR qd (Node b (Some qa) d l r)) by (apply (InR_get _ sigma), Hd).
  pose proof (wf_InR _ _ _ Hw HInd) as [Hfd _].
  pose proof (wf_bits_below _ _ _ Hw HInd) as Hbd. simpl in Hbd.
  pose proof Hw as Hw2. simpl in Hw2. destruct Hw2 as ([Hfa Hba] & _ & _ & _ & _ & _ & Hpair & _).
  split; [congruence|]. split; [lia|].
  rewrite Hba. apply Hpair; [left; reflexivity | exact HInd].
Qed.

Lemma covered_loop_root (func : rdx_search_cb_t) (func_zero : forall x, func x = 0%Z) fam P (incl : bool) b p d l r ctx k calls :
  (if incl then bitlen P <=? b else bitlen P <? b) = false ->
  covered_loop (3 * count_nodes (Node b p d l r) + k) func fam P incl
    [CFrame (Node b p d l r) ctx RADIX_STATE_LEFT true] calls =
  covered_loop k func fam P incl []
    (calls ++ subtree_calls fam l (Frame b p d DL r :: ctx) ++ subtree_calls fam r (Frame b p d DR l :: ctx)).
Proof.
  intros Hc.
  replace (3 * count_nodes (Node b p d l r) + k)
    with (S (3 * count_nodes l + S (3 * count_nodes r + S k))) by (simpl; lia).
  set (me := Node b p d l r).
  assert (HL : covered_loop (S (3 * count_nodes l + S (3 * count_nodes r + S k))) func fam P incl
                 [CFrame me ctx RADIX_STATE_LEFT true] calls =
               covered_loop (S (3 * count_nodes r + S k)) func fam P incl
                 [CFrame me ctx RADIX_STATE_RIGHT true]
                 (calls ++ subtree_calls fam l (Frame b p d DL r :: ctx))).
  { destruct l as [|bl pl dl ll rl].
    - simpl. rewrite app_nil_r. reflexivity.
    - cbn [covered_loop cst cnode cctx checked me]. simpl andb. cbv iota.
      rewrite (covered_loop_subtree func func_zero); [reflexivity | discriminate | left; discriminate]. }
  assert (HR : covered_loop (S (3 * count_nodes r + S k)) func fam P incl
                 [CFrame me ctx RADIX_STATE_RIGHT true]
                 (calls ++ subtree_calls fam l (Frame b p d DL r :: ctx)) =
               covered_loop (S k) func fam P incl
                 [CFrame me ctx RADIX_STATE_SELF true]
                 (calls ++ subtree_calls fam l (Frame b p d DL r :: ctx) ++
                  subtree_calls fam r (Frame b p d DR l :: ctx))).
  { destruct r as [|br pr dr lr rr].
    - simpl. rewrite !app_nil_r. reflexivity.
    - cbn [covered_loop cst cnode cctx checked me]. simpl andb. cbv iota.
      rewrite (covered_loop_subtree func func_zero); [rewrite app_assoc; reflexivity | discriminate | left; discriminate]. }
  rewrite HL, HR. cbn [covered_loop cst cnode cctx]. unfold me. simpl node_bit. rewrite Hc. reflexivity.
Qed.

Lemma covered_excl_form t P pP (func : rdx_search_cb_t) d l r :
  (forall x, func x = 0%Z) -> wf_tree t ->
  get (RADIX_HEAD t (family P)) pP = Node (bitlen P) (Some P) d l r ->
  exists ctx, path_of ctx = pP /\
    radix_search_covered t P func false =
      (0%Z, subtree_calls (family P) l (Frame (bitlen P) (Some P) d DL r :: ctx) ++
            subtree_calls (family P) r (Frame (bitlen P) (Some P) d DR l :: ctx)).
Proof.
  intros Hf Hw Hg.
  assert (Hwh : wf (family P) (RADIX_HEAD t (family P))) by (apply wf_tree_iff; exact Hw).
  unfold radix_search_covered.
  destruct (covered_descend_reaches P P d l r pP _ [] None None Hwh Hg (agree_refl _ _)) as (pv & pf & E).
  rewrite E. destruct (locate (RADIX_HEAD t (family P)) pP []) as [n' ctx] eqn:El.
  apply locate_get in El; [|rewrite Hg; discriminate]. destruct El as [En' Ep]. simpl in Ep.
  rewrite Hg in En'. subst n'. exists ctx. split; [exact Ep|]. cbn [fst snd]. cbv iota beta.
  assert (Hcomp : COMP_NODE_PREFIX (Node (bitlen P) (Some P) d l r) P = true).
  { unfold COMP_NODE_PREFIX. cbn [node_prefix]. rewrite Nat.min_id. apply comp_with_mask_spec, agree_refl. }
  rewrite Hg. cbv iota beta. rewrite Hcomp. cbn [negb]. rewrite path_eqb_refl. cbn [node_bit]. rewrite Nat.leb_refl. cbn [andb].
  rewrite (covered_loop_root func Hf); [|apply Nat.ltb_irrefl]. reflexivity.
Qed.

Lemma subtree_calls_ctx fam : forall n c1 c2,
  map fdir c1 = map fdir c2 -> subtree_calls fam n c1 = subtree_calls fam n c2.
Proof.
  induction n as [|b p d l IHl r IHr]; intros c1 c2 E; [reflexivity|].
  simpl. rewrite (IHl _ (Frame b p d DL r :: c2)), (IHr _ (Frame b p d DR l :: c2)) by (simpl; congruence).
  unfold path_of. rewrite E. reflexivity.
Qed.

Lemma intersect_calls t P pP (func : rdx_search_cb_t) d l r :
  (forall x, func x = 0%Z) -> wf_tree t ->
  get (RADIX_HEAD t (family P)) pP = Node (bitlen P) (Some P) d l r ->
  exists ctx, path_of ctx = pP /\ zip (Node (bitlen P) (Some P) d l r) ctx = RADIX_HEAD t (family P) /\
    radix_search_intersect t P func =
      (0%Z, ancestor_calls (family P) (Node (bitlen P) (Some P) d l r) ctx ++
            subtree_calls (family P) l (Frame (bitlen P) (Some P) d DL r :: ctx) ++
            subtree_calls (family P) r (Frame (bitlen P) (Some P) d DR l :: ctx)).
Proof.
  intros Hf Hw Hg.
  destruct (covered_excl_form t P pP func d l r Hf Hw Hg) as (ctx' & Ep' & Ec).
  assert (HP : node_prefix (get (RADIX_HEAD t (family P)) pP) = Some P) by (rewrite Hg; reflexivity).
  destruct (search_best_at_stored t P pP Hw HP) as (ctx & Eb & Ep & Ez).
  rewrite Hg in Eb, Ez. exists ctx. split; [exact Ep|]. split; [exact Ez|].
  unfold radix_search_intersect, radix_search_covering. rewrite Eb.
  pose proof (covering_walk_rc func Hf (family P) ctx (Node (bitlen P) (Some P) d l r) []) as Hrc.
  pose proof (covering_walk_calls func Hf (family P) ctx (Node (bitlen P) (Some P) d l r) 0%Z []) as Hcl.
  destruct (covering_walk func (family P) 0 (Node (bitlen P) (Some P) d l r) ctx []) as [rc calls].
  simpl in Hrc, Hcl. subst rc calls. rewrite Z.eqb_refl, Ec.
  assert (Ectx : path_of ctx' = path_of ctx) by congruence.
  unfold path_of in Ectx. apply (f_equal (@rev dir)) in Ectx. rewrite !rev_involutive in Ectx.
  rewrite (subtree_calls_ctx _ l (Frame (bitlen P) (Some P) d DL r :: ctx')
             (Frame (bitlen P) (Some P) d DL r :: ctx)) by (simpl; congruence).
  rewrite (subtree_calls_ctx _ r (Frame (bitlen P) (Some P) d DR l :: ctx')
             (Frame (bitlen P) (Some P) d DR l :: ctx)) by (simpl; congruence).
  reflexivity.
Qed.

Lemma search_best2_z_true_spec t Q :
  wf_tree t ->
  match search_best2_z t Q true with
  | Some (n, ctx) =>
      zip n ctx = RADIX_HEAD t (family Q) /\
      exists q d l r, n = Node (bitlen q) (Some q) d l r /\ contains q Q /\
        forall q', stored t q' -> contains q' Q -> bitlen q' <= bitlen q
  | None => forall q', stored t q' -> contains q' Q -> False
  end.
Proof.
  intros Hw.
  assert (Hwh : wf (family Q) (RADIX_HEAD t (family Q))) by (apply wf_tree_iff; exact Hw).
  assert (Hcand : forall q', stored t q' -> contains q' Q ->
            exists e d l r, In e (best_push Q true (RADIX_HEAD t (family Q)) [] []) /\
              fst e = Node (bitlen q') (Some q') d l r /\ best_cand Q e = true).
  { intros q' Hs [Hf [Hle Hag]].
    pose proof (stored_in_head t q' (family Q) Hw Hs Hf) as Hin.
    destruct (best_push_complete (family Q) Q true q' _ [] [] Hwh Hin Hle Hag) as (e & d & l & r & He & Hfe);
      [left; reflexivity|].
    exists e, d, l, r. split; [exact He|]. split; [exact Hfe|].
    destruct e as [n c]. simpl in Hfe. subst n. apply best_cand_node. auto. }
  unfold search_best2_z.
  destruct (RADIX_HEAD t (family Q)) as [|hb hp hd hl hr] eqn:Eh.
  - intros q' Hs Hc. destruct (Hcand q' Hs Hc) as (e & _ & _ & _ & He & _). simpl in He. exact He.
  - set (h := Node hb hp hd hl hr) in *.
    destruct (best_pop Q (best_push Q true h [] [])) as [[n ctx]|] eqn:Ep.
    + pose proof (best_pop_some _ _ _ Ep) as [Hin Hc].
      destruct (best_push_in Q true h [] [] _ Hin) as [[] | (cd & b & q & d & l & r & H1 & H2 & H3 & H4 & H5)].
      simpl in H1, H2, H3. rewrite app_nil_r in H1. subst cd n.
      assert (Hwn : wf (family Q) (Node b (Some q) d l r)) by (eapply wf_zip_inv; rewrite H2; exact Hwh).
      assert (Hfq : family q = family Q /\ bitlen q = b) by (simpl in Hwn; tauto).
      destruct Hfq as [Hfq Hbq]. subst b.
      apply best_cand_node in Hc. destruct Hc as [Hag Hle].
      split; [exact H2|].
      exists q, d, l, r. split; [reflexivity|].
      split; [split; [exact Hfq | split; assumption]|].
      intros q' Hs Hc'. destruct (Hcand q' Hs Hc') as (e & d' & l' & r' & He & Hfe & Hce).
      assert (Hsort : StronglySorted deeper (best_push Q true h [] [])).
      { apply (best_push_sorted (family Q)); [exact Hwh | constructor | intros x []]. }
      pose proof (best_pop_max Q _ _ Ep Hsort e He Hce) as Hm.
      rewrite Hfe in Hm. simpl in Hm. exact Hm.
    + intros q' Hs Hc. destruct (Hcand q' Hs Hc) as (e & _ & _ & _ & He & _ & Hce).
      rewrite (best_pop_none _ _ Ep e He) in Hce. discriminate.
Qed.

Lemma contains_trans a b c : contains a b -> contains b c -> contains a c.
Proof.
  intros [F1 [L1 A1]] [F2 [L2 A2]]. split; [congruence|]. split; [lia|].
  apply (agree_trans _ (add b)); [exact A1|]. apply (agree_le _ _ (bitlen b)); [exact L1 | exact A2].
Qed.

(** ** [Clear_Radix] and [sanitise_mask] *)

Ltac clear_side :=
  first [ assumption | apply Forall_nil | (intros; reflexivity) | constructor; [discriminate | assumption] | intros ?; discriminate
        | intros ?; contradiction | (unfold stack_count in *; cbn [fold_right count_nodes] in *; lia) ].

Ltac clear_eq hf :=
  f_equal; f_equal;
  [ unfold stack_count in *; cbn [fold_right count_nodes] in *; lia
  | unfold objs_if; destruct hf; cbn [preorder_objs flat_map];
    repeat match goal with |- context [match ?x with Some _ => _ | None => _ end] => destruct x end;
    rewrite ?app_assoc, ?app_nil_r, ?app_assoc; reflexivity ].

Lemma clear_loop_spec has_func : forall fuel n stack num calls,
  Forall (fun x => x <> NULL) stack -> (n = NULL -> stack = []) ->
  count_nodes n + stack_count stack < fuel ->
  clear_loop fuel has_func n stack num calls =
  Some ((num - Z.of_nat (count_nodes n + stack_count stack))%Z,
        calls ++ objs_if has_func n ++ flat_map (objs_if has_func) stack).
Proof.
  induction fuel as [|fuel IH]; intros n stack num calls Hs Hn Hf; [lia|].
  destruct n as [|b p d l r].
  - rewrite (Hn eq_refl). unfold objs_if. destruct has_func; simpl; rewrite Z.sub_0_r, !app_nil_r; reflexivity.
  - cbn [clear_loop].
    destruct l as [|bl pl dl ll rl], r as [|br pr dr lr rr].
    + destruct stack as [|x st].
      * rewrite IH by clear_side. clear_eq has_func.
      * inversion Hs as [|? ? Hx Hst]; subst. rewrite IH by clear_side. clear_eq has_func.
    + rewrite IH by clear_side. clear_eq has_func.
    + rewrite IH by clear_side. clear_eq has_func.
    + rewrite IH by clear_side. clear_eq has_func.
Qed.

Lemma radix_clear_head_spec num head has_func :
  radix_clear_head num head has_func =
  Some ((num - Z.of_nat (count_nodes head))%Z, objs_if has_func head).
Proof.
  destruct head as [|b p d l r].
  - simpl. rewrite Z.sub_0_r. unfold objs_if. destruct has_func; reflexivity.
  - unfold radix_clear_head. rewrite clear_loop_spec by first [apply Forall_nil | discriminate | simpl; lia].
    simpl stack_count. rewrite Nat.add_0_r, !app_nil_r. reflexivity.
Qed.

Lemma set_byte_length a : forall i v, length (set_byte a i v) = length a.
Proof. induction a as [|x a IH]; intros [|i] v; simpl; auto. Qed.

Lemma byte_at_set_byte a : forall i v k,
  i < length a -> byte_at (set_byte a i v) k = if k =? i then v else byte_at a k.
Proof.
  induction a as [|x a IH]; intros i v k Hi; [simpl in Hi; lia|].
  destruct i as [|i], k as [|k]; try reflexivity.
  exact (IH i v k ltac:(simpl in Hi; lia)).
Qed.

Lemma byte_at_past a k : length a <= k -> byte_at a k = x00.
Proof. intros H. unfold byte_at. apply nth_overflow, H. Qed.

Lemma byte_at_set_zero a i k :
  byte_at (set_byte a i x00) k = if k =? i then x00 else byte_at a k.
Proof.
  destruct (Nat.lt_ge_cases i (length a)) as [Hi | Hi]; [apply byte_at_set_byte, Hi|].
  assert (E : set_byte a i x00 = a).
  { revert i Hi. induction a as [|x a IH]; intros [|i] Hi; simpl in *; try lia; try reflexivity.
    rewrite IH by lia. reflexivity. }
  rewrite E. destruct (Nat.eqb_spec k i) as [-> | _]; [apply byte_at_past, Hi | reflexivity].
Qed.

Lemma zero_loop_length : forall k a i, length (zero_loop a i k) = length a.
Proof. induction k as [|k IH]; intros a i; simpl; [reflexivity|]. rewrite IH. apply set_byte_length. Qed.

Lemma byte_at_zero_loop : forall k a i m,
  byte_at (zero_loop a i k) m = if (i <=? m) && (m <? i + k) then x00 else byte_at a m.
Proof.
  induction k as [|k IH]; intros a i m; simpl.
  - replace (i <=? m) with (i <=? m) by reflexivity.
    destruct (i <=? m) eqn:E1, (m <? i + 0) eqn:E2; simpl; try reflexivity.
    apply Nat.ltb_lt in E2. apply Nat.leb_le in E1. lia.
  - rewrite IH, byte_at_set_zero.
    destruct (Nat.leb_spec (S i) m), (Nat.ltb_spec m (S i + k)), (Nat.leb_spec i m),
             (Nat.ltb_spec m (i + S k)), (Nat.eqb_spec m i); simpl; try reflexivity; lia.
Qed.

Lemma byte_bit_x00 j : byte_bit x00 j = false.
Proof. reflexivity. Qed.

Lemma chk_mask_byte_ok : forallb mask_byte_f all_bytes = true.
Proof. vm_compute. reflexivity. Qed.

Lemma mask_byte_bit x j k : 1 <= j <= 7 -> k < 8 ->
  byte_bit (mask_byte x j) k = (k <? j) && byte_bit x k.
Proof.
  intros Hj Hk. pose proof chk_mask_byte_ok as H. rewrite forallb_forall in H.
  specialize (H x (all_bytes_complete x)). unfold mask_byte_f in H.
  rewrite forallb_forall in H. specialize (H j ltac:(apply in_seq; lia)).
  rewrite forallb_forall in H. specialize (H k ltac:(apply in_seq; lia)).
  apply Bool.eqb_prop, H.
Qed.

Lemma byte_at_sanitise addr masklen maskbits k :
  maskbits = 8 * length addr -> masklen <= maskbits ->
  byte_at (sanitise_mask addr masklen maskbits) k =
  if k <? masklen / 8 then byte_at addr k
  else if (k =? masklen / 8) && negb (masklen mod 8 =? 0) then mask_byte (byte_at addr k) (masklen mod 8)
  else x00.
Proof.
  intros Hb Hm. unfold sanitise_mask.
  replace (maskbits / 8) with (length addr) by (subst; rewrite Nat.mul_comm, Nat.div_mul; lia).
  pose proof (Nat.div_mod_eq masklen 8) as Hd. pose proof (Nat.mod_upper_bound masklen 8 ltac:(lia)) as Hj.
  destruct (Nat.eqb_spec (masklen mod 8) 0) as [Hj0 | Hj0]; cbn [negb].
  - rewrite byte_at_zero_loop, andb_false_r.
    destruct (Nat.ltb_spec k (masklen / 8)), (Nat.leb_spec (masklen / 8) k),
             (Nat.ltb_spec k (masklen / 8 + (length addr - masklen / 8))); cbn [andb negb]; try lia; try reflexivity.
    apply byte_at_past. lia.
  - assert (Hi : masklen / 8 < length addr) by lia.
    rewrite byte_at_zero_loop, byte_at_set_byte by exact Hi. rewrite andb_true_r.
    destruct (Nat.ltb_spec k (masklen / 8)), (Nat.leb_spec (S (masklen / 8)) k),
             (Nat.ltb_spec k (S (masklen / 8) + (length addr - S (masklen / 8)))),
             (Nat.eqb_spec k (masklen / 8)) as [Ek|Ek]; cbn [andb negb]; try lia; try reflexivity.
    all: first [rewrite Ek; reflexivity | apply byte_at_past; lia].
Qed.


(** ** Payloads are set only on nodes holding a prefix *)

Lemma dok_plug f n : dok (plug f n) <-> fok f /\ dok n.
Proof. unfold plug, fok. destruct (fdir f); simpl; tauto. Qed.

Lemma dok_zip n ctx : dok (zip n ctx) <-> Forall fok ctx /\ dok n.
Proof.
  revert n; induction ctx as [|f ctx IH]; intros n; simpl.
  - split; [intros H; split; [constructor | exact H] | tauto].
  - rewrite IH, dok_plug, Forall_cons_iff. tauto.
Qed.

Lemma dok_tree_iff t : dok_tree t <-> forall f, dok (RADIX_HEAD t f).
Proof. unfold dok_tree. split; [intros [H4 H6] f; destruct f; assumption | intros H; exact (conj (H AF_INET) (H AF_INET6))]. Qed.

Lemma dok_tree_set t f p : dok_tree t -> dok p -> dok_tree (set_head t f p).
Proof. unfold dok_tree; destruct f; simpl; tauto. Qed.

Lemma dok_tree_add t k : dok_tree t -> dok_tree (add_active t k).
Proof. exact (fun H => H). Qed.

Lemma dok_set_data : forall path n v,
  dok n -> node_prefix (get n path) <> None -> dok (set_data_at n path v).
Proof.
  induction path as [|x path IH]; intros n v Hd Hp.
  - destruct n as [|b p d l r]; simpl in *; [exact I|]. tauto.
  - destruct n as [|b p d l r]; [destruct x; exact I|]. simpl in Hd.
    destruct x; simpl in *; intuition.
Qed.

Ltac dok_solve :=
  repeat match goal with
  | |- dok_tree (add_active _ _) => apply dok_tree_add
  | |- dok_tree (set_head _ _ _) => apply dok_tree_set; [assumption|]
  | |- dok (zip (plug ?f ?n) ?c) => change (dok (zip n (f :: c)))
  | |- dok (zip _ _) => apply dok_zip; split; [assumption|]
  | |- dok NULL => exact I
  | |- dok (Node _ _ _ _ _) => cbn [dok]
  | |- _ /\ _ => split
  | |- True => exact I
  | H : ?d <> None -> ?p <> None |- ?d <> None -> ?p <> None => exact H
  | |- None <> None -> _ => let H := fresh in intros H; exfalso; exact (H eq_refl)
  | |- _ <> None -> Some _ <> None => let H := fresh in intros H; discriminate
  end; try assumption.

Lemma lookup_dok m t P :
  dok_tree t -> match radix_lookup_m m t P with LOk t' _ => dok_tree t' | _ => True end.
Proof.
  intros Hd. unfold radix_lookup_m.
  assert (Hh : dok (RADIX_HEAD t (family P))) by (apply dok_tree_iff; exact Hd).
  destruct (RADIX_HEAD t (family P)) as [|hb hp hd hl hr] eqn:Eh.
  - destruct (fst (malloc m)); [|exact I]. dok_solve.
  - set (h := Node hb hp hd hl hr) in *.
    destruct (lookup_descend _ _ P h []) as [[n0 ctx0]|] eqn:Ed; [|exact I].
    apply descend_spec in Ed; [|discriminate].
    destruct Ed as (cd & Hcd & Hz0 & _). rewrite app_nil_r in Hcd. subst cd.
    destruct n0 as [|b0 p0 d0 l0 r0]; [exact I|]. destruct p0 as [q0|]; [|exact I].
    destruct (walk_up _ _ ctx0) as [node ctx] eqn:Ew.
    apply walk_up_spec in Ew. destruct Ew as (pop & Hctx0 & Hnode & _). subst ctx0.
    assert (Hzn : dok (zip node ctx)) by (rewrite Hnode, <- zip_app, Hz0; exact Hh).
    destruct node as [|b p d l r]; [exact I|].
    apply dok_zip in Hzn. destruct Hzn as [Hf (Hnd & Hl & Hr)].
    repeat match goal with
    | |- context [match ?x with _ => _ end] =>
        lazymatch type of x with lookup_res => fail | _ => destruct x eqn:?; cbv iota beta end
    end; dok_solve.
Qed.

Lemma remove_dok t np t' : dok_tree t -> radix_remove t np = Some t' -> dok_tree t'.
Proof.
  intros Hd H. unfold radix_remove in H.
  destruct (locate (RADIX_HEAD t (nfam np)) (npath np) []) as [node ctx] eqn:El.
  apply locate_zip in El. simpl in El.
  assert (Hz : dok (zip node ctx)) by (rewrite El; apply dok_tree_iff; exact Hd).
  apply dok_zip in Hz. destruct Hz as [Hf Hn].
  destruct node as [|b p d l r]; [discriminate|]. destruct Hn as (Hnd & Hl & Hr).
  destruct p as [q|]; [|discriminate].
  destruct l as [|bl pl dl ll rl], r as [|br pr dr lr rr];
    try (injection H as <-; dok_solve; fail).
  - destruct ctx as [|f ctx'].
    + injection H as <-. dok_solve.
    + apply Forall_cons_iff in Hf. destruct Hf as [[Hfd Hfs] Hf'].
      destruct (fpfx f) as [q'|] eqn:Ep.
      * injection H as <-. dok_solve. apply dok_zip.
        split; [constructor; [split; [rewrite Ep; intros ?; discriminate | exact Hfs] | exact Hf'] | exact I].
      * destruct (fsib f) as [|bs ps ds ls rs] eqn:Es; [discriminate|].
        destruct ctx' as [|f0 ctx'']; injection H as <-.
        -- dok_solve; simpl in Hfs; tauto.
        -- dok_solve; simpl in Hfs; tauto.
  - destruct ctx; injection H as <-; dok_solve; simpl in Hl, Hr; tauto.
  - destruct ctx; injection H as <-; dok_solve; simpl in Hl, Hr; tauto.
  - injection H as <-; dok_solve; simpl in Hl, Hr; tauto.
Qed.

Lemma reachable_dok t : reachable t -> dok_tree t.
Proof.
  induction 1 as [|t P t' np Hr IH Hv Hl|t P m t' Hr IH Hv Hl|t np t' Hr IH Hp Hrm|t np v Hr IH Hp].
  - split; exact I.
  - pose proof (lookup_dok [] t P IH) as H. unfold radix_lookup in Hl. rewrite Hl in H. exact H.
  - destruct (lookup_nomem m t P t' Hl) as [-> | ->]; [exact IH | apply dok_tree_add, IH].
  - exact (remove_dok t np t' IH Hrm).
  - unfold set_node_data. apply dok_tree_set; [exact IH|].
    apply dok_set_data; [apply dok_tree_iff; exact IH | exact Hp].
Qed.

Lemma dok_get : forall path n, dok n -> dok (get n path).
Proof.
  induction path as [|x path IH]; intros n H; [rewrite get_nil; exact H|].
  destruct n as [|b p d l r]; [rewrite get_NULL; exact I|].
  simpl in H. destruct x; simpl; apply IH; tauto.
Qed.

(** ** Ancestors and [RadixNode.parent] *)

(** The prefix of a node strictly contains the prefixes below it;
    [contains_anc] is the converse. *)
Lemma path_anc fam h pa sigma q P :
  wf fam h -> node_prefix (get h pa) = Some q -> node_prefix (get h (pa ++ sigma)) = Some P ->
  sigma <> [] -> contains q P /\ bitlen q < bitlen P.
Proof.
  intros Hw Hq HP Hs. rewrite get_app in HP.
  pose proof (wf_get fam h pa Hw) as Hwn.
  destruct (get h pa) as [|b p d l r] eqn:Eg; [discriminate|]. simpl in Hq. subst p.
  destruct sigma as [|x s]; [congruence|].
  assert (HIn : InR P (Node b (Some q) d l r)) by (apply (InR_get _ (x :: s)), HP).
  pose proof (wf_InR _ _ _ Hwn HIn) as [HfP _].
  pose proof Hwn as Hw2. simpl in Hw2.
  destruct Hw2 as ([Hfq Hbq] & _ & Hgl & Hgr & _ & _ & Hpair & Hwl & Hwr).
  assert (Hlt : b < bitlen P).
  { destruct x; simpl in HP.
    - exact (child_lt_bit _ _ _ _ Hwl (InR_get _ _ _ HP) Hgl).
    - exact (child_lt_bit _ _ _ _ Hwr (InR_get _ _ _ HP) Hgr). }
  split; [|lia]. split; [congruence|]. split; [lia|].
  rewrite Hbq. apply Hpair; [left; reflexivity | exact HIn].
Qed.

Lemma contains_anc fam : forall h pa path q P,
  wf fam h -> node_prefix (get h pa) = Some q -> node_prefix (get h path) = Some P ->
  contains q P -> bitlen q < bitlen P -> exists sigma, path = pa ++ sigma /\ sigma <> [].
Proof.
  induction h as [|b p d l IHl r IHr]; intros pa path q P Hw Hq HP Hc Hlt;
    [rewrite get_NULL in Hq; discriminate|].
  pose proof Hw as Hw2. apply wf_node_inv in Hw2.
  destruct Hw2 as (_ & Hgl & Hgr & Hsl & Hsr & _ & Hwl & Hwr).
  assert (Hbp : forall Q, p = Some Q -> bitlen Q = b) by (intros Q ->; simpl in Hw; tauto).
  pose proof Hc as (_ & Hle & Hag).
  destruct pa as [|x pa'].
  - simpl in Hq. subst p. specialize (Hbp q eq_refl).
    destruct path as [|y path']; [simpl in HP; injection HP as ->; lia|].
    exists (y :: path'). split; [reflexivity | discriminate].
  - assert (Hqb : b < bitlen q /\ BIT_TEST_SEARCH_BIT (add q) b = match x with DL => false | DR => true end).
    { destruct x; simpl in Hq.
      - split; [exact (child_lt_bit _ _ _ _ Hwl (InR_get _ _ _ Hq) Hgl) | exact (Hsl q (InR_get _ _ _ Hq))].
      - split; [exact (child_lt_bit _ _ _ _ Hwr (InR_get _ _ _ Hq) Hgr) | exact (Hsr q (InR_get _ _ _ Hq))]. }
    destruct Hqb as [Hbq Hbit]. rewrite (Hag b Hbq) in Hbit.
    destruct path as [|y path'].
    + simpl in HP. specialize (Hbp P HP). lia.
    + assert (HbP : BIT_TEST_SEARCH_BIT (add P) b = match y with DL => false | DR => true end).
      { destruct y; simpl in HP; [exact (Hsl P (InR_get _ _ _ HP)) | exact (Hsr P (InR_get _ _ _ HP))]. }
      destruct x, y; try congruence; simpl in Hq, HP.
      * destruct (IHl pa' path' q P Hwl Hq HP Hc Hlt) as (s & -> & Hs).
        exists s. split; [reflexivity | exact Hs].
      * destruct (IHr pa' path' q P Hwr Hq HP Hc Hlt) as (s & -> & Hs).
        exists s. split; [reflexivity | exact Hs].
Qed.

Lemma lt_S_split (Q : nat -> Prop) n :
  (forall k, k < S n -> Q k) <-> Q 0 /\ forall k, k < n -> Q (S k).
Proof.
  split; [intros H; split; [apply H; lia | intros k Hk; apply H; lia]|].
  intros [H0 H] k Hk. destruct k; [exact H0 | apply H; lia].
Qed.

(** The frames [locate] collects, read from the innermost: [parent_walk]
    finds the deepest proper ancestor whose [data] is set. *)
Lemma parent_walk_locate : forall path h ctx0,
  match parent_walk (snd (locate h path ctx0)) with
  | Some o =>
      (exists k, k < length path /\ node_data (get h (firstn k path)) = Some o /\
         forall k', k < k' < length path -> node_data (get h (firstn k' path)) = None) \/
      ((forall k', k' < length path -> node_data (get h (firstn k' path)) = None) /\
       parent_walk ctx0 = Some o)
  | None =>
      (forall k', k' < length path -> node_data (get h (firstn k' path)) = None) /\
      parent_walk ctx0 = None
  end.
Proof.
  induction path as [|x path IH]; intros h ctx0.
  - replace (snd (locate h [] ctx0)) with ctx0 by (destruct h; reflexivity). destruct (parent_walk ctx0); [right|]; (split; [intros k Hk; simpl in Hk; lia | reflexivity]).
  - assert (Hnull : forall k, node_data (get NULL (firstn k (x :: path))) = None)
      by (intros k; rewrite get_NULL; reflexivity).
    destruct h as [|b p d l r].
    + replace (snd (locate NULL (x :: path) ctx0)) with ctx0 by (destruct x; reflexivity). destruct (parent_walk ctx0); [right|]; (split; [intros; apply Hnull | reflexivity]).
    + set (c := match x with DL => l | DR => r end).
      assert (Hloc : snd (locate (Node b p d l r) (x :: path) ctx0) =
                     snd (locate c path (Frame b p d x (match x with DL => r | DR => l end) :: ctx0)))
        by (destruct x; reflexivity).
      assert (Hget : forall k, get (Node b p d l r) (firstn (S k) (x :: path)) = get c (firstn k path))
        by (intros k; destruct x; reflexivity).
      assert (H0 : node_data (get (Node b p d l r) (firstn 0 (x :: path))) = d) by reflexivity.
      rewrite Hloc. cbn [length].
      specialize (IH c (Frame b p d x (match x with DL => r | DR => l end) :: ctx0)).
      cbn [parent_walk fdata] in IH.
      destruct (parent_walk (snd (locate c path _))) as [o|] eqn:E.
      * destruct IH as [(k & Hk & Hd & Hmax) | [Hall Hw]].
        -- left. exists (S k). rewrite Hget. split; [lia|]. split; [exact Hd|].
           intros k' Hk'. destruct k' as [|k']; [lia|]. rewrite Hget. apply Hmax. lia.
        -- destruct d as [o'|].
           ++ injection Hw as <-. left. exists 0. split; [lia|]. split; [exact H0|].
              intros k' Hk'. destruct k' as [|k']; [lia|]. rewrite Hget. apply Hall. lia.
           ++ right. split; [|exact Hw]. apply lt_S_split. split; [exact H0|].
              intros k Hk. rewrite Hget. apply Hall, Hk.
      * destruct IH as [Hall Hw]. destruct d; [discriminate|].
        split; [|exact Hw]. apply lt_S_split. split; [exact H0|].
        intros k Hk. rewrite Hget. apply Hall, Hk.
Qed.

(** ** [radix_search_covered] for any prefix *)

Lemma covered_calls_node fam P c b p d l r ctx :
  covered_calls fam P c (Node b p d l r) ctx =
  covered_child fam P c l (Frame b p d DL r :: ctx) ++ covered_child fam P c r (Frame b p d DR l :: ctx) ++
  match p with Some _ => [mk_nodeptr fam (path_of ctx)] | None => [] end.
Proof. reflexivity. Qed.

Lemma covered_loop_nil func fam P incl k calls :
  covered_loop k func fam P incl [] calls = (0%Z, calls).
Proof. destruct k; reflexivity. Qed.

Section CoveredLoopAll.
Variable func : rdx_search_cb_t.
Hypothesis func_zero : forall x, func x = 0%Z.
Variables (fam : addr_family) (P : prefix_t) (incl : bool).

Lemma covered_loop_calls : forall n b p d l r ctx c rest calls k,
  n = Node b p d l r ->
  exists k', k <= k' /\
  covered_loop (3 * count_nodes n + k) func fam P incl (CFrame n ctx RADIX_STATE_LEFT c :: rest) calls =
  covered_loop k' func fam P incl rest
    (calls ++ covered_child fam P c l (Frame b p d DL r :: ctx) ++
     covered_child fam P c r (Frame b p d DR l :: ctx) ++
     if negb (match rest with [] => true | _ => false end) ||
        (if incl then bitlen P <=? b else bitlen P <? b)
     then match p with Some _ => [mk_nodeptr fam (path_of ctx)] | None => [] end else []).
Proof.
  induction n as [|b0 p0 d0 l0 IHl r0 IHr]; intros b p d l r ctx c rest calls k En; [discriminate|].
  injection En as <- <- <- <- <-.
  set (me := Node b0 p0 d0 l0 r0).
  assert (HL : forall K calls0, exists k1, K <= k1 /\
    covered_loop (S (3 * count_nodes l0 + K)) func fam P incl (CFrame me ctx RADIX_STATE_LEFT c :: rest) calls0 =
    covered_loop k1 func fam P incl (CFrame me ctx RADIX_STATE_RIGHT c :: rest)
      (calls0 ++ covered_child fam P c l0 (Frame b0 p0 d0 DL r0 :: ctx))).
  { intros K calls0. unfold me. cbn [covered_loop cst cnode cctx checked].
    destruct l0 as [|bm pm dm lm rm].
    - exists K. simpl. rewrite app_nil_r. split; [lia | reflexivity].
    - unfold covered_child.
      destruct (negb c && is_some_pfx pm && negb (COMP_NODE_PREFIX (Node bm pm dm lm rm) P)).
      + exists (3 * count_nodes (Node bm pm dm lm rm) + K). rewrite app_nil_r. split; [lia | reflexivity].
      + destruct (IHl bm pm dm lm rm (Frame b0 p0 d0 DL r0 :: ctx) (c || is_some_pfx pm)
                    (CFrame (Node b0 p0 d0 (Node bm pm dm lm rm) r0) ctx RADIX_STATE_RIGHT c :: rest)
                    calls0 K eq_refl) as (k'' & Hk & E).
        exists k''. split; [exact Hk|]. rewrite E, covered_calls_node. reflexivity. }
  assert (HR : forall K calls0, exists k1, K <= k1 /\
    covered_loop (S (3 * count_nodes r0 + K)) func fam P incl (CFrame me ctx RADIX_STATE_RIGHT c :: rest) calls0 =
    covered_loop k1 func fam P incl (CFrame me ctx RADIX_STATE_SELF c :: rest)
      (calls0 ++ covered_child fam P c r0 (Frame b0 p0 d0 DR l0 :: ctx))).
  { intros K calls0. unfold me. cbn [covered_loop cst cnode cctx checked].
    destruct r0 as [|bm pm dm lm rm].
    - exists K. simpl. rewrite app_nil_r. split; [lia | reflexivity].
    - unfold covered_child.
      destruct (negb c && is_some_pfx pm && negb (COMP_NODE_PREFIX (Node bm pm dm lm rm) P)).
      + exists (3 * count_nodes (Node bm pm dm lm rm) + K). rewrite app_nil_r. split; [lia | reflexivity].
      + destruct (IHr bm pm dm lm rm (Frame b0 p0 d0 DR l0 :: ctx) (c || is_some_pfx pm)
                    (CFrame (Node b0 p0 d0 l0 (Node bm pm dm lm rm)) ctx RADIX_STATE_SELF c :: rest)
                    calls0 K eq_refl) as (k'' & Hk & E).
        exists k''. split; [exact Hk|]. rewrite E, covered_calls_node. reflexivity. }
  replace (3 * count_nodes me + k)
    with (S (3 * count_nodes l0 + S (3 * count_nodes r0 + S k))) by (simpl; lia).
  destruct (HL (S (3 * count_nodes r0 + S k)) calls) as (k1 & Hk1 & E1).
  rewrite E1.
  replace k1 with (S (3 * count_nodes r0 + (k1 - S (3 * count_nodes r0)))) by lia.
  destruct (HR (k1 - S (3 * count_nodes r0))
              (calls ++ covered_child fam P c l0 (Frame b0 p0 d0 DL r0 :: ctx))) as (k2 & Hk2 & E2).
  rewrite E2.
  destruct k2 as [|k2]; [lia|].
  exists k2. split; [lia|].
  cbn [covered_loop cst cnode cctx]. unfold me at 1. simpl node_bit. simpl node_prefix.
  rewrite <- !app_assoc.
  destruct (negb _ || _).
  - destruct p0 as [q|].
    + rewrite func_zero. reflexivity.
    + rewrite !app_nil_r. reflexivity.
  - rewrite !app_nil_r. reflexivity.
Qed.

End CoveredLoopAll.

Lemma containsb_spec (P Q : prefix_t) : reflect (contains P Q) (containsb P Q).
Proof.
  unfold containsb, contains.
  destruct (family P), (family Q); cbn [family_eqb andb];
    try (apply ReflectF; intros (E & _); discriminate E).
  all: destruct (bitlen P <=? bitlen Q) eqn:Hle; cbn [andb];
    [apply Nat.leb_le in Hle | apply Nat.leb_gt in Hle; apply ReflectF; intros (_ & H & _); lia].
  all: destruct (comp_with_mask (add P) (add Q) (bitlen P)) eqn:Ec;
    [apply ReflectT; split; [reflexivity | split; [exact Hle | apply comp_with_mask_spec, Ec]]
    | apply ReflectF; intros (_ & _ & Ha); apply comp_with_mask_spec in Ha; congruence].
Qed.

Lemma covered_calls_sub fam P : forall n c ctx x,
  In x (covered_calls fam P c n ctx) -> In x (subtree_calls fam n ctx).
Proof.
  induction n as [|b p d l IHl r IHr]; intros c ctx x H; [exact H|].
  rewrite covered_calls_node in H. simpl subtree_calls.
  apply in_app_or in H. apply in_or_app.
  destruct H as [H | H]; [|apply in_app_or in H; right; apply in_or_app; destruct H as [H | H]].
  - left. unfold covered_child in H. destruct l as [|bl pl dl ll rl]; [destruct H|].
    destruct (negb c && _ && _); [destruct H | exact (IHl _ _ _ H)].
  - left. unfold covered_child in H. destruct r as [|br pr dr lr rr]; [destruct H|].
    destruct (negb c && _ && _); [destruct H | exact (IHr _ _ _ H)].
  - right. exact H.
Qed.

Lemma covered_child_sub fam P c m ctx x :
  In x (covered_child fam P c m ctx) -> In x (subtree_calls fam m ctx).
Proof.
  unfold covered_child. destruct m as [|bm pm dm lm rm]; [intros []|].
  destruct (negb c && _ && _); [intros []|apply covered_calls_sub].
Qed.

(** The prefix of a node contains every prefix of its subtree. *)
Lemma root_contains fam b x d l r y :
  wf fam (Node b (Some x) d l r) -> InR y (Node b (Some x) d l r) -> contains x y.
Proof.
  intros Hw Hy.
  pose proof (wf_InR _ _ _ Hw Hy) as [Hfy _].
  pose proof (wf_bits_below _ _ _ Hw Hy) as Hby. simpl in Hby.
  pose proof Hw as Hw2. simpl in Hw2. destruct Hw2 as ([Hfx Hbx] & _ & _ & _ & _ & _ & Hpair & _).
  split; [congruence|]. split; [lia|].
  rewrite Hbx. apply Hpair; [left; reflexivity | exact Hy].
Qed.

(** A prefix that does not match [Q] on their common length contains no
    prefix contained in [Q]. *)
Lemma comp_false_not_contained n x Q y :
  node_prefix n = Some x -> COMP_NODE_PREFIX n Q = false ->
  contains x y -> ~ contains Q y.
Proof.
  intros Hx Hc (_ & Hxy & Axy) (_ & HQy & AQy).
  unfold COMP_NODE_PREFIX in Hc. rewrite Hx in Hc.
  apply (comp_with_mask_false) in Hc. apply Hc.
  intros i Hi. rewrite (Axy i ltac:(lia)), (AQy i ltac:(lia)). reflexivity.
Qed.

Lemma count_child_none fam P c m ctx y :
  (forall s, y <> mk_nodeptr fam (path_of ctx ++ s)) ->
  count_occ nodeptr_eq_dec (covered_child fam P c m ctx) y = 0.
Proof.
  intros H. apply count_occ_not_In. intros Hin.
  destruct (subtree_calls_paths fam m ctx y (covered_child_sub _ _ _ _ _ _ Hin)) as [s E]. exact (H s E).
Qed.

Lemma covered_child_count_of fam Q c m ctx s :
  (forall c' ctx' s', wf fam m ->
     (forall q, InR q m -> contains q Q -> bitlen Q <= bitlen q) ->
     (c' = true -> forall q, InR q m -> contains Q q) ->
     (c' = false -> forall q, node_prefix m = Some q -> contains Q q) ->
     count_occ nodeptr_eq_dec (covered_calls fam Q c' m ctx') (mk_nodeptr fam (path_of ctx' ++ s')) =
     match node_prefix (get m s') with Some q => if containsb Q q then 1 else 0 | None => 0 end) ->
  wf fam m -> family Q = fam ->
  (forall q, InR q m -> contains q Q -> bitlen Q <= bitlen q) ->
  (c = true -> forall q, InR q m -> contains Q q) ->
  count_occ nodeptr_eq_dec (covered_child fam Q c m ctx) (mk_nodeptr fam (path_of ctx ++ s)) =
  match node_prefix (get m s) with Some q => if containsb Q q then 1 else 0 | None => 0 end.
Proof.
  intros HB Hw HfQ Hns Hc.
  destruct m as [|bm pm dm lm rm]; [rewrite get_NULL; reflexivity|].
  unfold covered_child. destruct c.
  - apply HB; auto. discriminate.
  - destruct pm as [x|].
    + assert (Hx : InR x (Node bm (Some x) dm lm rm)) by (left; reflexivity).
      pose proof (wf_InR _ _ _ Hw Hx) as [Hfx _].
      assert (Hbx : bitlen x = bm) by (simpl in Hw; tauto).
      simpl negb. simpl is_some_pfx. rewrite andb_true_l.
      destruct (COMP_NODE_PREFIX (Node bm (Some x) dm lm rm) Q) eqn:Ec; simpl negb; cbv iota.
      * apply HB; auto; [|discriminate].
        intros _ y Hy.
        assert (HQx : contains Q x).
        { unfold COMP_NODE_PREFIX in Ec. simpl node_prefix in Ec. cbv iota in Ec.
          apply comp_with_mask_spec in Ec.
          destruct (le_dec (bitlen Q) (bitlen x)) as [Hle|Hle].
          - rewrite Nat.min_r in Ec by exact Hle.
            split; [congruence|]. split; [exact Hle|]. apply agree_sym, Ec.
          - rewrite Nat.min_l in Ec by lia.
            exfalso. apply Hle, (Hns x Hx). split; [congruence|]. split; [lia | exact Ec]. }
        exact (contains_trans _ _ _ HQx (root_contains _ _ _ _ _ _ _ Hw Hy)).
      * destruct (node_prefix (get (Node bm (Some x) dm lm rm) s)) as [y|] eqn:Ey; [|reflexivity].
        destruct (containsb_spec Q y) as [HQy|]; [|reflexivity]. exfalso.
        exact (comp_false_not_contained (Node bm (Some x) dm lm rm) x Q y eq_refl Ec
                 (root_contains _ _ _ _ _ _ _ Hw (InR_get _ _ _ Ey)) HQy).
    + simpl negb. simpl is_some_pfx. rewrite andb_false_r. cbv iota. rewrite orb_false_r.
      apply HB; auto; intros; discriminate.
Qed.

Lemma covered_calls_count fam Q : forall n c ctx s,
  wf fam n -> family Q = fam ->
  (forall q, InR q n -> contains q Q -> bitlen Q <= bitlen q) ->
  (c = true -> forall q, InR q n -> contains Q q) ->
  (c = false -> forall q, node_prefix n = Some q -> contains Q q) ->
  count_occ nodeptr_eq_dec (covered_calls fam Q c n ctx) (mk_nodeptr fam (path_of ctx ++ s)) =
  match node_prefix (get n s) with Some q => if containsb Q q then 1 else 0 | None => 0 end.
Proof.
  induction n as [|b p d l IHl r IHr]; intros c ctx s Hw HfQ Hns Hct Hcf.
  - rewrite get_NULL. reflexivity.
  - rewrite covered_calls_node, !count_occ_app.
    pose proof Hw as Hw2. apply wf_node_inv in Hw2. destruct Hw2 as (_ & _ & _ & _ & _ & _ & Hwl & Hwr).
    assert (Hl : forall c, path_of (Frame b p d DL r :: ctx) ++ c = path_of ctx ++ DL :: c)
      by (intros c0; rewrite path_of_cons, <- app_assoc; reflexivity).
    assert (Hr : forall c, path_of (Frame b p d DR l :: ctx) ++ c = path_of ctx ++ DR :: c)
      by (intros c0; rewrite path_of_cons, <- app_assoc; reflexivity).
    assert (Hself : count_occ nodeptr_eq_dec
              match p with Some _ => [mk_nodeptr fam (path_of ctx)] | None => [] end
              (mk_nodeptr fam (path_of ctx ++ s)) =
              match s with [] => match p with Some _ => 1 | None => 0 end | _ => 0 end).
    { destruct p as [q|]; [|destruct s; reflexivity].
      destruct s as [|y s].
      - rewrite app_nil_r, count_occ_cons_eq by reflexivity. reflexivity.
      - rewrite count_occ_cons_neq; [reflexivity|]. intros E.
        rewrite <- (app_nil_r (path_of ctx)) in E at 1. apply mk_nodeptr_app_inj in E. discriminate. }
    rewrite Hself. clear Hself.
    destruct s as [|x s'].
    + rewrite !count_child_none;
        [| intros c0 E; rewrite Hr in E; apply mk_nodeptr_app_inj in E; discriminate
         | intros c0 E; rewrite Hl in E; apply mk_nodeptr_app_inj in E; discriminate].
      rewrite get_nil. simpl node_prefix. destruct p as [q|]; [|reflexivity].
      destruct (containsb_spec Q q) as [|Hn]; [reflexivity|]. exfalso. apply Hn.
      destruct c; [apply Hct; [reflexivity | left; reflexivity] | apply Hcf; reflexivity].
    + destruct x.
      * rewrite <- Hl, (covered_child_count_of fam Q c l _ s' (fun c1 x1 s1 w1 => IHl c1 x1 s1 w1 HfQ) Hwl HfQ).
        -- rewrite (count_child_none fam Q c r); [simpl; lia|].
           intros c0 E. rewrite Hl, Hr in E. apply mk_nodeptr_app_inj in E. discriminate.
        -- intros q Hq. apply Hns. simpl; tauto.
        -- intros Ec q Hq. apply Hct; [exact Ec | simpl; tauto].
      * rewrite <- Hr, (covered_child_count_of fam Q c r _ s' (fun c1 x1 s1 w1 => IHr c1 x1 s1 w1 HfQ) Hwr HfQ).
        -- rewrite (count_child_none fam Q c l); [simpl; lia|].
           intros c0 E. rewrite Hl, Hr in E. apply mk_nodeptr_app_inj in E. discriminate.
        -- intros q Hq. apply Hns. simpl; tauto.
        -- intros Ec q Hq. apply Hct; [exact Ec | simpl; tauto].
Qed.

Lemma covered_kids_count fam Q c b p d l r ctx S s :
  wf fam (Node b p d l r) -> family Q = fam ->
  (forall q, InR q l -> contains q Q -> bitlen Q <= bitlen q) ->
  (forall q, InR q r -> contains q Q -> bitlen Q <= bitlen q) ->
  (c = true -> forall q, InR q (Node b p d l r) -> contains Q q) ->
  (forall y, In y S -> y = mk_nodeptr fam (path_of ctx)) ->
  count_occ nodeptr_eq_dec
    (covered_child fam Q c l (Frame b p d DL r :: ctx) ++ covered_child fam Q c r (Frame b p d DR l :: ctx) ++ S)
    (mk_nodeptr fam (path_of ctx ++ s)) =
  match s with
  | [] => count_occ nodeptr_eq_dec S (mk_nodeptr fam (path_of ctx))
  | _ => match node_prefix (get (Node b p d l r) s) with
         | Some q => if containsb Q q then 1 else 0 | None => 0 end
  end.
Proof.
  intros Hw HfQ Hnl Hnr Hct HS.
  pose proof Hw as Hw2. apply wf_node_inv in Hw2. destruct Hw2 as (_ & _ & _ & _ & _ & _ & Hwl & Hwr).
  rewrite !count_occ_app.
  assert (Hl : forall c, path_of (Frame b p d DL r :: ctx) ++ c = path_of ctx ++ DL :: c)
    by (intros c0; rewrite path_of_cons, <- app_assoc; reflexivity).
  assert (Hr : forall c, path_of (Frame b p d DR l :: ctx) ++ c = path_of ctx ++ DR :: c)
    by (intros c0; rewrite path_of_cons, <- app_assoc; reflexivity).
  assert (HB : forall m, wf fam m -> forall c' ctx' s', wf fam m ->
     (forall q, InR q m -> contains q Q -> bitlen Q <= bitlen q) ->
     (c' = true -> forall q, InR q m -> contains Q q) ->
     (c' = false -> forall q, node_prefix m = Some q -> contains Q q) ->
     count_occ nodeptr_eq_dec (covered_calls fam Q c' m ctx') (mk_nodeptr fam (path_of ctx' ++ s')) =
     match node_prefix (get m s') with Some q => if containsb Q q then 1 else 0 | None => 0 end)
    by (intros m _ c' ctx' s' Hw' Hn' Ht' Hf'; apply covered_calls_count; auto).
  destruct s as [|x s'].
  - rewrite app_nil_r, !count_child_none; [reflexivity| |];
      intros c0 E; [rewrite Hr in E | rewrite Hl in E];
      rewrite <- (app_nil_r (path_of ctx)) in E at 1; apply mk_nodeptr_app_inj in E; discriminate.
  - rewrite (proj1 (count_occ_not_In nodeptr_eq_dec S _)).
    2:{ intros Hin. apply HS in Hin. rewrite <- (app_nil_r (path_of ctx)) in Hin at 2.
        apply mk_nodeptr_app_inj in Hin. discriminate. }
    destruct x.
    + rewrite <- Hl, (covered_child_count_of fam Q c l _ s' (HB l Hwl) Hwl HfQ Hnl).
      * rewrite (count_child_none fam Q c r); [simpl; lia|].
        intros c0 E. rewrite Hl, Hr in E. apply mk_nodeptr_app_inj in E. discriminate.
      * intros Ec q Hq. apply Hct; [exact Ec | simpl; tauto].
    + rewrite <- Hr, (covered_child_count_of fam Q c r _ s' (HB r Hwr) Hwr HfQ Hnr).
      * rewrite (count_child_none fam Q c l); [simpl; lia|].
        intros c0 E. rewrite Hl, Hr in E. apply mk_nodeptr_app_inj in E. discriminate.
      * intros Ec q Hq. apply Hct; [exact Ec | simpl; tauto].
Qed.

Lemma covered_descend_spec P : forall n ctx prev pfx,
  exists path e prev' pfx',
    covered_descend P n ctx prev pfx = ((e, snd (locate n path ctx)), prev', pfx') /\
    e = get n path /\ qpath P n path /\
    (e = NULL \/ bitlen P <= node_bit e) /\
    (e = NULL -> (path = [] /\ prev' = prev) \/
       exists path0 x, path = path0 ++ [x] /\ prev' = Some (get n path0, snd (locate n path0 ctx))) /\
    (pfx' = pfx \/ exists path0 s, path = path0 ++ s /\ s <> [] /\ node_prefix (get n path0) <> None /\
       pfx' = Some (get n path0, snd (locate n path0 ctx))).
Proof.
  induction n as [|b p d l IHl r IHr]; intros ctx prev pfx.
  - exists [], NULL, prev, pfx. simpl. repeat split; auto.
  - simpl covered_descend.
    destruct (b <=? bitlen P) eqn:E1.
    2:{ exists [], (Node b p d l r), prev, pfx. apply Nat.leb_gt in E1.
        split; [reflexivity|]. split; [reflexivity|]. split; [exact I|].
        split; [right; simpl; lia|]. split; [intros; discriminate | left; reflexivity]. }
    destruct (b =? bitlen P) eqn:E2.
    { exists [], (Node b p d l r), (Some (Node b p d l r, ctx)), pfx. apply Nat.eqb_eq in E2.
      split; [reflexivity|]. split; [reflexivity|]. split; [exact I|].
      split; [right; simpl; lia|]. split; [intros; discriminate | left; reflexivity]. }
    apply Nat.leb_le in E1. apply Nat.eqb_neq in E2.
    set (pfx1 := match p with Some _ => Some (Node b p d l r, ctx) | None => pfx end).
    assert (Hp1 : pfx1 = pfx \/ node_prefix (Node b p d l r) <> None /\ pfx1 = Some (Node b p d l r, ctx))
      by (unfold pfx1; destruct p; [right; split; [discriminate | reflexivity] | left; reflexivity]).
    destruct (BIT_TEST_SEARCH_BIT (add P) b) eqn:E3.
    + destruct (IHr (Frame b p d DR l :: ctx) (Some (Node b p d l r, ctx)) pfx1)
        as (path & e & pv & pf & H1 & H2 & H3 & H4 & H5 & H6).
      exists (DR :: path), e, pv, pf. split; [exact H1|]. split; [exact H2|].
      split; [simpl; repeat split; auto; lia|]. split; [exact H4|]. split.
      * intros He. right. destruct (H5 He) as [[-> ->] | (path0 & x & -> & ->)].
        -- exists [], DR. auto.
        -- exists (DR :: path0), x. auto.
      * destruct H6 as [-> | (path0 & s & -> & Hs & Hn & ->)].
        -- destruct Hp1 as [-> | [Hn ->]]; [left; reflexivity|].
           right. exists [], (DR :: path). repeat split; auto. discriminate.
        -- right. exists (DR :: path0), s. auto.
    + destruct (IHl (Frame b p d DL r :: ctx) (Some (Node b p d l r, ctx)) pfx1)
        as (path & e & pv & pf & H1 & H2 & H3 & H4 & H5 & H6).
      exists (DL :: path), e, pv, pf. split; [exact H1|]. split; [exact H2|].
      split; [simpl; repeat split; auto; lia|]. split; [exact H4|]. split.
      * intros He. right. destruct (H5 He) as [[-> ->] | (path0 & x & -> & ->)].
        -- exists [], DL. auto.
        -- exists (DL :: path0), x. auto.
      * destruct H6 as [-> | (path0 & s & -> & Hs & Hn & ->)].
        -- destruct Hp1 as [-> | [Hn ->]]; [left; reflexivity|].
           right. exists [], (DL :: path). repeat split; auto. discriminate.
        -- right. exists (DL :: path0), s. auto.
Qed.

(** Every prefix contained in [Q] lies below the end of a path following
    [Q]'s bits. *)
Lemma qpath_contained fam Q : forall path n pq q,
  wf fam n -> qpath Q n path -> node_prefix (get n pq) = Some q -> contains Q q ->
  exists s, pq = path ++ s.
Proof.
  induction path as [|x path IH]; intros n pq q Hw Hq Hg Hc; [exists pq; reflexivity|].
  destruct n as [|b p d l r]; [destruct Hq|].
  destruct Hq as (Hb & Hbit & Hq).
  pose proof Hw as Hw2. apply wf_node_inv in Hw2.
  destruct Hw2 as (_ & Hgl & Hgr & Hsl & Hsr & _ & Hwl & Hwr).
  pose proof Hc as (_ & HQq & Ha).
  destruct pq as [|y pq].
  - rewrite get_nil in Hg. simpl in Hg. subst p. simpl in Hw. lia.
  - assert (HqB : BIT_TEST_SEARCH_BIT (add q) b = BIT_TEST_SEARCH_BIT (add Q) b) by (symmetry; apply Ha; lia).
    destruct x, y; simpl in Hg.
    + destruct (IH l pq q Hwl Hq Hg Hc) as [s ->]. exists s. reflexivity.
    + rewrite (Hsr q (InR_get _ _ _ Hg)), Hbit in HqB. discriminate.
    + rewrite (Hsl q (InR_get _ _ _ Hg)), Hbit in HqB. discriminate.
    + destruct (IH r pq q Hwr Hq Hg Hc) as [s ->]. exists s. reflexivity.
Qed.



Lemma path_eqb_true a : forall b, path_eqb a b = true -> a = b.
Proof.
  induction a as [|x a IH]; intros [|y b] H; try discriminate; [reflexivity|].
  simpl in H. apply andb_prop in H. destruct H as [Hx H].
  destruct x, y; try discriminate; rewrite (IH _ H); reflexivity.
Qed.

Lemma path_prefix_dec (a b : list dir) : {s | b = a ++ s} + {forall s, b <> a ++ s}.
Proof.
  revert b; induction a as [|x a IH]; intros b; [left; exists b; reflexivity|].
  destruct b as [|y b]; [right; intros s; discriminate|].
  destruct (IH b) as [[s Hs] | Hn].
  - destruct x, y; try (right; intros s' E; discriminate E); left; exists s; rewrite Hs; reflexivity.
  - right. intros s E. injection E as _ E. exact (Hn s E).
Qed.

Lemma family_dec (a b : addr_family) : {a = b} + {a <> b}.
Proof. decide equality. Qed.

Lemma covered_target_other t Q incl np :
  wf_tree t -> nfam np <> family Q -> covered_target t Q incl np = 0.
Proof.
  intros Hw Hne. destruct np as [nf pn]. unfold covered_target, node_at. simpl nfam in *. simpl npath.
  destruct (node_prefix (get (RADIX_HEAD t nf) pn)) as [q|] eqn:E; [|reflexivity].
  destruct (containsb_spec Q q) as [[Hfam _]|]; [|reflexivity]. exfalso.
  pose proof (wf_InR _ _ _ (proj1 (wf_tree_iff t) Hw nf) (InR_get _ _ _ E)) as [Hq _]. congruence.
Qed.

Lemma covered_target_zero t Q incl np :
  wf_tree t ->
  (forall pq q, node_prefix (get (RADIX_HEAD t (family Q)) pq) = Some q -> ~ contains Q q) ->
  covered_target t Q incl np = 0.
Proof.
  intros Hw H. destruct (family_dec (nfam np) (family Q)) as [E|Hne]; [|exact (covered_target_other t Q incl np Hw Hne)].
  destruct np as [nf pn]. unfold covered_target, node_at. simpl nfam in *. simpl npath. subst nf.
  destruct (node_prefix (get (RADIX_HEAD t (family Q)) pn)) as [q|] eqn:E; [|reflexivity].
  destruct (containsb_spec Q q) as [Hc|]; [|reflexivity]. exfalso. exact (H _ _ E Hc).
Qed.

Lemma covered_finish t Q incl c b p d l r nctx S :
  wf_tree t ->
  get (RADIX_HEAD t (family Q)) (path_of nctx) = Node b p d l r ->
  (forall q, InR q l -> contains q Q -> bitlen Q <= bitlen q) ->
  (forall q, InR q r -> contains q Q -> bitlen Q <= bitlen q) ->
  (c = true -> forall q, InR q (Node b p d l r) -> contains Q q) ->
  (forall y, In y S -> y = mk_nodeptr (family Q) (path_of nctx)) ->
  count_occ nodeptr_eq_dec S (mk_nodeptr (family Q) (path_of nctx)) =
    match p with
    | Some q => if containsb Q q then (if incl || (bitlen Q <? bitlen q) then 1 else 0) else 0
    | None => 0
    end ->
  (forall pq q, node_prefix (get (RADIX_HEAD t (family Q)) pq) = Some q -> contains Q q ->
     exists s, pq = path_of nctx ++ s) ->
  (forall s q, s <> [] -> node_prefix (get (Node b p d l r) s) = Some q -> contains Q q ->
     bitlen Q < bitlen q) ->
  forall np,
    count_occ nodeptr_eq_dec
      (covered_child (family Q) Q c l (Frame b p d DL r :: nctx) ++
       covered_child (family Q) Q c r (Frame b p d DR l :: nctx) ++ S) np =
    covered_target t Q incl np.
Proof.
  intros Hw Hg Hnl Hnr Hct HS HSc Hbelow Hstrict np.
  assert (Hwh : wf (family Q) (RADIX_HEAD t (family Q))) by (apply wf_tree_iff; exact Hw).
  assert (Hwn : wf (family Q) (Node b p d l r)) by (rewrite <- Hg; apply wf_get, Hwh).
  assert (HL : forall y, In y (covered_child (family Q) Q c l (Frame b p d DL r :: nctx) ++
                               covered_child (family Q) Q c r (Frame b p d DR l :: nctx) ++ S) ->
               exists s, y = mk_nodeptr (family Q) (path_of nctx ++ s)).
  { intros y Hy. apply in_app_or in Hy. destruct Hy as [Hy | Hy]; [|apply in_app_or in Hy; destruct Hy as [Hy | Hy]].
    - destruct (subtree_calls_paths _ _ _ _ (covered_child_sub _ _ _ _ _ _ Hy)) as [s E].
      exists (DL :: s). rewrite E, path_of_cons, <- app_assoc. reflexivity.
    - destruct (subtree_calls_paths _ _ _ _ (covered_child_sub _ _ _ _ _ _ Hy)) as [s E].
      exists (DR :: s). rewrite E, path_of_cons, <- app_assoc. reflexivity.
    - exists []. rewrite app_nil_r. exact (HS y Hy). }
  destruct (family_dec (nfam np) (family Q)) as [Ef|Hne].
  2:{ rewrite (covered_target_other t Q incl np Hw Hne). apply count_occ_not_In. intros Hin.
      destruct (HL _ Hin) as [s E]. rewrite E in Hne. exact (Hne eq_refl). }
  destruct np as [nf pn]. simpl nfam in Ef. subst nf.
  destruct (path_prefix_dec (path_of nctx) pn) as [[s ->] | Hnp].
  - rewrite (covered_kids_count (family Q) Q c b p d l r nctx S s Hwn eq_refl Hnl Hnr Hct HS).
    unfold covered_target, node_at. simpl nfam. simpl npath. rewrite get_app, Hg.
    destruct s as [|x s'].
    + rewrite HSc. reflexivity.
    + destruct (node_prefix (get (Node b p d l r) (x :: s'))) as [q|] eqn:E; [|reflexivity].
      destruct (containsb_spec Q q) as [Hc|]; [|reflexivity].
      rewrite (proj2 (Nat.ltb_lt _ _) (Hstrict (x :: s') q ltac:(discriminate) E Hc)), orb_true_r. reflexivity.
  - transitivity 0.
    + apply count_occ_not_In. intros Hin. destruct (HL _ Hin) as [s E].
      apply (f_equal npath) in E. exact (Hnp s E).
    + unfold covered_target, node_at. simpl nfam. simpl npath.
      destruct (node_prefix (get (RADIX_HEAD t (family Q)) pn)) as [q|] eqn:E; [|reflexivity].
      destruct (containsb_spec Q q) as [Hc|]; [|reflexivity].
      destruct (Hbelow _ _ E Hc) as [s Es]. contradiction (Hnp s Es).
Qed.

Lemma qpath_last Q : forall path0 x n, qpath Q n (path0 ++ [x]) ->
  exists b p d l r, get n path0 = Node b p d l r /\ b < bitlen Q /\
    BIT_TEST_SEARCH_BIT (add Q) b = match x with DL => false | DR => true end.
Proof.
  induction path0 as [|y path0 IH]; intros x n H; destruct n as [|b p d l r]; simpl in H;
    try (destruct H; fail).
  - exists b, p, d, l, r. tauto.
  - destruct H as (_ & _ & H). destruct y; apply IH in H; exact H.
Qed.

Lemma covered_counts t Q func incl :
  wf_tree t -> (forall x, func x = 0%Z) ->
  fst (radix_search_covered t Q func incl) = 0%Z /\
  forall np, count_occ nodeptr_eq_dec (snd (radix_search_covered t Q func incl)) np = covered_target t Q incl np.
Proof.
  intros Hw Hf.
  assert (Hwh : wf (family Q) (RADIX_HEAD t (family Q))) by (apply wf_tree_iff; exact Hw).
  assert (Hempty : (forall pq q, node_prefix (get (RADIX_HEAD t (family Q)) pq) = Some q -> ~ contains Q q) ->
     fst (0%Z, @nil nodeptr) = 0%Z /\
     forall np, count_occ nodeptr_eq_dec (snd (0%Z, @nil nodeptr)) np = covered_target t Q incl np).
  { intros H. split; [reflexivity|]. intros np. symmetry. apply covered_target_zero; auto. }
  unfold radix_search_covered.
  destruct (covered_descend_spec Q (RADIX_HEAD t (family Q)) [] None None)
    as (path & e & pv & pf & ED & He & Hq & Hb & Hnull & Hpf).
  rewrite ED.
  set (h := RADIX_HEAD t (family Q)) in *.
  pose proof (fun pq q Hg Hc => qpath_contained _ Q path h pq q Hwh Hq Hg Hc) as Hbelow.
  destruct e as [|b p d l r].
  - destruct (Hnull eq_refl) as [[-> ->] | (path0 & x & -> & ->)].
    + cbv beta iota. apply Hempty. intros pq q Hg _.
      rewrite get_nil in He. rewrite <- He, get_NULL in Hg. discriminate.
    + destruct (qpath_last Q path0 x h Hq) as (b & p & d & l & r & Eg & Hbl & Hbit).
      assert (HnoC : forall pq q, node_prefix (get h pq) = Some q -> ~ contains Q q).
      { intros pq q Hg Hc. destruct (Hbelow pq q Hg Hc) as [s ->].
        rewrite get_app, <- He, get_NULL in Hg. discriminate. }
      destruct (locate h path0 []) as [n' ctx'] eqn:El.
      destruct (locate_get _ _ _ _ _ El) as [En Ep]; [rewrite Eg; discriminate|].
      simpl in Ep. subst n'. cbv beta iota. cbn [fst snd]. rewrite Eg.
      destruct (match pf with Some (pn, _) => negb (COMP_NODE_PREFIX pn Q) | None => false end).
      { apply Hempty, HnoC. }
      set (chk := match pf with
                  | Some (_, pctx) => path_eqb (path_of pctx) (path_of ctx') && (bitlen Q <=? node_bit (Node b p d l r))
                  | None => false end).
      assert (Hc0 : chk = false).
      { unfold chk. destruct pf as [[pn pctx]|]; [|reflexivity].
        simpl node_bit. rewrite (proj2 (Nat.leb_gt _ _) Hbl), andb_false_r. reflexivity. }
      destruct (covered_loop_calls func Hf (family Q) Q incl (Node b p d l r) b p d l r ctx' chk [] [] 1 eq_refl)
        as (k' & _ & EL).
      rewrite EL, covered_loop_nil. cbn [fst snd app]. split; [reflexivity|].
      assert (Hcond : negb true || (if incl then bitlen Q <=? b else bitlen Q <? b) = false).
      { destruct incl; simpl; [apply Nat.leb_gt | apply Nat.ltb_ge]; lia. }
      rewrite Hcond.
      assert (Hwn : wf (family Q) (Node b p d l r)) by (rewrite <- Eg; apply wf_get, Hwh).
      pose proof Hwn as Hw2. apply wf_node_inv in Hw2.
      destruct Hw2 as (_ & Hgl & Hgr & Hsl & Hsr & _ & Hwl & Hwr).
      rewrite get_app, Eg in He. destruct x; simpl in He; rewrite get_nil in He.
      * (* the left child, on [Q]'s side, is empty *)
        subst l. intros np. refine (covered_finish t Q incl chk b p d NULL r ctx' [] Hw _ _ _ _ _ _ _ _ np).
        -- rewrite Ep. exact Eg.
        -- intros q [].
        -- intros q Hin (_ & Hle & Ha). exfalso.
           pose proof (child_lt_bit _ _ _ _ Hwr Hin Hgr) as Hbq.
           pose proof (Hsr q Hin) as Hs. rewrite (Ha b Hbq), Hbit in Hs. discriminate.
        -- rewrite Hc0. discriminate.
        -- intros y [].
        -- destruct p as [q|]; [|reflexivity]. destruct (containsb_spec Q q) as [Hc|]; [|reflexivity].
           exfalso. apply (HnoC path0 q); [rewrite Eg; reflexivity | exact Hc].
        -- intros pq q Hg Hc. contradiction (HnoC pq q Hg Hc).
        -- intros s q _ Hg Hc. exfalso. apply (HnoC (path0 ++ s) q); [rewrite get_app, Eg; exact Hg | exact Hc].
      * (* the right child, on [Q]'s side, is empty *)
        subst r. intros np. refine (covered_finish t Q incl chk b p d l NULL ctx' [] Hw _ _ _ _ _ _ _ _ np).
        -- rewrite Ep. exact Eg.
        -- intros q Hin (_ & Hle & Ha). exfalso.
           pose proof (child_lt_bit _ _ _ _ Hwl Hin Hgl) as Hbq.
           pose proof (Hsl q Hin) as Hs. rewrite (Ha b Hbq), Hbit in Hs. discriminate.
        -- intros q [].
        -- rewrite Hc0. discriminate.
        -- intros y [].
        -- destruct p as [q|]; [|reflexivity]. destruct (containsb_spec Q q) as [Hc|]; [|reflexivity].
           exfalso. apply (HnoC path0 q); [rewrite Eg; reflexivity | exact Hc].
        -- intros pq q Hg Hc. contradiction (HnoC pq q Hg Hc).
        -- intros s q _ Hg Hc. exfalso. apply (HnoC (path0 ++ s) q); [rewrite get_app, Eg; exact Hg | exact Hc].
  - (* the descent stops at a node testing a bit at or beyond [Q.bitlen] *)
    destruct Hb as [Hb|Hb]; [discriminate|]. simpl in Hb.
    assert (Hwn : wf (family Q) (Node b p d l r)) by (rewrite He; apply wf_get, Hwh).
    pose proof Hwn as Hw2. apply wf_node_inv in Hw2.
    destruct Hw2 as (_ & Hgl & Hgr & _ & _ & _ & Hwl & Hwr).
    destruct (locate h path []) as [n' ctx'] eqn:El.
    destruct (locate_get _ _ _ _ _ El) as [En Ep]; [rewrite <- He; discriminate|].
    simpl in Ep. cbv beta iota. cbn [fst snd].
    assert (Hnl : forall q, InR q l -> contains q Q -> bitlen Q <= bitlen q)
      by (intros q Hin _; pose proof (child_lt_bit _ _ _ _ Hwl Hin Hgl); lia).
    assert (Hnr : forall q, InR q r -> contains q Q -> bitlen Q <= bitlen q)
      by (intros q Hin _; pose proof (child_lt_bit _ _ _ _ Hwr Hin Hgr); lia).
    assert (Hbel : forall pq q, node_prefix (get h pq) = Some q -> contains Q q ->
                   exists s, pq = path_of ctx' ++ s) by (rewrite Ep; exact Hbelow).
    assert (Hst : forall s q, s <> [] -> node_prefix (get (Node b p d l r) s) = Some q -> contains Q q ->
                  bitlen Q < bitlen q).
    { intros [|y s] q Hs Hg _; [contradiction Hs; reflexivity|].
      destruct y; simpl in Hg; apply InR_get in Hg.
      - pose proof (child_lt_bit _ _ _ _ Hwl Hg Hgl). lia.
      - pose proof (child_lt_bit _ _ _ _ Hwr Hg Hgr). lia. }
    assert (Hg' : get h (path_of ctx') = Node b p d l r) by (rewrite Ep; symmetry; exact He).
    destruct p as [x|].
    + (* the node holds a prefix: it is [prefixed_node] *)
      assert (Hbx : bitlen x = b) by (simpl in Hwn; tauto).
      assert (Hfx : family x = family Q) by (simpl in Hwn; tauto).
      destruct (COMP_NODE_PREFIX (Node b (Some x) d l r) Q) eqn:Ec; cbn [negb].
      2:{ apply Hempty. intros pq q Hg Hc. destruct (Hbelow _ _ Hg Hc) as [s ->].
          apply (comp_false_not_contained (Node b (Some x) d l r) x Q q eq_refl Ec); [|exact Hc].
          apply (ancestor_contains _ h path s x q Hwh); [rewrite <- He; reflexivity | exact Hg]. }
      rewrite path_eqb_refl. simpl node_bit. rewrite (proj2 (Nat.leb_le _ _) Hb). cbn [andb].
      assert (HQx : contains Q x).
      { unfold COMP_NODE_PREFIX in Ec. simpl node_prefix in Ec. cbv iota in Ec.
        apply comp_with_mask_spec in Ec. rewrite Hbx, Nat.min_r in Ec by exact Hb.
        split; [congruence|]. split; [lia | apply agree_sym, Ec]. }
      destruct (covered_loop_calls func Hf (family Q) Q incl (Node b (Some x) d l r) b (Some x) d l r ctx' true [] [] 1 eq_refl)
        as (k' & _ & EL).
      rewrite EL, covered_loop_nil. cbn [fst snd app]. split; [reflexivity|].
      intros np. refine (covered_finish t Q incl true b (Some x) d l r ctx' _ Hw Hg' Hnl Hnr _ _ _ Hbel Hst np).
      * intros _ y Hy. exact (contains_trans _ _ _ HQx (root_contains _ _ _ _ _ _ _ Hwn Hy)).
      * intros y Hy. destruct (negb true || _); [destruct Hy as [<- | []]; reflexivity | destruct Hy].
      * destruct (containsb_spec Q x) as [_|Hn]; [|contradiction].
        rewrite Hbx. cbn [negb orb].
        destruct incl.
        -- rewrite (proj2 (Nat.leb_le _ _) Hb). cbn [orb]. apply count_occ_cons_eq. reflexivity.
        -- cbn [orb]. destruct (bitlen Q <? b); [apply count_occ_cons_eq; reflexivity | reflexivity].
    + (* a glue node: [prefixed_node], if any, lies above it *)
      assert (Hchk : match pf with
                     | Some (_, pctx) => path_eqb (path_of pctx) (path_of ctx') && (bitlen Q <=? node_bit (Node b None d l r))
                     | None => false end = false).
      { destruct Hpf as [-> | (path0 & s0 & -> & Hs0 & Hn0 & ->)]; [reflexivity|].
        destruct (locate h path0 []) as [n0 c0] eqn:El0.
        destruct (locate_get _ _ _ _ _ El0) as [_ Ep0];
          [intros E0; rewrite E0 in Hn0; exact (Hn0 eq_refl)|].
        simpl in Ep0. cbn [snd]. rewrite Ep0, Ep.
        destruct (path_eqb path0 (path0 ++ s0)) eqn:Eq; [|reflexivity].
        apply path_eqb_true in Eq. rewrite <- (app_nil_r path0) in Eq at 1.
        apply app_inv_head in Eq. subst s0. contradiction (Hs0 eq_refl). }
      destruct (match pf with Some (pn, _) => negb (COMP_NODE_PREFIX pn Q) | None => false end) eqn:Efail.
      { apply Hempty. intros pq q Hg Hc. destruct (Hbelow _ _ Hg Hc) as [s ->].
        destruct Hpf as [-> | (path0 & s0 & -> & Hs0 & Hn0 & ->)]; [discriminate|].
        destruct (node_prefix (get h path0)) as [x|] eqn:Ex; [|contradiction (Hn0 eq_refl)].
        apply negb_true_iff in Efail.
        apply (comp_false_not_contained (get h path0) x Q q Ex Efail); [|exact Hc].
        apply (ancestor_contains _ h path0 (s0 ++ s) x q Hwh Ex). rewrite app_assoc. exact Hg. }
      rewrite Hchk.
      destruct (covered_loop_calls func Hf (family Q) Q incl (Node b None d l r) b None d l r ctx' false [] [] 1 eq_refl)
        as (k' & _ & EL).
      rewrite EL, covered_loop_nil. cbn [fst snd app]. split; [reflexivity|].
      assert (HS : (if negb true || (if incl then bitlen Q <=? b else bitlen Q <? b)
                    then @nil nodeptr else []) = []) by (destruct (negb true || _); reflexivity).
      rewrite HS.
      intros np. refine (covered_finish t Q incl false b None d l r ctx' [] Hw Hg' Hnl Hnr _ _ _ Hbel Hst np).
      * discriminate.
      * intros y [].
      * reflexivity.
Qed.

(** ** Claims on the node counter and on lookup *)

(** C8 (failing input): inserting [10.0.0.0/8] into a new tree, then
    [11.0.0.0/8] with the new node allocated and the glue node not,
    reaches a tree whose [num_active_node] is 2 while one node hangs from
    [head_ipv4] and none from [head_ipv6]. *)
Theorem C8_counter_exceeds_count :
  reachable (add_active tree_10_8 1) /\
  radix_lookup_m [true; false] tree_10_8 (v4 x0b x00 x00 x00 8) = LNoMem (add_active tree_10_8 1) /\
  num_active_node (add_active tree_10_8 1) = 2%Z /\
  count_nodes (head_ipv4 (add_active tree_10_8 1)) + count_nodes (head_ipv6 (add_active tree_10_8 1)) = 1.
Proof.
  assert (Hl : radix_lookup_m [true; false] tree_10_8 (v4 x0b x00 x00 x00 8) = LNoMem (add_active tree_10_8 1))
    by (vm_compute; reflexivity).
  split.
  - apply (reach_nomem tree_10_8 (v4 x0b x00 x00 x00 8) [true; false]).
    + apply reachable_insert_all; [exact reach_new | vm_compute; reflexivity].
    + apply Nat.leb_le. vm_compute. reflexivity.
    + exact Hl.
  - split; [exact Hl|]. vm_compute. split; reflexivity.
Qed.

(** C10: in every reachable tree, [radix_lookup] of any prefix, whatever the
    outcome of its allocations, never tests an address bit at an index
    outside the family's bit width: the descent and the new-below, new-above
    and fork branches only read bits under their guards. *)
Theorem C10_lookup_bits_in_range m t P :
  reachable t -> radix_lookup_m m t P <> LFault BitOutOfRange.
Proof. intros H. apply lookup_no_bitfault, reachable_wf, H. Qed.

Lemma C10_witness :
  reachable tree_10_8 /\ radix_lookup_m [] tree_10_8 (v4 x0a x01 x02 x03 32) <> LFault BitOutOfRange.
Proof.
  assert (H : reachable tree_10_8)
    by (apply reachable_insert_all; [exact reach_new | vm_compute; reflexivity]).
  split; [exact H | apply C10_lookup_bits_in_range; exact H].
Defined.

(** C7 (failing input): in the reachable tree [{10.0.0.0/8}], inserting
    [11.0.0.0/8] needs a glue node at bit 7; when the new node is allocated
    but the glue node is not, [radix_lookup] returns NULL (OutOfMemory) with
    [num_active_node] raised from 1 to 2 while the tree still has one node:
    the new node is neither linked nor freed, and the counter is not
    restored. *)
Theorem C7_glue_alloc_failure_leaks :
  reachable tree_10_8 /\
  radix_lookup_m [true; false] tree_10_8 (v4 x0b x00 x00 x00 8) = LNoMem (add_active tree_10_8 1) /\
  num_active_node tree_10_8 = 1%Z /\
  num_active_node (add_active tree_10_8 1) = 2%Z /\
  count_tree (add_active tree_10_8 1) = 1.
Proof.
  split; [apply reachable_insert_all; [exact reach_new | vm_compute; reflexivity]|].
  vm_compute. repeat split; reflexivity.
Qed.

(** ** Claims on removal and on the generation counter *)

(** C4 (amended): deleting a stored prefix from a reachable tree removes
    its node: [radix_remove] succeeds and [Radix.delete] sets [gen_id] to
    [gen_id + 1] (as an unsigned int).  A node with two children only
    becomes a glue node (same bit and children, prefix and data cleared),
    so [num_active_node] is unchanged; a node with one child is removed and
    the counter drops by 1; a leaf is removed and the counter drops by 2
    when its parent is a glue node (which goes too) and by 1 otherwise.  In
    every case the counter drops by the number of nodes that leave the
    tree. *)
Theorem C4_remove_counters self P np :
  reachable (rt self) -> radix_search_exact (rt self) P = Some np ->
  exists t', radix_remove (rt self) np = Some t' /\
    Radix_delete self P = PyOk (mk_radix_obj t' (gen_incr (gen_id self))) tt /\
    (Z.of_nat (count_tree t') - num_active_node t' =
     Z.of_nat (count_tree (rt self)) - num_active_node (rt self))%Z /\
    match node_at (rt self) np with
    | Node b _ _ l r =>
        match l, r with
        | Node _ _ _ _ _, Node _ _ _ _ _ =>
            node_at t' np = Node b None None l r /\ num_active_node t' = num_active_node (rt self)
        | NULL, NULL =>
            num_active_node t' =
              (num_active_node (rt self) - if glue_parent (rt self) np then 2 else 1)%Z
        | _, _ => num_active_node t' = (num_active_node (rt self) - 1)%Z
        end
    | NULL => False
    end.
Proof.
  intros Hr Hs. pose proof (reachable_wf _ Hr) as Hw.
  destruct (remove_num (rt self) np Hw (search_exact_real _ _ _ Hs)) as (t' & Ht' & Hn).
  exists t'. split; [exact Ht'|]. split; [|split; [exact (proj2 (remove_wf _ _ _ Hw Ht')) | exact Hn]].
  unfold Radix_delete. rewrite Hs, Ht'. reflexivity.
Qed.

Lemma C4_witness :
  reachable (rt (mk_radix_obj tree_10_8_kids 0)) /\
  radix_search_exact (rt (mk_radix_obj tree_10_8_kids 0)) (v4 x0a x00 x00 x00 8) =
    Some (mk_nodeptr AF_INET []) /\
  exists t', radix_remove tree_10_8_kids (mk_nodeptr AF_INET []) = Some t' /\
    Radix_delete (mk_radix_obj tree_10_8_kids 0) (v4 x0a x00 x00 x00 8) =
      PyOk (mk_radix_obj t' (gen_incr 0)) tt /\
    (Z.of_nat (count_tree t') - num_active_node t' =
     Z.of_nat (count_tree tree_10_8_kids) - num_active_node tree_10_8_kids)%Z /\
    match node_at tree_10_8_kids (mk_nodeptr AF_INET []) with
    | Node b _ _ l r =>
        match l, r with
        | Node _ _ _ _ _, Node _ _ _ _ _ =>
            node_at t' (mk_nodeptr AF_INET []) = Node b None None l r /\
            num_active_node t' = num_active_node tree_10_8_kids
        | NULL, NULL =>
            num_active_node t' =
              (num_active_node tree_10_8_kids -
               if glue_parent tree_10_8_kids (mk_nodeptr AF_INET []) then 2 else 1)%Z
        | _, _ => num_active_node t' = (num_active_node tree_10_8_kids - 1)%Z
        end
    | NULL => False
    end.
Proof.
  assert (Hr : reachable (rt (mk_radix_obj tree_10_8_kids 0)))
    by (apply reachable_insert_all; [exact reach_new | vm_compute; reflexivity]).
  assert (Hs : radix_search_exact (rt (mk_radix_obj tree_10_8_kids 0)) (v4 x0a x00 x00 x00 8) =
               Some (mk_nodeptr AF_INET [])) by (vm_compute; reflexivity).
  split; [exact Hr|]. split; [exact Hs|].
  exact (C4_remove_counters (mk_radix_obj tree_10_8_kids 0) _ _ Hr Hs).
Defined.

(** C4 (counterexample): in the reachable tree [{10/8, 10.0/16, 10.128/16}]
    the node of [10/8] holds a prefix and has two children; removing it
    leaves [num_active_node] at 3. *)
Lemma C4_counterexample :
  reachable tree_10_8_kids /\
  node_prefix (node_at tree_10_8_kids (mk_nodeptr AF_INET [])) = Some (v4 x0a x00 x00 x00 8) /\
  exists t', radix_remove tree_10_8_kids (mk_nodeptr AF_INET []) = Some t' /\
    num_active_node tree_10_8_kids = 3%Z /\ num_active_node t' = 3%Z.
Proof.
  split; [apply reachable_insert_all; [exact reach_new | vm_compute; reflexivity]|].
  split; [vm_compute; reflexivity|].
  eexists. split; [reflexivity|]. vm_compute. split; reflexivity.
Qed.

(** C5 (amended): [gen_id] is incremented (modulo 2^32) by every [Radix.add]
    that returns a node, also when the prefix was already stored and no
    node is created, and by every successful [Radix.delete]; an add or a
    delete that raises leaves it unchanged, and changing a node object's
    user data does not touch the tree object at all. *)
Theorem C5_gen_id_changes m o self P :
  (forall self' v, Radix_add m o self P = PyOk self' v -> gen_id self' = gen_incr (gen_id self)) /\
  (forall self' e, Radix_add m o self P = PyErr self' e -> gen_id self' = gen_id self) /\
  (forall self' v, Radix_delete self P = PyOk self' v -> gen_id self' = gen_incr (gen_id self)) /\
  (forall self' e, Radix_delete self P = PyErr self' e -> gen_id self' = gen_id self) /\
  (forall w obj k v, radix (set_user_attr w obj k v) = radix w).
Proof.
  unfold Radix_add, create_add_node, Radix_delete.
  split; [|split; [|split; [|split]]]; intros *.
  - destruct (radix_lookup_m m (rt self) P) as [t' np| |]; try discriminate.
    destruct (node_at t' np) as [|b p [d|] l r]; [discriminate | |];
      [|destruct o]; intros H; inversion H; reflexivity.
  - destruct (radix_lookup_m m (rt self) P) as [t' np| |]; try discriminate;
      [|intros H; inversion H; reflexivity].
    destruct (node_at t' np) as [|b p [d|] l r]; [discriminate | discriminate |];
      destruct o; intros H; inversion H; reflexivity.
  - destruct (radix_search_exact (rt self) P); [|discriminate].
    destruct (radix_remove (rt self) n); [|discriminate]. intros H; inversion H; reflexivity.
  - destruct (radix_search_exact (rt self) P); [|intros H; inversion H; reflexivity].
    destruct (radix_remove (rt self) n); discriminate.
  - reflexivity.
Qed.

(** C5 (counterexample): adding [10.0.0.0/8] twice to a new tree; the
    second add creates no node (the tree is unchanged) but still moves
    [gen_id] from 1 to 2. *)
Lemma C5_counterexample :
  exists self1 self2,
    Radix_add [] (Some 1) (mk_radix_obj New_Radix 0) (v4 x0a x00 x00 x00 8) = PyOk self1 1 /\
    Radix_add [] (Some 2) self1 (v4 x0a x00 x00 x00 8) = PyOk self2 1 /\
    rt self2 = rt self1 /\ gen_id self1 = 1%Z /\ gen_id self2 = 2%Z.
Proof.
  do 2 eexists. split; [reflexivity|]. split; [reflexivity|].
  split; [reflexivity|]. split; reflexivity.
Qed.

(** ** Claims on lookup and on the prefix order *)

(** C3: in every reachable tree, a lookup of any (well-formed) prefix
    succeeds, and a second lookup of the same prefix returns the same node
    and leaves the tree, its structure and [num_active_node], as the first
    call left it (whatever the allocator would do). *)
Theorem C3_lookup_twice t P :
  reachable t -> valid_prefix P ->
  exists t1 np, radix_lookup t P = LOk t1 np /\
                forall m, radix_lookup_m m t1 P = LOk t1 np.
Proof.
  intros Hr Hv. pose proof (lookup_wf [] t P (reachable_wf t Hr) Hv) as H.
  unfold radix_lookup. destruct (radix_lookup_m [] t P) as [t1 np|t1|f] eqn:E.
  - destruct H as (Hw1 & _ & Hf & q & d & l & r & Hn & Ha).
    exists t1, np. split; [reflexivity|]. intros m. exact (lookup_stored m t1 P np q d l r Hw1 Hf Hn Ha).
  - exfalso. exact (lookup_nil_no_nomem t P t1 E).
  - contradiction.
Qed.

Lemma C3_witness :
  reachable tree_10_8 /\ valid_prefix (v4 x0a x00 x00 x00 16) /\
  exists t1 np, radix_lookup tree_10_8 (v4 x0a x00 x00 x00 16) = LOk t1 np /\
                forall m, radix_lookup_m m t1 (v4 x0a x00 x00 x00 16) = LOk t1 np.
Proof.
  assert (Hr : reachable tree_10_8)
    by (apply reachable_insert_all; [exact reach_new | vm_compute; reflexivity]).
  assert (Hv : valid_prefix (v4 x0a x00 x00 x00 16)) by (vm_compute; lia).
  split; [exact Hr|]. split; [exact Hv|]. exact (C3_lookup_twice _ _ Hr Hv).
Defined.

(** C9: in every reachable tree, if a node [A] holding prefix [qa] has a
    node [D] holding [qd] in its subtree (at [A]'s path followed by
    [sigma]), then [qa] contains [qd]: same family, [qa] no longer, and the
    two agree on the first [bitlen qa] bits. *)
Theorem C9_ancestor_contains t fam pa sigma qa qd :
  reachable t ->
  node_prefix (node_at t (mk_nodeptr fam pa)) = Some qa ->
  node_prefix (node_at t (mk_nodeptr fam (pa ++ sigma))) = Some qd ->
  contains qa qd.
Proof.
  intros Hr Ha Hd. unfold node_at in Ha, Hd. simpl in Ha, Hd. rewrite get_app in Hd.
  assert (Hw : wf fam (get (RADIX_HEAD t fam) pa))
    by (apply wf_get, wf_tree_iff, reachable_wf, Hr).
  destruct (get (RADIX_HEAD t fam) pa) as [|b p d l r] eqn:Eg; [discriminate|].
  simpl in Ha. subst p.
  assert (HInd : InR qd (Node b (Some qa) d l r)) by (apply (InR_get _ sigma), Hd).
  pose proof (wf_InR _ _ _ Hw HInd) as [Hfd _].
  pose proof (wf_bits_below _ _ _ Hw HInd) as Hbd. simpl in Hbd.
  pose proof Hw as Hw2. simpl in Hw2. destruct Hw2 as ([Hfa Hba] & _ & _ & _ & _ & _ & Hpair & _).
  split; [congruence|]. split; [lia|].
  rewrite Hba. apply Hpair; [left; reflexivity | exact HInd].
Qed.

Lemma C9_witness :
  reachable tree_10_8_kids /\
  node_prefix (node_at tree_10_8_kids (mk_nodeptr AF_INET [])) = Some (v4 x0a x00 x00 x00 8) /\
  node_prefix (node_at tree_10_8_kids (mk_nodeptr AF_INET ([] ++ [DR]))) = Some (v4 x0a x80 x00 x00 16) /\
  contains (v4 x0a x00 x00 x00 8) (v4 x0a x80 x00 x00 16).
Proof.
  assert (Hr : reachable tree_10_8_kids)
    by (apply reachable_insert_all; [exact reach_new | vm_compute; reflexivity]).
  assert (Ha : node_prefix (node_at tree_10_8_kids (mk_nodeptr AF_INET [])) =
               Some (v4 x0a x00 x00 x00 8)) by (vm_compute; reflexivity).
  assert (Hd : node_prefix (node_at tree_10_8_kids (mk_nodeptr AF_INET ([] ++ [DR]))) =
               Some (v4 x0a x80 x00 x00 16)) by (vm_compute; reflexivity).
  split; [exact Hr|]. split; [exact Ha|]. split; [exact Hd|].
  exact (C9_ancestor_contains _ _ _ _ _ _ Hr Ha Hd).
Defined.

(** ** Claim on the best-match search *)

(** C1: in every reachable tree, [radix_search_best2 Q inclusive] returns a
    node holding a prefix [q] that contains [Q] and, among the stored
    prefixes containing [Q], has the largest length; with [inclusive =
    false] only prefixes strictly shorter than [Q] (node bit different
    from [Q.bitlen]) count.  It returns [None] exactly when no stored
    prefix qualifies.  [radix_search_best] is the [inclusive = true] case. *)
Theorem C1_search_best t Q incl :
  reachable t ->
  match radix_search_best2 t Q incl with
  | Some np =>
      exists q, node_prefix (node_at t np) = Some q /\ contains q Q /\
        (incl = false -> bitlen q < bitlen Q) /\
        forall q', stored t q' -> contains q' Q -> (incl = false -> bitlen q' < bitlen Q) ->
                   bitlen q' <= bitlen q
  | None =>
      forall q', stored t q' -> contains q' Q -> (incl = false -> bitlen q' < bitlen Q) -> False
  end.
Proof.
  intros Hr. pose proof (reachable_wf t Hr) as Hw.
  assert (Hwh : wf (family Q) (RADIX_HEAD t (family Q))) by (apply wf_tree_iff; exact Hw).
  assert (Hcand : forall q', stored t q' -> contains q' Q -> (incl = false -> bitlen q' < bitlen Q) ->
            exists e d l r, In e (best_push Q incl (RADIX_HEAD t (family Q)) [] []) /\
              fst e = Node (bitlen q') (Some q') d l r /\ best_cand Q e = true).
  { intros q' Hs [Hf [Hle Hag]] Hi.
    pose proof (stored_in_head t q' (family Q) Hw Hs Hf) as Hin.
    destruct (best_push_complete (family Q) Q incl q' _ [] [] Hwh Hin Hle Hag) as (e & d & l & r & He & Hfe).
    { destruct incl; [left; reflexivity | right; specialize (Hi eq_refl); lia]. }
    exists e, d, l, r. split; [exact He|]. split; [exact Hfe|].
    destruct e as [n c]. simpl in Hfe. subst n. apply best_cand_node. auto. }
  unfold radix_search_best2, search_best2_z.
  destruct (RADIX_HEAD t (family Q)) as [|hb hp hd hl hr] eqn:Eh.
  - intros q' Hs Hc Hi. destruct (Hcand q' Hs Hc Hi) as (e & _ & _ & _ & He & _). simpl in He. exact He.
  - set (h := Node hb hp hd hl hr) in *.
    destruct (best_pop Q (best_push Q incl h [] [])) as [[n ctx]|] eqn:Ep.
    + pose proof (best_pop_some _ _ _ Ep) as [Hin Hc].
      destruct (best_push_in Q incl h [] [] _ Hin) as [[] | (cd & b & q & d & l & r & H1 & H2 & H3 & H4 & H5)].
      simpl in H1, H2, H3. rewrite app_nil_r in H1. subst cd n.
      assert (Hwn : wf (family Q) (Node b (Some q) d l r)) by (eapply wf_zip_inv; rewrite H2; exact Hwh).
      assert (Hfq : family q = family Q /\ bitlen q = b) by (simpl in Hwn; tauto).
      destruct Hfq as [Hfq Hbq]. subst b.
      apply best_cand_node in Hc. destruct Hc as [Hag Hle].
      exists q. split.
      { unfold node_at. simpl. rewrite Eh. fold h. rewrite <- H2, get_zip. reflexivity. }
      split; [split; [exact Hfq | split; assumption]|].
      split; [intros Hi; subst incl; destruct H5 as [E | E]; [discriminate | lia]|].
      intros q' Hs Hc' Hi. destruct (Hcand q' Hs Hc' Hi) as (e & d' & l' & r' & He & Hfe & Hce).
      assert (Hsort : StronglySorted deeper (best_push Q incl h [] [])).
      { apply (best_push_sorted (family Q)); [exact Hwh | constructor | intros x []]. }
      pose proof (best_pop_max Q _ _ Ep Hsort e He Hce) as Hm.
      rewrite Hfe in Hm. simpl in Hm. exact Hm.
    + intros q' Hs Hc Hi. destruct (Hcand q' Hs Hc Hi) as (e & _ & _ & _ & He & _ & Hce).
      rewrite (best_pop_none _ _ Ep e He) in Hce. discriminate.
Qed.

Lemma C1_witness :
  reachable tree_10_8_kids /\
  match radix_search_best2 tree_10_8_kids (v4 x0a x80 x05 x00 24) true with
  | Some np =>
      exists q, node_prefix (node_at tree_10_8_kids np) = Some q /\ contains q (v4 x0a x80 x05 x00 24) /\
        (true = false -> bitlen q < bitlen (v4 x0a x80 x05 x00 24)) /\
        forall q', stored tree_10_8_kids q' -> contains q' (v4 x0a x80 x05 x00 24) ->
                   (true = false -> bitlen q' < bitlen (v4 x0a x80 x05 x00 24)) ->
                   bitlen q' <= bitlen q
  | None =>
      forall q', stored tree_10_8_kids q' -> contains q' (v4 x0a x80 x05 x00 24) ->
                 (true = false -> bitlen q' < bitlen (v4 x0a x80 x05 x00 24)) -> False
  end.
Proof.
  assert (Hr : reachable tree_10_8_kids)
    by (apply reachable_insert_all; [exact reach_new | vm_compute; reflexivity]).
  split; [exact Hr | exact (C1_search_best tree_10_8_kids (v4 x0a x80 x05 x00 24) true Hr)].
Defined.

(** ** Claim on the iterator *)

(** C6: [next] on an iterator raises (the [RuntimeWarning] "Radix tree
    modified during iteration") exactly when the generation it captured
    differs from the tree's.  Otherwise it yields the first object still
    pending (the payloads of the nodes with a prefix and a payload, in
    preorder, IPv4 tree then IPv6 tree) or ends the iteration when none is
    left; a fresh iterator has all of them pending.  After a successful
    [Radix.add] the next call raises, while setting a node object's user
    data changes nothing [next] reads. *)
Theorem C6_iterator self it :
  (fst (RadixIter_iternext self it) = IterError <-> it_gen_id it <> gen_id self) /\
  (iter_ok it -> it_gen_id it = gen_id self ->
     match RadixIter_iternext self it with
     | (IterNext o, it') => pending self it = o :: pending self it' /\ iter_ok it' /\
                            it_gen_id it' = it_gen_id it
     | (IterStop, _) => pending self it = []
     | (IterError, _) => False
     end) /\
  (iter_ok (newRadixIterObject self) /\ it_gen_id (newRadixIterObject self) = gen_id self /\
   pending self (newRadixIterObject self) =
     preorder_objs (head_ipv4 (rt self)) ++ preorder_objs (head_ipv6 (rt self))) /\
  (forall m obj P self' v, it_gen_id it = gen_id self -> Radix_add m obj self P = PyOk self' v ->
     fst (RadixIter_iternext self' it) = IterError) /\
  (forall w o k v, radix w = self ->
     RadixIter_iternext (radix (set_user_attr w o k v)) it = RadixIter_iternext self it).
Proof.
  unfold RadixIter_iternext.
  split; [|split; [|split; [|split]]].
  - destruct (Z.eqb_spec (it_gen_id it) (gen_id self)) as [E|E]; simpl.
    + split; [intros H; exfalso; exact (iter_again_no_error self _ _ H) | intros H; contradiction].
    + split; [intros _; exact E | reflexivity].
  - intros Hok Hg. apply Z.eqb_eq in Hg. rewrite Hg. simpl negb. cbv iota.
    apply iter_again_spec; [exact Hok|]. unfold iter_measure, iter_fuel.
    destruct (af it); lia.
  - split; [|split; [reflexivity|]].
    + unfold iter_ok. simpl. split; [reflexivity | constructor].
    + unfold pending. simpl. reflexivity.
  - intros m obj P self' v Hg Hadd. apply add_ok_gen in Hadd. rewrite Hadd, Hg.
    destruct (Z.eqb_spec (gen_id self) (gen_incr (gen_id self))) as [E|E];
      [exfalso; apply (gen_incr_neq (gen_id self)); symmetry; exact E | reflexivity].
  - intros w o k v <-. reflexivity.
Qed.

(** ** Claim on the covering and covered enumerations *)

(** C2: in a reachable tree, for stored prefixes [P] (at node [npP]) and
    [Q] (at node [npQ]) with [Q] containing [P], and a callback that always
    returns 0, [radix_search_covered] of [Q] with [inclusive = true] calls
    the callback on [npP] exactly once, and [radix_search_covering] of [P]
    calls it on [npQ] exactly once. *)
Theorem C2_covered_covering t P Q npP npQ func :
  reachable t -> (forall x, func x = 0%Z) ->
  node_prefix (node_at t npP) = Some P ->
  node_prefix (node_at t npQ) = Some Q ->
  contains Q P ->
  count_occ nodeptr_eq_dec (snd (radix_search_covered t Q func true)) npP = 1 /\
  count_occ nodeptr_eq_dec (snd (radix_search_covering t P func)) npQ = 1.
Proof.
  intros Hr Hf HP HQ [Hfam [Hle Hag]].
  pose proof (reachable_wf t Hr) as Hw.
  destruct npP as [fP pP], npQ as [fQ pQ]. unfold node_at in HP, HQ. simpl in HP, HQ.
  assert (EfP : family P = fP)
    by exact (proj1 (wf_InR _ _ _ (proj1 (wf_tree_iff t) Hw fP) (InR_get _ _ _ HP))).
  assert (EfQ : family Q = fQ)
    by exact (proj1 (wf_InR _ _ _ (proj1 (wf_tree_iff t) Hw fQ) (InR_get _ _ _ HQ))).
  subst fP fQ. rewrite Hfam in HQ |- *.
  assert (Hwh : wf (family P) (RADIX_HEAD t (family P))) by (apply wf_tree_iff; exact Hw).
  set (h := RADIX_HEAD t (family P)) in *.
  destruct (in_subtree _ pQ h pP P Q Hwh HP HQ Hle Hag) as [sigma Epp].
  split.
  - destruct (get h pQ) as [|bq pq dq lq rq] eqn:EQ; [discriminate|]. simpl in HQ. subst pq.
    assert (Hbq : bq = bitlen Q).
    { pose proof (wf_get _ _ pQ Hwh) as Hwg. rewrite EQ in Hwg. simpl in Hwg. symmetry; tauto. }
    subst bq.
    unfold radix_search_covered. rewrite Hfam. fold h.
    rewrite <- Hfam in Hwh.
    destruct (covered_descend_reaches Q Q dq lq rq pQ h [] None None Hwh EQ (agree_refl _ _)) as (pv & pf & E).
    rewrite E. destruct (locate h pQ []) as [n' ctxQ] eqn:El.
    apply locate_get in El; [|rewrite EQ; discriminate]. destruct El as [En' Ep]. simpl in Ep.
    rewrite EQ in En'. subst n'. rewrite EQ. cbn [fst snd].
    assert (Hcomp : COMP_NODE_PREFIX (Node (bitlen Q) (Some Q) dq lq rq) Q = true)
      by (apply comp_with_mask_spec, agree_refl).
    rewrite Hcomp. cbn [negb]. rewrite path_eqb_refl. simpl node_bit. rewrite Nat.leb_refl. cbn [andb].
    rewrite (covered_loop_subtree func Hf (family P) Q true); [| discriminate | right; apply Nat.leb_refl].
    cbn [covered_loop snd app]. rewrite Epp, <- Ep.
    rewrite (subtree_calls_count (family P)), <- EQ, <- get_app, <- Epp, HP. reflexivity.
  - unfold radix_search_covering.
    destruct (search_best_at_stored t P pP Hw HP) as (ctx & Eb & Ec & Ez).
    rewrite Eb. cbv iota.
    rewrite (covering_walk_calls func Hf). simpl app.
    rewrite (ancestor_calls_count (family P) ctx _ pQ sigma); [|rewrite Ec; exact Epp].
    rewrite Ez. fold h. rewrite HQ. reflexivity.
Qed.

Lemma C2_witness :
  reachable tree_10_8_kids /\
  (forall x : nodeptr, (fun _ : nodeptr => 0%Z) x = 0%Z) /\
  node_prefix (node_at tree_10_8_kids (mk_nodeptr AF_INET [DR])) = Some (v4 x0a x80 x00 x00 16) /\
  node_prefix (node_at tree_10_8_kids (mk_nodeptr AF_INET [])) = Some (v4 x0a x00 x00 x00 8) /\
  contains (v4 x0a x00 x00 x00 8) (v4 x0a x80 x00 x00 16) /\
  count_occ nodeptr_eq_dec
    (snd (radix_search_covered tree_10_8_kids (v4 x0a x00 x00 x00 8) (fun _ => 0%Z) true))
    (mk_nodeptr AF_INET [DR]) = 1 /\
  count_occ nodeptr_eq_dec
    (snd (radix_search_covering tree_10_8_kids (v4 x0a x80 x00 x00 16) (fun _ => 0%Z)))
    (mk_nodeptr AF_INET []) = 1.
Proof.
  assert (Hr : reachable tree_10_8_kids)
    by (apply reachable_insert_all; [exact reach_new | vm_compute; reflexivity]).
  assert (Hf : forall x : nodeptr, (fun _ : nodeptr => 0%Z) x = 0%Z) by reflexivity.
  assert (HP : node_prefix (node_at tree_10_8_kids (mk_nodeptr AF_INET [DR])) =
               Some (v4 x0a x80 x00 x00 16)) by (vm_compute; reflexivity).
  assert (HQ : node_prefix (node_at tree_10_8_kids (mk_nodeptr AF_INET [])) =
               Some (v4 x0a x00 x00 x00 8)) by (vm_compute; reflexivity).
  assert (Hc : contains (v4 x0a x00 x00 x00 8) (v4 x0a x80 x00 x00 16))
    by (split; [reflexivity | split; [simpl; lia | apply comp_with_mask_spec; vm_compute; reflexivity]]).
  split; [exact Hr|]. split; [exact Hf|]. split; [exact HP|]. split; [exact HQ|]. split; [exact Hc|].
  exact (C2_covered_covering _ _ _ _ _ _ Hr Hf HP HQ Hc).
Defined.

(* ------------------------------------------------------------------ *)
(** * Further properties of the entry points *)

(** [radix_search_exact] in a reachable tree finds exactly the node that
    holds [P]: a node of [P]'s family at bit [P.bitlen] whose prefix agrees
    with [P] on its first [P.bitlen] bits. *)
Theorem X_search_exact_iff t P np :
  reachable t -> (radix_search_exact t P = Some np <-> holds t np P).
Proof. intros Hr. apply search_exact_iff, reachable_wf, Hr. Qed.

(** [Radix.delete] raises [KeyError], leaving the object unchanged,
    exactly when no node of the reachable tree holds [P]. *)
Theorem X_delete_keyerror self P :
  reachable (rt self) ->
  (Radix_delete self P = PyErr self KeyError <-> ~ exists np, holds (rt self) np P).
Proof.
  intros Hr. pose proof (reachable_wf _ Hr) as Hw. unfold Radix_delete. split.
  - intros E [np Hh]. apply (search_exact_iff _ _ _ Hw) in Hh. rewrite Hh in E.
    destruct (radix_remove (rt self) np); discriminate.
  - intros Hn. destruct (radix_search_exact (rt self) P) as [np|] eqn:Es; [|reflexivity].
    exfalso. apply Hn. exists np. apply (search_exact_iff _ _ _ Hw), Es.
Qed.

(** After a successful [Radix.add] of a well-formed prefix [P],
    [Radix.search_exact P] returns the object the add returned. *)
Theorem X_add_search_exact m o self P self' v :
  reachable (rt self) -> valid_prefix P -> Radix_add m o self P = PyOk self' v ->
  Radix_search_exact self' P = Some v.
Proof.
  intros Hr Hv Ha. destruct (add_ok_holds m o self P self' v (reachable_wf _ Hr) Hv Ha) as (Hw' & np & Hh & Hd).
  unfold Radix_search_exact. rewrite (proj2 (search_exact_iff _ _ _ Hw') Hh). exact Hd.
Qed.

(** After a successful [Radix.add] of a well-formed prefix [P],
    [Radix.search_best P] returns the object the add returned. *)
Theorem X_add_search_best m o self P self' v :
  reachable (rt self) -> valid_prefix P -> Radix_add m o self P = PyOk self' v ->
  Radix_search_best self' P = Some v.
Proof.
  intros Hr Hv Ha. destruct (add_ok_holds m o self P self' v (reachable_wf _ Hr) Hv Ha) as (Hw' & np & Hh & Hd).
  unfold Radix_search_best, radix_search_best. rewrite (search_best_holds _ _ _ Hw' Hh). exact Hd.
Qed.

(** [Radix.add] of a well-formed prefix on a reachable tree never reaches
    undefined behaviour, whatever the allocator does: it returns a node
    object or raises [MemoryError]. *)
Theorem X_add_no_crash m o self P :
  reachable (rt self) -> valid_prefix P -> Radix_add m o self P <> PyCrash.
Proof.
  intros Hr Hv. unfold Radix_add, create_add_node.
  pose proof (lookup_wf m (rt self) P (reachable_wf _ Hr) Hv) as Hl.
  destruct (radix_lookup_m m (rt self) P) as [t' np | t' | f]; try discriminate; try contradiction.
  destruct Hl as (_ & _ & _ & q & d & l & r & Hg & _). rewrite Hg.
  destruct d; [discriminate|]. destruct o; discriminate.
Qed.

(** [radix_search_worst2] returns a node whose prefix contains [Q] with
    the smallest [bitlen] among the stored prefixes containing [Q] (those
    shorter than [Q] when [inclusive] is false), and [None] exactly when
    there is none. *)
Theorem X_search_worst t Q incl :
  reachable t ->
  match radix_search_worst2 t Q incl with
  | Some np =>
      exists q, node_prefix (node_at t np) = Some q /\ contains q Q /\
        (incl = false -> bitlen q < bitlen Q) /\
        forall q', stored t q' -> contains q' Q -> (incl = false -> bitlen q' < bitlen Q) ->
                   bitlen q <= bitlen q'
  | None =>
      forall q', stored t q' -> contains q' Q -> (incl = false -> bitlen q' < bitlen Q) -> False
  end.
Proof.
  intros Hr. pose proof (reachable_wf t Hr) as Hw.
  assert (Hwh : wf (family Q) (RADIX_HEAD t (family Q))) by (apply wf_tree_iff; exact Hw).
  assert (Hcand : forall q', stored t q' -> contains q' Q -> (incl = false -> bitlen q' < bitlen Q) ->
            exists e d l r, In e (best_push Q incl (RADIX_HEAD t (family Q)) [] []) /\
              fst e = Node (bitlen q') (Some q') d l r /\ worst_cand Q e = true).
  { intros q' Hs [Hf [Hle Hag]] Hi.
    pose proof (stored_in_head t q' (family Q) Hw Hs Hf) as Hin.
    destruct (best_push_complete (family Q) Q incl q' _ [] [] Hwh Hin Hle Hag) as (e & d & l & r & He & Hfe).
    { destruct incl; [left; reflexivity | right; specialize (Hi eq_refl); lia]. }
    exists e, d, l, r. split; [exact He|]. split; [exact Hfe|].
    unfold worst_cand. rewrite Hfe. apply comp_with_mask_spec, Hag. }
  unfold radix_search_worst2, search_worst2_z.
  destruct (RADIX_HEAD t (family Q)) as [|hb hp hd hl hr] eqn:Eh.
  - intros q' Hs Hc Hi. destruct (Hcand q' Hs Hc Hi) as (e & _ & _ & _ & He & _). simpl in He. exact He.
  - set (h := Node hb hp hd hl hr) in *.
    destruct (worst_scan Q (rev (best_push Q incl h [] []))) as [[n ctx]|] eqn:Ep.
    + pose proof (worst_scan_some _ _ _ Ep) as [Hin Hc]. apply in_rev in Hin.
      destruct (best_push_in Q incl h [] [] _ Hin) as [[] | (cd & b & q & d & l & r & H1 & H2 & H3 & H4 & H5)].
      simpl in H1, H2, H3. rewrite app_nil_r in H1. subst cd n.
      assert (Hwn : wf (family Q) (Node b (Some q) d l r)) by (eapply wf_zip_inv; rewrite H2; exact Hwh).
      assert (Hfq : family q = family Q /\ bitlen q = b) by (simpl in Hwn; tauto).
      destruct Hfq as [Hfq Hbq]. subst b.
      unfold worst_cand in Hc. simpl in Hc. apply comp_with_mask_spec in Hc.
      exists q. split.
      { unfold node_at. simpl. rewrite Eh. fold h. rewrite <- H2, get_zip. reflexivity. }
      split; [split; [exact Hfq | split; assumption]|].
      split; [intros Hi; subst incl; destruct H5 as [E | E]; [discriminate | lia]|].
      intros q' Hs Hc' Hi. destruct (Hcand q' Hs Hc' Hi) as (e & d' & l' & r' & He & Hfe & Hce).
      assert (Hsort : StronglySorted (fun a b => deeper b a) (rev (best_push Q incl h [] []))).
      { apply StronglySorted_rev, (best_push_sorted (family Q)); [exact Hwh | constructor | intros x []]. }
      pose proof (worst_scan_min Q _ _ Ep Hsort e (proj1 (in_rev _ _) He) Hce) as Hm.
      rewrite Hfe in Hm. simpl in Hm. exact Hm.
    + intros q' Hs Hc Hi. destruct (Hcand q' Hs Hc Hi) as (e & _ & _ & _ & He & _ & Hce).
      rewrite (worst_scan_none _ _ Ep e (proj1 (in_rev _ _) He)) in Hce. discriminate.
Qed.

(** The stack [radix_search_best2] and [radix_search_worst2] fill holds at
    most [P.bitlen + 1] entries, hence at most the family's bit width plus
    one. *)
Theorem X_search_stack_bound t P incl :
  reachable t -> valid_prefix P ->
  length (best_push P incl (RADIX_HEAD t (family P)) [] []) <= S (bitlen P) /\
  length (best_push P incl (RADIX_HEAD t (family P)) [] []) <= S (RADIX_MAXBITS_BY_PREFIX P).
Proof.
  intros Hr Hv. unfold valid_prefix in Hv.
  pose proof (best_push_length (family P) P incl (RADIX_HEAD t (family P)) [] [] 0
                (proj1 (wf_tree_iff t) (reachable_wf t Hr) (family P)) ltac:(right; lia)) as H.
  simpl in H. split; lia.
Qed.

(** For a stored prefix [P] and a callback that always returns 0,
    [radix_search_intersect] returns 0 and calls the callback exactly once
    on every node whose prefix contains [P] or is contained in [P], and
    never on any other node, nodes without a prefix (glue nodes)
    included. *)
Theorem X_intersect t P npP func :
  reachable t -> (forall x, func x = 0%Z) ->
  node_prefix (node_at t npP) = Some P ->
  fst (radix_search_intersect t P func) = 0%Z /\
  (forall np, node_prefix (node_at t np) = None ->
     count_occ nodeptr_eq_dec (snd (radix_search_intersect t P func)) np = 0) /\
  forall npQ Q, node_prefix (node_at t npQ) = Some Q ->
    ((contains Q P \/ contains P Q) ->
       count_occ nodeptr_eq_dec (snd (radix_search_intersect t P func)) npQ = 1) /\
    (~ (contains Q P \/ contains P Q) ->
       count_occ nodeptr_eq_dec (snd (radix_search_intersect t P func)) npQ = 0).
Proof.
  intros Hr Hf HP.
  pose proof (reachable_wf t Hr) as Hw.
  destruct npP as [fP pP]. unfold node_at in HP. simpl in HP.
  assert (EfP : family P = fP)
    by exact (proj1 (wf_InR _ _ _ (proj1 (wf_tree_iff t) Hw fP) (InR_get _ _ _ HP))).
  subst fP.
  assert (Hwh : wf (family P) (RADIX_HEAD t (family P))) by (apply wf_tree_iff; exact Hw).
  pose proof (wf_get _ _ pP Hwh) as Hwg.
  destruct (get (RADIX_HEAD t (family P)) pP) as [|b p d l r] eqn:Eg; [discriminate|].
  simpl in HP. subst p. assert (Hb : b = bitlen P) by (simpl in Hwg; symmetry; tauto). subst b.
  assert (HP0 : node_prefix (get (RADIX_HEAD t (family P)) pP) = Some P) by (rewrite Eg; reflexivity).
  destruct (intersect_calls t P pP func d l r Hf Hw Eg) as (ctx & Ep & Ez & EI).
  rewrite EI. split; [reflexivity|].
  split.
  { intros np Hnone. apply count_occ_not_In. intros Hin. cbn [snd] in Hin.
    apply in_app_or in Hin. destruct Hin as [Hin | Hin]; [|apply in_app_or in Hin; destruct Hin as [Hin | Hin]].
    - destruct (ancestor_calls_prefixed _ _ _ _ Hin) as [Ef Hpx]. rewrite Ez in Hpx.
      unfold node_at in Hnone. rewrite Ef in Hnone. exact (Hpx Hnone).
    - destruct (subtree_calls_prefixed _ _ _ _ Hin) as (s & -> & Hpx). unfold node_at in Hnone.
      cbn [nfam npath] in Hnone. rewrite path_of_cons, Ep, <- app_assoc, get_app, Eg in Hnone.
      exact (Hpx Hnone).
    - destruct (subtree_calls_prefixed _ _ _ _ Hin) as (s & -> & Hpx). unfold node_at in Hnone.
      cbn [nfam npath] in Hnone. rewrite path_of_cons, Ep, <- app_assoc, get_app, Eg in Hnone.
      exact (Hpx Hnone). }
  intros [fQ pQ] Q HQ. unfold node_at in HQ. simpl in HQ. cbn [snd]. rewrite !count_occ_app.
  assert (EfQ : family Q = fQ)
    by exact (proj1 (wf_InR _ _ _ (proj1 (wf_tree_iff t) Hw fQ) (InR_get _ _ _ HQ))).
  assert (EpL : path_of (Frame (bitlen P) (Some P) d DL r :: ctx) = pP ++ [DL])
    by (unfold path_of in *; simpl; rewrite Ep; reflexivity).
  assert (EpR : path_of (Frame (bitlen P) (Some P) d DR l :: ctx) = pP ++ [DR])
    by (unfold path_of in *; simpl; rewrite Ep; reflexivity).
  set (A := count_occ nodeptr_eq_dec
              (ancestor_calls (family P) (Node (bitlen P) (Some P) d l r) ctx) (mk_nodeptr fQ pQ)).
  set (B := count_occ nodeptr_eq_dec
              (subtree_calls (family P) l (Frame (bitlen P) (Some P) d DL r :: ctx)) (mk_nodeptr fQ pQ)).
  set (C := count_occ nodeptr_eq_dec
              (subtree_calls (family P) r (Frame (bitlen P) (Some P) d DR l :: ctx)) (mk_nodeptr fQ pQ)).
  assert (FA : A <> 0 -> fQ = family P /\ exists s, pP = pQ ++ s).
  { intros HA.
    assert (Hin : In (mk_nodeptr fQ pQ) (ancestor_calls (family P) (Node (bitlen P) (Some P) d l r) ctx))
      by (apply (count_occ_In nodeptr_eq_dec); unfold A in HA; lia).
    destruct (ancestor_calls_paths _ _ _ _ Hin) as (pi & s & Ex & Es).
    injection Ex as E1 E2. split; [exact E1|]. exists s. rewrite <- Ep, Es, E2. reflexivity. }
  assert (FB : B <> 0 -> fQ = family P /\ exists s, pQ = pP ++ DL :: s).
  { intros HB.
    assert (Hin : In (mk_nodeptr fQ pQ) (subtree_calls (family P) l (Frame (bitlen P) (Some P) d DL r :: ctx)))
      by (apply (count_occ_In nodeptr_eq_dec); unfold B in HB; lia).
    destruct (subtree_calls_paths _ _ _ _ Hin) as (s & Ex). rewrite EpL in Ex.
    injection Ex as E1 E2. split; [exact E1|]. exists s. rewrite E2, <- app_assoc. reflexivity. }
  assert (FC : C <> 0 -> fQ = family P /\ exists s, pQ = pP ++ DR :: s).
  { intros HC.
    assert (Hin : In (mk_nodeptr fQ pQ) (subtree_calls (family P) r (Frame (bitlen P) (Some P) d DR l :: ctx)))
      by (apply (count_occ_In nodeptr_eq_dec); unfold C in HC; lia).
    destruct (subtree_calls_paths _ _ _ _ Hin) as (s & Ex). rewrite EpR in Ex.
    injection Ex as E1 E2. split; [exact E1|]. exists s. rewrite E2, <- app_assoc. reflexivity. }
assert (K1 : forall sigma, fQ = family P -> pP = pQ ++ sigma -> A + (B + C) = 1).
  { intros sigma E1 E2.
    assert (HB : B = 0).
    { destruct (Nat.eq_dec B 0) as [|HB]; [assumption|]. destruct (FB HB) as [_ [s Es]]. exfalso.
      rewrite Es in E2. apply (f_equal (@length dir)) in E2. rewrite !length_app in E2. simpl in E2. lia. }
    assert (HC : C = 0).
    { destruct (Nat.eq_dec C 0) as [|HC]; [assumption|]. destruct (FC HC) as [_ [s Es]]. exfalso.
      rewrite Es in E2. apply (f_equal (@length dir)) in E2. rewrite !length_app in E2. simpl in E2. lia. }
    assert (HA : A = 1).
    { unfold A. rewrite E1 in HQ |- *.
      rewrite (ancestor_calls_count (family P) ctx _ pQ sigma) by (rewrite Ep; exact E2).
      rewrite Ez, HQ. reflexivity. }
    lia. }
  split.
  - intros [Hc|Hc].
    + destruct Hc as [Hfam [Hle Hag]]. assert (E1 : fQ = family P) by congruence. rewrite E1 in HQ.
      destruct (in_subtree _ pQ _ pP P Q Hwh HP0 HQ Hle Hag) as [sigma Es].
      exact (K1 sigma E1 Es).
    + destruct Hc as [Hfam [Hle Hag]]. assert (E1 : fQ = family P) by congruence. rewrite E1 in HQ.
      destruct (in_subtree _ pP _ pQ Q P Hwh HQ HP0 Hle Hag) as [[|x s] Es].
      * apply (K1 [] E1). rewrite app_nil_r in Es |- *. symmetry; exact Es.
      * assert (HA : A = 0).
        { destruct (Nat.eq_dec A 0) as [|HA]; [assumption|]. destruct (FA HA) as [_ [s' Es']]. exfalso.
          rewrite Es in Es'. apply (f_equal (@length dir)) in Es'. rewrite !length_app in Es'. simpl in Es'. lia. }
        rewrite Es in HQ. rewrite get_app, Eg in HQ.
        destruct x; simpl in HQ.
        -- assert (HB : B = 1).
           { unfold B. rewrite E1, Es.
             replace (pP ++ DL :: s) with (path_of (Frame (bitlen P) (Some P) d DL r :: ctx) ++ s)
               by (rewrite EpL, <- app_assoc; reflexivity).
             rewrite subtree_calls_count, HQ. reflexivity. }
           assert (HC : C = 0).
           { destruct (Nat.eq_dec C 0) as [|HC]; [assumption|]. destruct (FC HC) as [_ [s' Es']]. exfalso.
             rewrite Es in Es'. apply app_inv_head in Es'. discriminate. }
           lia.
        -- assert (HC : C = 1).
           { unfold C. rewrite E1, Es.
             replace (pP ++ DR :: s) with (path_of (Frame (bitlen P) (Some P) d DR l :: ctx) ++ s)
               by (rewrite EpR, <- app_assoc; reflexivity).
             rewrite subtree_calls_count, HQ. reflexivity. }
           assert (HB : B = 0).
           { destruct (Nat.eq_dec B 0) as [|HB]; [assumption|]. destruct (FB HB) as [_ [s' Es']]. exfalso.
             rewrite Es in Es'. apply app_inv_head in Es'. discriminate. }
           lia.
  - intros Hn.
    assert (HA : A = 0).
    { destruct (Nat.eq_dec A 0) as [|HA]; [assumption|]. destruct (FA HA) as [E1 [s Es]]. rewrite E1 in HQ.
      exfalso. apply Hn. left. rewrite Es in HP0. exact (ancestor_contains _ _ _ _ _ _ Hwh HQ HP0). }
    assert (HB : B = 0).
    { destruct (Nat.eq_dec B 0) as [|HB]; [assumption|]. destruct (FB HB) as [E1 [s Es]]. rewrite E1 in HQ.
      exfalso. apply Hn. right. rewrite Es in HQ. exact (ancestor_contains _ _ _ _ _ _ Hwh HP0 HQ). }
    assert (HC : C = 0).
    { destruct (Nat.eq_dec C 0) as [|HC]; [assumption|]. destruct (FC HC) as [E1 [s Es]]. rewrite E1 in HQ.
      exfalso. apply Hn. right. rewrite Es in HQ. exact (ancestor_contains _ _ _ _ _ _ Hwh HP0 HQ). }
    lia.
Qed.

(** For every prefix [Q] and a callback that always returns 0,
    [radix_search_covering] returns 0 and calls the callback exactly once on
    every node whose prefix contains [Q], and never on any other node,
    nodes without a prefix (glue nodes) included. *)
Theorem X_covering t Q func :
  reachable t -> (forall x, func x = 0%Z) ->
  fst (radix_search_covering t Q func) = 0%Z /\
  (forall np, node_prefix (node_at t np) = None ->
     count_occ nodeptr_eq_dec (snd (radix_search_covering t Q func)) np = 0) /\
  forall np q, node_prefix (node_at t np) = Some q ->
    (contains q Q -> count_occ nodeptr_eq_dec (snd (radix_search_covering t Q func)) np = 1) /\
    (~ contains q Q -> count_occ nodeptr_eq_dec (snd (radix_search_covering t Q func)) np = 0).
Proof.
  intros Hr Hf. pose proof (reachable_wf t Hr) as Hw.
  assert (Hwh : wf (family Q) (RADIX_HEAD t (family Q))) by (apply wf_tree_iff; exact Hw).
  pose proof (search_best2_z_true_spec t Q Hw) as Hs.
  unfold radix_search_covering.
  destruct (search_best2_z t Q true) as [[n ctx]|].
  2:{ split; [reflexivity|]. split; [intros; reflexivity|]. intros np q Hq. split; [|reflexivity].
      intros Hc. exfalso. exact (Hs q (ex_intro _ np Hq) Hc). }
  destruct Hs as (Ez & b & d & l & r & En & Hb & Hmax). subst n.
  split; [apply (covering_walk_rc func Hf)|].
  rewrite (covering_walk_calls func Hf). simpl app.
  split.
  { intros np Hnone. apply count_occ_not_In. intros Hin.
    destruct (ancestor_calls_prefixed _ _ _ _ Hin) as [Ef Hpx]. rewrite Ez in Hpx.
    unfold node_at in Hnone. rewrite Ef in Hnone. exact (Hpx Hnone). }
  assert (Hbp : node_prefix (get (RADIX_HEAD t (family Q)) (path_of ctx)) = Some b)
    by (rewrite <- Ez, get_zip; reflexivity).
  intros [f pi] q Hq. unfold node_at in Hq. simpl in Hq.
  assert (Efq : family q = f)
    by exact (proj1 (wf_InR _ _ _ (proj1 (wf_tree_iff t) Hw f) (InR_get _ _ _ Hq))).
  split.
  - intros Hc. assert (E1 : f = family Q) by (destruct Hc; congruence). rewrite E1 in Hq |- *.
    assert (Hle : bitlen q <= bitlen b) by (apply Hmax; [exists (mk_nodeptr (family Q) pi); exact Hq | exact Hc]).
    destruct Hc as [_ [_ Hag]]. destruct Hb as [_ [_ Hagb]].
    assert (Hqb : agree (add q) (add b) (bitlen q))
      by (apply (agree_trans _ (add Q)); [exact Hag | apply agree_sym, (agree_le _ _ (bitlen b)); assumption]).
    destruct (in_subtree _ pi _ (path_of ctx) b q Hwh Hbp Hq Hle Hqb) as [s Es].
    rewrite (ancestor_calls_count (family Q) ctx _ pi s Es), Ez, Hq. reflexivity.
  - intros Hn. destruct (count_occ nodeptr_eq_dec (ancestor_calls (family Q) (Node (bitlen b) (Some b) d l r) ctx)
                          (mk_nodeptr f pi)) eqn:Ec; [reflexivity|].
    exfalso. apply Hn.
    assert (Hin : In (mk_nodeptr f pi) (ancestor_calls (family Q) (Node (bitlen b) (Some b) d l r) ctx))
      by (apply (count_occ_In nodeptr_eq_dec); lia).
    destruct (ancestor_calls_paths _ _ _ _ Hin) as (pi' & s & Ex & Es).
    injection Ex as E1 E2. subst pi'. rewrite E1 in Hq.
    rewrite Es in Hbp.
    exact (contains_trans _ _ _ (ancestor_contains _ _ _ _ _ _ Hwh Hq Hbp) Hb).
Qed.

Lemma X_search_exact_iff_witness :
  reachable tree_10_8_kids /\
  (radix_search_exact tree_10_8_kids (v4 x0a x80 x00 x00 16) = Some (mk_nodeptr AF_INET [DR]) <->
   holds tree_10_8_kids (mk_nodeptr AF_INET [DR]) (v4 x0a x80 x00 x00 16)).
Proof.
  assert (Hr : reachable tree_10_8_kids)
    by (apply reachable_insert_all; [exact reach_new | vm_compute; reflexivity]).
  split; [exact Hr | exact (X_search_exact_iff _ _ _ Hr)].
Defined.

Lemma X_delete_keyerror_witness :
  reachable (rt (mk_radix_obj tree_10_8_kids 0)) /\
  (Radix_delete (mk_radix_obj tree_10_8_kids 0) (v4 x0b x00 x00 x00 8) =
     PyErr (mk_radix_obj tree_10_8_kids 0) KeyError <->
   ~ exists np, holds (rt (mk_radix_obj tree_10_8_kids 0)) np (v4 x0b x00 x00 x00 8)).
Proof.
  assert (Hr : reachable (rt (mk_radix_obj tree_10_8_kids 0)))
    by (apply reachable_insert_all; [exact reach_new | vm_compute; reflexivity]).
  split; [exact Hr | exact (X_delete_keyerror _ _ Hr)].
Defined.

Lemma X_add_search_exact_witness :
  reachable (rt (mk_radix_obj tree_10_8 0)) /\ valid_prefix (v4 x0a x80 x00 x00 16) /\
  exists self', Radix_add [] (Some 7) (mk_radix_obj tree_10_8 0) (v4 x0a x80 x00 x00 16) = PyOk self' 7 /\
    Radix_search_exact self' (v4 x0a x80 x00 x00 16) = Some 7.
Proof.
  assert (Hr : reachable (rt (mk_radix_obj tree_10_8 0)))
    by (apply reachable_insert_all; [exact reach_new | vm_compute; reflexivity]).
  assert (Hv : valid_prefix (v4 x0a x80 x00 x00 16)) by (apply Nat.leb_le; vm_compute; reflexivity).
  pose (r := Radix_add [] (Some 7) (mk_radix_obj tree_10_8 0) (v4 x0a x80 x00 x00 16)).
  assert (E : Radix_add [] (Some 7) (mk_radix_obj tree_10_8 0) (v4 x0a x80 x00 x00 16) =
              PyOk (match r with PyOk s _ => s | _ => mk_radix_obj tree_10_8 0 end) 7)
    by (vm_compute; reflexivity).
  split; [exact Hr|]. split; [exact Hv|].
  eexists. split; [exact E | exact (X_add_search_exact _ _ _ _ _ _ Hr Hv E)].
Defined.

Lemma X_add_search_best_witness :
  reachable (rt (mk_radix_obj tree_10_8 0)) /\ valid_prefix (v4 x0a x80 x00 x00 16) /\
  exists self', Radix_add [] (Some 7) (mk_radix_obj tree_10_8 0) (v4 x0a x80 x00 x00 16) = PyOk self' 7 /\
    Radix_search_best self' (v4 x0a x80 x00 x00 16) = Some 7.
Proof.
  assert (Hr : reachable (rt (mk_radix_obj tree_10_8 0)))
    by (apply reachable_insert_all; [exact reach_new | vm_compute; reflexivity]).
  assert (Hv : valid_prefix (v4 x0a x80 x00 x00 16)) by (apply Nat.leb_le; vm_compute; reflexivity).
  pose (r := Radix_add [] (Some 7) (mk_radix_obj tree_10_8 0) (v4 x0a x80 x00 x00 16)).
  assert (E : Radix_add [] (Some 7) (mk_radix_obj tree_10_8 0) (v4 x0a x80 x00 x00 16) =
              PyOk (match r with PyOk s _ => s | _ => mk_radix_obj tree_10_8 0 end) 7)
    by (vm_compute; reflexivity).
  split; [exact Hr|]. split; [exact Hv|].
  eexists. split; [exact E | exact (X_add_search_best _ _ _ _ _ _ Hr Hv E)].
Defined.

Lemma X_add_no_crash_witness :
  reachable (rt (mk_radix_obj tree_10_8 0)) /\ valid_prefix (v4 x0a x80 x00 x00 16) /\
  Radix_add [true; false] None (mk_radix_obj tree_10_8 0) (v4 x0a x80 x00 x00 16) <> PyCrash.
Proof.
  assert (Hr : reachable (rt (mk_radix_obj tree_10_8 0)))
    by (apply reachable_insert_all; [exact reach_new | vm_compute; reflexivity]).
  assert (Hv : valid_prefix (v4 x0a x80 x00 x00 16)) by (apply Nat.leb_le; vm_compute; reflexivity).
  split; [exact Hr|]. split; [exact Hv|]. exact (X_add_no_crash _ _ _ _ Hr Hv).
Defined.

Lemma X_search_worst_witness :
  reachable tree_10_8_kids /\
  match radix_search_worst2 tree_10_8_kids (v4 x0a x80 x05 x00 24) true with
  | Some np =>
      exists q, node_prefix (node_at tree_10_8_kids np) = Some q /\ contains q (v4 x0a x80 x05 x00 24) /\
        (true = false -> bitlen q < bitlen (v4 x0a x80 x05 x00 24)) /\
        forall q', stored tree_10_8_kids q' -> contains q' (v4 x0a x80 x05 x00 24) ->
                   (true = false -> bitlen q' < bitlen (v4 x0a x80 x05 x00 24)) -> bitlen q <= bitlen q'
  | None =>
      forall q', stored tree_10_8_kids q' -> contains q' (v4 x0a x80 x05 x00 24) ->
                 (true = false -> bitlen q' < bitlen (v4 x0a x80 x05 x00 24)) -> False
  end.
Proof.
  assert (Hr : reachable tree_10_8_kids)
    by (apply reachable_insert_all; [exact reach_new | vm_compute; reflexivity]).
  split; [exact Hr | exact (X_search_worst _ (v4 x0a x80 x05 x00 24) true Hr)].
Defined.

Lemma X_search_stack_bound_witness :
  reachable tree_10_8_kids /\ valid_prefix (v4 x0a x80 x05 x00 24) /\
  length (best_push (v4 x0a x80 x05 x00 24) true (RADIX_HEAD tree_10_8_kids AF_INET) [] []) <= 25 /\
  length (best_push (v4 x0a x80 x05 x00 24) true (RADIX_HEAD tree_10_8_kids AF_INET) [] []) <= 33.
Proof.
  assert (Hr : reachable tree_10_8_kids)
    by (apply reachable_insert_all; [exact reach_new | vm_compute; reflexivity]).
  assert (Hv : valid_prefix (v4 x0a x80 x05 x00 24)) by (apply Nat.leb_le; vm_compute; reflexivity).
  split; [exact Hr|]. split; [exact Hv|].
  exact (X_search_stack_bound _ (v4 x0a x80 x05 x00 24) true Hr Hv).
Defined.

Lemma X_intersect_witness :
  reachable tree_glue /\
  node_prefix (node_at tree_glue (mk_nodeptr AF_INET [])) = None /\
  node_prefix (node_at tree_glue (mk_nodeptr AF_INET [DR])) = Some (v4 x0a x80 x00 x00 16) /\
  fst (radix_search_intersect tree_glue (v4 x0a x80 x00 x00 16) (fun _ => 0%Z)) = 0%Z /\
  (forall np, node_prefix (node_at tree_glue np) = None ->
     count_occ nodeptr_eq_dec (snd (radix_search_intersect tree_glue (v4 x0a x80 x00 x00 16) (fun _ => 0%Z))) np = 0) /\
  forall npQ Q, node_prefix (node_at tree_glue npQ) = Some Q ->
    ((contains Q (v4 x0a x80 x00 x00 16) \/ contains (v4 x0a x80 x00 x00 16) Q) ->
       count_occ nodeptr_eq_dec
         (snd (radix_search_intersect tree_glue (v4 x0a x80 x00 x00 16) (fun _ => 0%Z))) npQ = 1) /\
    (~ (contains Q (v4 x0a x80 x00 x00 16) \/ contains (v4 x0a x80 x00 x00 16) Q) ->
       count_occ nodeptr_eq_dec
         (snd (radix_search_intersect tree_glue (v4 x0a x80 x00 x00 16) (fun _ => 0%Z))) npQ = 0).
Proof.
  assert (Hr : reachable tree_glue)
    by (apply reachable_insert_all; [exact reach_new | vm_compute; reflexivity]).
  assert (Hp : node_prefix (node_at tree_glue (mk_nodeptr AF_INET [DR])) = Some (v4 x0a x80 x00 x00 16))
    by (vm_compute; reflexivity).
  split; [exact Hr|]. split; [vm_compute; reflexivity|]. split; [exact Hp|].
  exact (X_intersect _ _ _ (fun _ => 0%Z) Hr (fun _ => eq_refl) Hp).
Defined.

Lemma X_covering_witness :
  reachable tree_glue /\
  node_prefix (node_at tree_glue (mk_nodeptr AF_INET [])) = None /\
  fst (radix_search_covering tree_glue (v4 x0a x80 x05 x00 24) (fun _ => 0%Z)) = 0%Z /\
  (forall np, node_prefix (node_at tree_glue np) = None ->
     count_occ nodeptr_eq_dec (snd (radix_search_covering tree_glue (v4 x0a x80 x05 x00 24) (fun _ => 0%Z))) np = 0) /\
  forall np q, node_prefix (node_at tree_glue np) = Some q ->
    (contains q (v4 x0a x80 x05 x00 24) ->
       count_occ nodeptr_eq_dec
         (snd (radix_search_covering tree_glue (v4 x0a x80 x05 x00 24) (fun _ => 0%Z))) np = 1) /\
    (~ contains q (v4 x0a x80 x05 x00 24) ->
       count_occ nodeptr_eq_dec
         (snd (radix_search_covering tree_glue (v4 x0a x80 x05 x00 24) (fun _ => 0%Z))) np = 0).
Proof.
  assert (Hr : reachable tree_glue)
    by (apply reachable_insert_all; [exact reach_new | vm_compute; reflexivity]).
  split; [exact Hr|]. split; [vm_compute; reflexivity|].
  exact (X_covering _ (v4 x0a x80 x05 x00 24) (fun _ => 0%Z) Hr (fun _ => eq_refl)).
Defined.

(** [Clear_Radix] on a reachable tree frees every node of both heads and
    lowers the node counter by one per freed node, so it ends at
    [num_active_node] minus the number of nodes, which is never negative
    (a node left behind by a failed glue allocation stays counted); when a
    callback is supplied it is called on every node holding a prefix and
    a payload, once each, in preorder (node, left, right) and IPv4 head
    first; without one nothing is called. *)
Theorem X_clear_radix t has_func :
  reachable t ->
  Clear_Radix t has_func =
  Some ((num_active_node t - Z.of_nat (count_nodes (head_ipv4 t) + count_nodes (head_ipv6 t)))%Z,
        if has_func then preorder_objs (head_ipv4 t) ++ preorder_objs (head_ipv6 t) else []) /\
  (0 <= num_active_node t - Z.of_nat (count_nodes (head_ipv4 t) + count_nodes (head_ipv6 t)))%Z.
Proof.
  intros Hr. destruct (reachable_inv t Hr) as [_ Hc]. unfold count_tree in Hc.
  split; [|lia].
  unfold Clear_Radix. rewrite !radix_clear_head_spec. f_equal. f_equal; [lia|].
  unfold objs_if. destruct has_func; reflexivity.
Qed.

(** In every tree built from [New_Radix] by inserts whose allocations all
    succeed, removals of stored prefixes and payload updates,
    [num_active_node] is the number of nodes, real and glue, hanging from
    [head_ipv4] and [head_ipv6]. *)
Theorem X_counter_no_failure t :
  reachable_ok t ->
  num_active_node t = Z.of_nat (count_nodes (head_ipv4 t) + count_nodes (head_ipv6 t)).
Proof. intros H. destruct (reachable_ok_inv t H) as [_ Hc]. unfold count_tree in Hc. lia. Qed.

Lemma X_counter_no_failure_witness :
  reachable_ok tree_glue /\
  num_active_node tree_glue = Z.of_nat (count_nodes (head_ipv4 tree_glue) + count_nodes (head_ipv6 tree_glue)).
Proof.
  assert (H : reachable_ok tree_glue)
    by (apply reachable_ok_insert_all; [exact rok_new | vm_compute; reflexivity]).
  split; [exact H | exact (X_counter_no_failure tree_glue H)].
Defined.

(** [sanitise_mask addr masklen maskbits], for an address of [maskbits / 8]
    bytes and [masklen <= maskbits], keeps the length of the address and
    its first [masklen] bits and clears every bit from [masklen] on. *)
Theorem X_sanitise_mask addr masklen maskbits :
  maskbits = 8 * length addr -> masklen <= maskbits ->
  length (sanitise_mask addr masklen maskbits) = length addr /\
  agree (sanitise_mask addr masklen maskbits) addr masklen /\
  (forall b, masklen <= b -> BIT_TEST_SEARCH_BIT (sanitise_mask addr masklen maskbits) b = false).
Proof.
  intros Hb Hm.
  pose proof (Nat.div_mod_eq masklen 8) as Hd. pose proof (Nat.mod_upper_bound masklen 8 ltac:(lia)) as Hj.
  split; [|split].
  - unfold sanitise_mask. destruct (negb (masklen mod 8 =? 0)); rewrite zero_loop_length; [apply set_byte_length | reflexivity].
  - intros b Hlt. unfold BIT_TEST_SEARCH_BIT. rewrite byte_at_sanitise by assumption.
    pose proof (Nat.div_mod_eq b 8) as Hdb. pose proof (Nat.mod_upper_bound b 8 ltac:(lia)) as Hjb.
    destruct (Nat.ltb_spec (b / 8) (masklen / 8)); [reflexivity|].
    assert (Eq : b / 8 = masklen / 8) by lia.
    rewrite Eq, Nat.eqb_refl. destruct (Nat.eqb_spec (masklen mod 8) 0); [lia|]. cbn [andb negb].
    rewrite mask_byte_bit by lia. rewrite (proj2 (Nat.ltb_lt _ _)) by lia. reflexivity.
  - intros b Hge. unfold BIT_TEST_SEARCH_BIT. rewrite byte_at_sanitise by assumption.
    pose proof (Nat.div_mod_eq b 8) as Hdb. pose proof (Nat.mod_upper_bound b 8 ltac:(lia)) as Hjb.
    destruct (Nat.ltb_spec (b / 8) (masklen / 8)); [lia|].
    destruct (Nat.eqb_spec (b / 8) (masklen / 8)) as [Eq|]; [|reflexivity].
    destruct (Nat.eqb_spec (masklen mod 8) 0); [reflexivity|]. cbn [andb negb].
    rewrite mask_byte_bit by lia. rewrite (proj2 (Nat.ltb_ge _ _)) by lia. reflexivity.
Qed.

(** [prefix_from_blob_ex] on a blob of [len] bytes returns [NULL] exactly
    when [len] is neither 4 nor 16, or [prefixlen] lies outside
    [-1 .. 8 * len], or a prefix has to be allocated ([ret] is [NULL]) and
    the allocation fails: the two cases of the result are exclusive.
    Otherwise the prefix has the family the length
    selects, the blob as its address, the length [prefixlen] ([-1] meaning
    the full address length), a well-formed length, and a reference count
    of 1 when it was allocated and 0 when [ret] was filled in. *)
Theorem X_prefix_from_blob malloc_ok ret blob len prefixlen :
  Z.of_nat (length blob) = len ->
  match prefix_from_blob_ex malloc_ok ret blob len prefixlen with
  | Some (P, rc) =>
      ((len = 4 \/ len = 16) /\ (-1 <= prefixlen <= 8 * len))%Z /\ (ret <> None \/ malloc_ok = true) /\
      valid_prefix P /\ add P = blob /\ 8 * length blob = RADIX_MAXBITS_BY_PREFIX P /\
      Z.of_nat (bitlen P) = (if (prefixlen =? -1)%Z then Z.of_nat (RADIX_MAXBITS_BY_PREFIX P) else prefixlen) /\
      rc = (match ret with None => 1 | Some _ => 0 end)%Z
  | None =>
      ~ ((len = 4 \/ len = 16) /\ (-1 <= prefixlen <= 8 * len))%Z \/ (ret = None /\ malloc_ok = false)
  end.
Proof.
  intros Hl. unfold prefix_from_blob_ex.
  destruct (Z.eqb_spec len 4) as [E4|N4]; [|destruct (Z.eqb_spec len 16) as [E16|N16]].
  - set (pl := if (prefixlen =? -1)%Z then 32%Z else prefixlen).
    destruct ((pl <? 0)%Z || (pl >? 32)%Z) eqn:Ec.
    + left. intros [_ Hr]. unfold pl in Ec.
      destruct (Z.eqb_spec prefixlen (-1)); apply orb_true_iff in Ec;
        rewrite Z.ltb_lt, Z.gtb_lt in Ec; lia.
    + apply orb_false_iff in Ec. destruct Ec as [E1 E2]. apply Z.ltb_ge in E1.
      rewrite Z.gtb_ltb in E2. apply Z.ltb_ge in E2.
      unfold New_Prefix2. destruct ret as [old|], malloc_ok; cbn [andb negb];
        try (right; split; reflexivity).
      all: (split; [split; [lia | unfold pl in E1, E2; destruct (Z.eqb_spec prefixlen (-1)); lia] |]);
        (split; [first [left; discriminate | right; reflexivity] |]);
        rewrite (proj2 (Z.geb_le pl 0)) by lia;
        assert (Hlen : length blob = 4) by lia;
        rewrite firstn_all2 by lia; unfold valid_prefix, RADIX_MAXBITS_BY_PREFIX; cbn [family add bitlen maxbits_of];
        (split; [lia|]); (split; [reflexivity|]); (split; [lia|]); (split; [|reflexivity]);
        unfold pl; destruct (Z.eqb_spec prefixlen (-1)); lia.
  - set (pl := if (prefixlen =? -1)%Z then 128%Z else prefixlen).
    destruct ((pl <? 0)%Z || (pl >? 128)%Z) eqn:Ec.
    + left. intros [_ Hr]. unfold pl in Ec.
      destruct (Z.eqb_spec prefixlen (-1)); apply orb_true_iff in Ec;
        rewrite Z.ltb_lt, Z.gtb_lt in Ec; lia.
    + apply orb_false_iff in Ec. destruct Ec as [E1 E2]. apply Z.ltb_ge in E1.
      rewrite Z.gtb_ltb in E2. apply Z.ltb_ge in E2.
      unfold New_Prefix2. destruct ret as [old|], malloc_ok; cbn [andb negb];
        try (right; split; reflexivity).
      all: (split; [split; [lia | unfold pl in E1, E2; destruct (Z.eqb_spec prefixlen (-1)); lia] |]);
        (split; [first [left; discriminate | right; reflexivity] |]);
        rewrite (proj2 (Z.geb_le pl 0)) by lia;
        assert (Hlen : length blob = 16) by lia;
        rewrite firstn_all2 by lia; unfold valid_prefix, RADIX_MAXBITS_BY_PREFIX; cbn [family add bitlen maxbits_of];
        (split; [lia|]); (split; [reflexivity|]); (split; [lia|]); (split; [|reflexivity]);
        unfold pl; destruct (Z.eqb_spec prefixlen (-1)); lia.
  - left. intros [[H|H] _]; contradiction.
Qed.


(** [RadixNode.parent] of a node holding [P] in a reachable tree returns
    the payload of the longest stored prefix that strictly contains [P]
    among those whose node has a payload, and [None] when there is no such
    prefix. *)
Theorem X_parent t np P :
  reachable t -> node_prefix (node_at t np) = Some P ->
  match Radix_parent t (Some np) with
  | Some o =>
      exists np' q, node_prefix (node_at t np') = Some q /\ node_data (node_at t np') = Some o /\
        contains q P /\ bitlen q < bitlen P /\
        forall np'' q'', node_prefix (node_at t np'') = Some q'' -> node_data (node_at t np'') <> None ->
          contains q'' P -> bitlen q'' < bitlen P -> bitlen q'' <= bitlen q
  | None =>
      forall np'' q'', node_prefix (node_at t np'') = Some q'' -> node_data (node_at t np'') <> None ->
        contains q'' P -> bitlen q'' < bitlen P -> False
  end.
Proof.
  intros Hr HP.
  destruct np as [fam path]. unfold node_at in HP. cbn [nfam npath] in HP.
  set (h := RADIX_HEAD t fam) in *.
  assert (Hw : wf fam h) by (apply wf_tree_iff, reachable_wf, Hr).
  assert (Hd : dok h) by (apply dok_tree_iff, reachable_dok, Hr).
  assert (HfP : family P = fam) by exact (proj1 (wf_InR _ _ _ Hw (InR_get _ _ _ HP))).
  (* a node holding a strict container of [P] lies on [path] *)
  assert (Hon : forall np'' q'', node_prefix (node_at t np'') = Some q'' ->
            contains q'' P -> bitlen q'' < bitlen P ->
            np'' = mk_nodeptr fam (firstn (length (npath np'')) path) /\
            length (npath np'') < length path).
  { intros [fam'' pa''] q'' Hq'' Hc Hlt. unfold node_at in Hq''. cbn [nfam npath] in *.
    assert (Hw'' : wf fam'' (RADIX_HEAD t fam'')) by (apply wf_tree_iff, reachable_wf, Hr).
    assert (Hf'' : family q'' = fam'') by exact (proj1 (wf_InR _ _ _ Hw'' (InR_get _ _ _ Hq''))).
    assert (Efam : fam'' = fam) by (destruct Hc as [Hc _]; congruence). clear Hf'' Hw''. subst fam''.
    destruct (contains_anc fam h pa'' path q'' P Hw Hq'' HP Hc Hlt) as (s & -> & Hs).
    rewrite firstn_app, Nat.sub_diag, firstn_O, app_nil_r, firstn_all.
    split; [reflexivity|]. rewrite length_app. destruct s; [congruence | simpl; lia]. }
  unfold Radix_parent. cbn [nfam npath]. fold h.
  pose proof (parent_walk_locate path h []) as Hpw. cbn [parent_walk] in Hpw.
  destruct (parent_walk (snd (locate h path []))) as [o|].
  - destruct Hpw as [(k & Hk & Hdk & Hmax) | [_ Hc]]; [|discriminate].
    assert (Hpk : node_prefix (get h (firstn k path)) <> None).
    { pose proof (dok_get (firstn k path) h Hd) as Hdg.
      destruct (get h (firstn k path)) as [|b p d l r]; simpl in Hdk, Hdg |- *; [discriminate|].
      apply (proj1 Hdg). congruence. }
    destruct (node_prefix (get h (firstn k path))) as [q|] eqn:Eq; [|congruence].
    assert (Hsplit : forall j, j <= length path -> path = firstn j path ++ skipn j path)
      by (intros j _; symmetry; apply firstn_skipn).
    assert (Hnon : forall j, j < length path -> skipn j path <> []).
    { intros j Hj E. pose proof (length_skipn j path) as L. rewrite E in L. simpl in L. lia. }
    assert (Hqc : contains q P /\ bitlen q < bitlen P).
    { apply (path_anc fam h (firstn k path) (skipn k path)); [exact Hw | exact Eq | | apply Hnon, Hk].
      rewrite firstn_skipn. exact HP. }
    exists (mk_nodeptr fam (firstn k path)), q. unfold node_at. cbn [nfam npath]. fold h.
    split; [exact Eq|]. split; [exact Hdk|]. split; [exact (proj1 Hqc)|]. split; [exact (proj2 Hqc)|].
    intros np'' q'' Hq'' Hdd Hc Hlt.
    destruct (Hon np'' q'' Hq'' Hc Hlt) as [Enp Hlen].
    set (k'' := length (npath np'')) in *.
    rewrite Enp in Hq'', Hdd. unfold node_at in Hq'', Hdd. cbn [nfam npath] in Hq'', Hdd. fold h in Hq'', Hdd.
    destruct (Nat.lt_trichotomy k'' k) as [Hlt' | [Heq | Hgt]].
    + assert (Hpre : firstn k path = firstn k'' path ++ firstn (k - k'') (skipn k'' path)).
      { rewrite <- (firstn_skipn k'' path) at 1. rewrite firstn_app, length_firstn.
        rewrite firstn_firstn. f_equal; [f_equal; lia | f_equal; lia]. }
      assert (Hne : firstn (k - k'') (skipn k'' path) <> []).
      { intros E. apply (f_equal (@length dir)) in E. rewrite length_firstn, length_skipn in E.
        simpl in E. lia. }
      rewrite Hpre in Eq.
      pose proof (path_anc fam h (firstn k'' path) _ q'' q Hw Hq'' Eq Hne) as [_ Hb]. lia.
    + rewrite Heq, Eq in Hq''. injection Hq'' as ->. lia.
    + exfalso. apply Hdd. apply Hmax. lia.
  - destruct Hpw as [Hall _].
    intros np'' q'' Hq'' Hdd Hc Hlt.
    destruct (Hon np'' q'' Hq'' Hc Hlt) as [Enp Hlen].
    rewrite Enp in Hdd. unfold node_at in Hdd. cbn [nfam npath] in Hdd. fold h in Hdd.
    apply Hdd, Hall, Hlen.
Qed.

Lemma X_clear_radix_witness :
  reachable (add_active tree_10_8 1) /\
  Clear_Radix (add_active tree_10_8 1) true =
  Some ((num_active_node (add_active tree_10_8 1) -
         Z.of_nat (count_nodes (head_ipv4 (add_active tree_10_8 1)) +
                   count_nodes (head_ipv6 (add_active tree_10_8 1))))%Z,
        preorder_objs (head_ipv4 (add_active tree_10_8 1)) ++
        preorder_objs (head_ipv6 (add_active tree_10_8 1))) /\
  (0 <= num_active_node (add_active tree_10_8 1) -
        Z.of_nat (count_nodes (head_ipv4 (add_active tree_10_8 1)) +
                  count_nodes (head_ipv6 (add_active tree_10_8 1))))%Z.
Proof.
  assert (Hr : reachable (add_active tree_10_8 1)).
  { apply (reach_nomem tree_10_8 (v4 x0b x00 x00 x00 8) [true; false]).
    - apply reachable_insert_all; [exact reach_new | vm_compute; reflexivity].
    - apply Nat.leb_le. vm_compute. reflexivity.
    - vm_compute. reflexivity. }
  split; [exact Hr|]. exact (X_clear_radix (add_active tree_10_8 1) true Hr).
Defined.

Lemma X_sanitise_mask_witness :
  32 = 8 * length [x0a; x80; x05; x07] /\ 20 <= 32 /\
  length (sanitise_mask [x0a; x80; x05; x07] 20 32) = length [x0a; x80; x05; x07] /\
  agree (sanitise_mask [x0a; x80; x05; x07] 20 32) [x0a; x80; x05; x07] 20 /\
  (forall b, 20 <= b -> BIT_TEST_SEARCH_BIT (sanitise_mask [x0a; x80; x05; x07] 20 32) b = false).
Proof.
  split; [reflexivity|]. split; [lia|].
  exact (X_sanitise_mask [x0a; x80; x05; x07] 20 32 eq_refl ltac:(lia)).
Defined.

Lemma X_prefix_from_blob_witness :
  Z.of_nat (length [x0a; x00; x00; x00]) = 4%Z /\
  match prefix_from_blob_ex true None [x0a; x00; x00; x00] 4 8 with
  | Some (P, rc) =>
      ((4 = 4 \/ 4 = 16) /\ (-1 <= 8 <= 8 * 4))%Z /\ (@None prefix_t <> None \/ true = true) /\
      valid_prefix P /\ add P = [x0a; x00; x00; x00] /\ 8 * length [x0a; x00; x00; x00] = RADIX_MAXBITS_BY_PREFIX P /\
      Z.of_nat (bitlen P) = (if (8 =? -1)%Z then Z.of_nat (RADIX_MAXBITS_BY_PREFIX P) else 8%Z) /\
      rc = 1%Z
  | None => ~ ((4 = 4 \/ 4 = 16) /\ (-1 <= 8 <= 8 * 4))%Z \/ (@None prefix_t = None /\ true = false)
  end.
Proof.
  split; [reflexivity|].
  exact (X_prefix_from_blob true None [x0a; x00; x00; x00] 4 8 eq_refl).
Defined.


Lemma X_parent_witness :
  reachable tree_parent_demo /\
  node_prefix (node_at tree_parent_demo (mk_nodeptr AF_INET [DR])) = Some (v4 x0a x80 x00 x00 16) /\
  Radix_parent tree_parent_demo (Some (mk_nodeptr AF_INET [DR])) = Some 7 /\
  match Radix_parent tree_parent_demo (Some (mk_nodeptr AF_INET [DR])) with
  | Some o =>
      exists np' q, node_prefix (node_at tree_parent_demo np') = Some q /\
        node_data (node_at tree_parent_demo np') = Some o /\
        contains q (v4 x0a x80 x00 x00 16) /\ bitlen q < bitlen (v4 x0a x80 x00 x00 16) /\
        forall np'' q'', node_prefix (node_at tree_parent_demo np'') = Some q'' ->
          node_data (node_at tree_parent_demo np'') <> None ->
          contains q'' (v4 x0a x80 x00 x00 16) -> bitlen q'' < bitlen (v4 x0a x80 x00 x00 16) ->
          bitlen q'' <= bitlen q
  | None =>
      forall np'' q'', node_prefix (node_at tree_parent_demo np'') = Some q'' ->
        node_data (node_at tree_parent_demo np'') <> None ->
        contains q'' (v4 x0a x80 x00 x00 16) -> bitlen q'' < bitlen (v4 x0a x80 x00 x00 16) -> False
  end.
Proof.
  assert (Hr0 : reachable tree_10_8_kids)
    by (apply reachable_insert_all; [exact reach_new | vm_compute; reflexivity]).
  assert (Hr : reachable tree_parent_demo)
    by (apply reach_data; [exact Hr0 | vm_compute; discriminate]).
  assert (HP : node_prefix (node_at tree_parent_demo (mk_nodeptr AF_INET [DR])) =
               Some (v4 x0a x80 x00 x00 16)) by (vm_compute; reflexivity).
  split; [exact Hr|]. split; [exact HP|]. split; [vm_compute; reflexivity|].
  exact (X_parent tree_parent_demo (mk_nodeptr AF_INET [DR]) (v4 x0a x80 x00 x00 16) Hr HP).
Defined.

(** For every prefix [Q], every [inclusive] flag and a callback that
    always returns 0, [radix_search_covered] returns 0 and calls the
    callback exactly once on every node whose prefix is contained in [Q]
    and is longer than [Q] (or as long as [Q] when [inclusive] is set), and
    never on any other node, nodes without a prefix included. *)
Theorem X_search_covered t Q func incl :
  reachable t -> (forall x, func x = 0%Z) ->
  fst (radix_search_covered t Q func incl) = 0%Z /\
  (forall np, node_prefix (node_at t np) = None ->
     count_occ nodeptr_eq_dec (snd (radix_search_covered t Q func incl)) np = 0) /\
  forall np q, node_prefix (node_at t np) = Some q ->
    (contains Q q /\ (incl = true \/ bitlen Q < bitlen q) ->
       count_occ nodeptr_eq_dec (snd (radix_search_covered t Q func incl)) np = 1) /\
    (~ (contains Q q /\ (incl = true \/ bitlen Q < bitlen q)) ->
       count_occ nodeptr_eq_dec (snd (radix_search_covered t Q func incl)) np = 0).
Proof.
  intros Hr Hf. destruct (covered_counts t Q func incl (reachable_wf t Hr) Hf) as [H0 Hc].
  split; [exact H0|]. split.
  - intros np Hn. rewrite Hc. unfold covered_target. rewrite Hn. reflexivity.
  - intros np q Hq. rewrite Hc. unfold covered_target. rewrite Hq. split.
    + intros [Hcq Hi]. destruct (containsb_spec Q q) as [_|Hn]; [|contradiction].
      destruct Hi as [-> | Hlt]; [reflexivity|].
      rewrite (proj2 (Nat.ltb_lt _ _) Hlt), orb_true_r. reflexivity.
    + intros Hn. destruct (containsb_spec Q q) as [Hcq|]; [|reflexivity].
      destruct incl; [exfalso; apply Hn; auto|]. cbn [orb].
      destruct (bitlen Q <? bitlen q) eqn:E; [|reflexivity].
      exfalso. apply Hn. split; [exact Hcq | right; apply Nat.ltb_lt, E].
Qed.

Lemma X_search_covered_witness :
  reachable tree_10_8_kids /\
  snd (radix_search_covered tree_10_8_kids (v4 x0a x00 x00 x00 12) (fun _ => 0%Z) true) =
    [mk_nodeptr AF_INET [DL]] /\
  fst (radix_search_covered tree_10_8_kids (v4 x0a x00 x00 x00 12) (fun _ => 0%Z) true) = 0%Z /\
  (forall np, node_prefix (node_at tree_10_8_kids np) = None ->
     count_occ nodeptr_eq_dec
       (snd (radix_search_covered tree_10_8_kids (v4 x0a x00 x00 x00 12) (fun _ => 0%Z) true)) np = 0) /\
  forall np q, node_prefix (node_at tree_10_8_kids np) = Some q ->
    (contains (v4 x0a x00 x00 x00 12) q /\ (true = true \/ bitlen (v4 x0a x00 x00 x00 12) < bitlen q) ->
       count_occ nodeptr_eq_dec
         (snd (radix_search_covered tree_10_8_kids (v4 x0a x00 x00 x00 12) (fun _ => 0%Z) true)) np = 1) /\
    (~ (contains (v4 x0a x00 x00 x00 12) q /\ (true = true \/ bitlen (v4 x0a x00 x00 x00 12) < bitlen q)) ->
       count_occ nodeptr_eq_dec
         (snd (radix_search_covered tree_10_8_kids (v4 x0a x00 x00 x00 12) (fun _ => 0%Z) true)) np = 0).
Proof.
  assert (Hr : reachable tree_10_8_kids)
    by (apply reachable_insert_all; [exact reach_new | vm_compute; reflexivity]).
  split; [exact Hr|]. split; [vm_compute; reflexivity|].
  exact (X_search_covered _ (v4 x0a x00 x00 x00 12) (fun _ => 0%Z) true Hr (fun _ => eq_refl)).
Defined.
